(** * paths2openscad: a shallow embedding of the geometry pipeline

    The embedding follows [src/paths2openscad.py].  Coordinates are Python
    floats in the source; here they are exact rationals ([Q]), compared with
    the boolean tests of [QArith].  A Python exception is modelled by [None]
    in an [option] result. *)

From Stdlib Require Import Ascii String QArith Qabs Lia Lqa.
From stdpp Require Import base option list gmap strings pretty.

Local Open Scope Q_scope.

(** ** Numbers *)

(** [a < b] on floats, as a boolean. *)
Definition Qltb (a b : Q) : bool := negb (Qle_bool b a).

(** Python's [min(a, b)] and [max(a, b)]: the first argument is kept unless
    the second is strictly smaller (resp. larger). *)
Definition pymin (a b : Q) : Q := if Qltb b a then b else a.
Definition pymax (a b : Q) : Q := if Qltb a b then b else a.

(** ** Points, polygons and bounding boxes *)

(** A point is the two-element list [[x, y]]. *)
Definition point : Type := Q * Q.

(** [p == q] on two-element lists of floats. *)
Definition point_eqb (p q : point) : bool :=
  Qeq_bool p.1 q.1 && Qeq_bool p.2 q.2.

(** A bounding box is the list [[xmin, xmax, ymin, ymax]]. *)
Record bbox : Type := BBox {
  bxmin : Q;
  bxmax : Q;
  bymin : Q;
  bymax : Q
}.

(** [pointInBBox(pt, bbox)] *)
Definition pointInBBox (pt : point) (b : bbox) : bool :=
  if Qltb pt.1 (bxmin b) || Qltb (bxmax b) pt.1
     || Qltb pt.2 (bymin b) || Qltb (bymax b) pt.2
  then false else true.

(** [bboxInBBox(bbox1, bbox2)] *)
Definition bboxInBBox (b1 b2 : bbox) : bool :=
  if Qltb (bxmin b1) (bxmin b2) || Qltb (bxmax b2) (bxmax b1)
     || Qltb (bymin b1) (bymin b2) || Qltb (bymax b2) (bymax b1)
  then false else true.

(** The test of the first loop of [pointInPoly]: the point lies on the
    horizontal segment [p1 p2], strictly between its end points. *)
Definition on_horizontal (p p1 p2 : point) : bool :=
  Qeq_bool p.2 p1.2 && Qeq_bool p1.2 p2.2
  && Qltb (pymin p1.1 p2.1) p.1 && Qltb p.1 (pymax p1.1 p2.1).

(** The pair [(p1, p2)] examined by iteration [i] of the first loop:
    [poly[0], poly[1]] when [i = 0], and [poly[i - 1], poly[i]] otherwise. *)
Definition horizontal_edge (poly : list point) (d : point) (i : nat)
  : point * point :=
  match i with
  | O => (nth 0 poly d, nth 1 poly d)
  | S j => (nth j poly d, nth i poly d)
  end.

(** One iteration of the ray-casting loop.  The state is [inside] and the
    previous vertex [(p1_x, p1_y)]. *)
Definition ray_step (x y : Q) (poly : list point) (d : point)
    (acc : bool * point) (i : nat) : bool * point :=
  let '(inside, (p1_x, p1_y)) := acc in
  let '(p2_x, p2_y) := nth (i mod length poly)%nat poly d in
  let inside' :=
    if Qltb (pymin p1_y p2_y) y then
      if Qle_bool y (pymax p1_y p2_y) then
        if Qle_bool x (pymax p1_x p2_x) then
          if negb (Qeq_bool p1_y p2_y) then
            let intersect := p1_x + (y - p1_y) * (p2_x - p1_x) / (p2_y - p1_y) in
            if Qle_bool x intersect then negb inside else inside
          else negb inside
        else inside
      else inside
    else inside in
  (inside', (p2_x, p2_y)).

(** [pointInPoly(p, poly, bbox=None)].  [p] and [poly] are never [None] in
    this embedding.  [poly[0]] and [poly[1]] raise [IndexError] on a polygon
    of fewer than two vertices once the vertex test has failed. *)
Definition pointInPoly (p : point) (poly : list point) (bb : option bbox)
  : option bool :=
  if match bb with Some b => negb (pointInBBox p b) | None => false end
  then Some false
  else if existsb (point_eqb p) poly then Some true
  else
    match poly with
    | p0 :: _ :: _ =>
        if existsb (fun i => let '(p1, p2) := horizontal_edge poly p0 i in
                             on_horizontal p p1 p2)
                   (seq 0 (length poly))
        then Some true
        else Some (fold_left (ray_step p.1 p.2 poly p0)
                             (seq 0 (length poly + 1)) (false, p0)).1
    | _ => None
    end.

(** The loop [for p in poly1] of [polyInPoly], with the list of points
    handed to [pointInPoly] so far. *)
Fixpoint polyInPoly_loop (poly1 poly2 : list point) (bbox2 : option bbox)
    (tested : list point) : option bool * list point :=
  match poly1 with
  | [] => (Some true, tested)
  | p :: rest =>
      match pointInPoly p poly2 bbox2 with
      | None => (None, tested ++ [p])
      | Some false => (Some false, tested ++ [p])
      | Some true => polyInPoly_loop rest poly2 bbox2 (tested ++ [p])
      end
  end.

(** [polyInPoly(poly1, bbox1, poly2, bbox2)], returning its result together
    with the points on which [pointInPoly] was called. *)
Definition polyInPoly_run (poly1 : list point) (bbox1 : option bbox)
    (poly2 : list point) (bbox2 : option bbox) : option bool * list point :=
  if match bbox1, bbox2 with
     | Some b1, Some b2 => negb (bboxInBBox b1 b2)
     | _, _ => false
     end
  then (Some false, [])
  else polyInPoly_loop poly1 poly2 bbox2 [].

Definition polyInPoly (poly1 : list point) (bbox1 : option bbox)
    (poly2 : list point) (bbox2 : option bbox) : option bool :=
  (polyInPoly_run poly1 bbox1 poly2 bbox2).1.

(** ** Regular expressions

    The four patterns of the source are compiled with Python's [re]; the
    embedding interprets their syntax trees with a backtracking matcher that
    tries alternatives in Python's order (greedy quantifiers take the longest
    run first, the lazy one the shortest).  Quantifiers are applied to single
    character classes and to optional groups only, which is all the patterns
    use.  Each pattern has exactly one capturing group. *)

Local Open Scope string_scope.

Inductive regex : Type :=
| RChar (c : ascii)                  (* a literal character *)
| RSet (f : ascii -> bool)           (* a character class *)
| RSeq (r1 r2 : regex)               (* r1r2 *)
| RAlt (r1 r2 : regex)               (* r1|r2 *)
| ROpt (r : regex)                   (* r? *)
| RStar (f : ascii -> bool)          (* [..]* *)
| RStarLazy (f : ascii -> bool)      (* [..]*? *)
| RPlus (f : ascii -> bool)          (* [..]+ *)
| RGroup (r : regex)                 (* (r), the capturing group *)
| RBol                               (* ^ *)
| REol.                              (* $ *)

Infix "@@" := RSeq (at level 60, right associativity).

(** A literal word. *)
Fixpoint RLit (s : string) : regex :=
  match s with
  | EmptyString => ROpt (RSet (fun _ => false))
  | String c EmptyString => RChar c
  | String c s' => RChar c @@ RLit s'
  end.

Definition newline : ascii := ascii_of_nat 10.

(** [\d], [\s] and [.] for byte strings without flags. *)
Definition is_digit (c : ascii) : bool :=
  let n := nat_of_ascii c in (48 <=? n)%nat && (n <=? 57)%nat.
Definition is_space (c : ascii) : bool :=
  let n := nat_of_ascii c in (n =? 32)%nat || ((9 <=? n)%nat && (n <=? 13)%nat).
Definition is_dot (c : ascii) : bool := negb (Ascii.eqb c newline).

Fixpoint one_of (s : string) (c : ascii) : bool :=
  match s with
  | EmptyString => false
  | String c' s' => Ascii.eqb c c' || one_of s' c
  end.

(** The matcher's position: the character before it, the text after it, and
    what the capturing group holds. *)
Record mstate : Type := MState {
  ms_prev : option ascii;
  ms_rest : string;
  ms_group : option string
}.

Fixpoint string_take (n : nat) (s : string) : string :=
  match n, s with
  | S n', String c s' => String c (string_take n' s')
  | _, _ => EmptyString
  end.

Definition at_bol (multiline : bool) (st : mstate) : bool :=
  match ms_prev st with
  | None => true
  | Some c => multiline && Ascii.eqb c newline
  end.

Definition at_eol (multiline : bool) (st : mstate) : bool :=
  match ms_rest st with
  | EmptyString => true
  | String c s' =>
      Ascii.eqb c newline
      && (multiline || match s' with EmptyString => true | _ => false end)
  end.

Fixpoint rmatch {A : Type} (multiline : bool) (r : regex) (st : mstate)
    (k : mstate -> option A) : option A :=
  match r with
  | RChar c =>
      match ms_rest st with
      | String c' s' =>
          if Ascii.eqb c' c then k (MState (Some c') s' (ms_group st)) else None
      | EmptyString => None
      end
  | RSet f =>
      match ms_rest st with
      | String c' s' =>
          if f c' then k (MState (Some c') s' (ms_group st)) else None
      | EmptyString => None
      end
  | RSeq r1 r2 => rmatch multiline r1 st (fun st' => rmatch multiline r2 st' k)
  | RAlt r1 r2 =>
      match rmatch multiline r1 st k with
      | Some x => Some x
      | None => rmatch multiline r2 st k
      end
  | ROpt r1 =>
      match rmatch multiline r1 st k with
      | Some x => Some x
      | None => k st
      end
  | RStar f =>
      (fix star (prev : option ascii) (rest : string) : option A :=
         match rest with
         | String c' s' =>
             if f c' then
               match star (Some c') s' with
               | Some x => Some x
               | None => k (MState prev rest (ms_group st))
               end
             else k (MState prev rest (ms_group st))
         | EmptyString => k (MState prev rest (ms_group st))
         end) (ms_prev st) (ms_rest st)
  | RStarLazy f =>
      (fix star (prev : option ascii) (rest : string) : option A :=
         match k (MState prev rest (ms_group st)) with
         | Some x => Some x
         | None =>
             match rest with
             | String c' s' => if f c' then star (Some c') s' else None
             | EmptyString => None
             end
         end) (ms_prev st) (ms_rest st)
  | RPlus f =>
      match ms_rest st with
      | String c0 s0 =>
          if f c0 then
            (fix star (prev : option ascii) (rest : string) : option A :=
               match rest with
               | String c' s' =>
                   if f c' then
                     match star (Some c') s' with
                     | Some x => Some x
                     | None => k (MState prev rest (ms_group st))
                     end
                   else k (MState prev rest (ms_group st))
               | EmptyString => k (MState prev rest (ms_group st))
               end) (Some c0) s0
          else None
      | EmptyString => None
      end
  | RGroup r1 =>
      rmatch multiline r1 st (fun st' =>
        let n := (String.length (ms_rest st) - String.length (ms_rest st'))%nat in
        k (MState (ms_prev st') (ms_rest st')
                  (Some (string_take n (ms_rest st)))))
  | RBol => if at_bol multiline st then k st else None
  | REol => if at_eol multiline st then k st else None
  end.

(** A compiled pattern: its syntax tree and whether [re.MULTILINE] is set. *)
Record pattern : Type := Pattern { pat_re : regex; pat_multiline : bool }.

(** The scan of [pattern.findall(text)]: the leftmost match at or after the
    current position is recorded by its group, and the scan resumes where
    the match ended (one character further after an empty match).  [fuel]
    bounds the number of positions visited. *)
Fixpoint findall_from (fuel : nat) (p : pattern) (prev : option ascii)
    (rest : string) : list string :=
  match fuel with
  | O => []
  | S fuel' =>
      match rmatch (pat_multiline p) (pat_re p) (MState prev rest None) Some with
      | Some st' =>
          let g := default "" (ms_group st') in
          if (String.length (ms_rest st') <? String.length rest)%nat
          then g :: findall_from fuel' p (ms_prev st') (ms_rest st')
          else
            match rest with
            | String c s' => g :: findall_from fuel' p (Some c) s'
            | EmptyString => [g]
            end
      | None =>
          match rest with
          | String c s' => findall_from fuel' p (Some c) s'
          | EmptyString => []
          end
      end
  end.

Definition findall (p : pattern) (text : string) : list string :=
  findall_from (S (String.length text)) p None text.

(** [r".*?_+([aA]?\d+(?:[_\.]\d+)?)_*mm$"] *)
Definition RE_AUTO_HEIGHT_ID : pattern :=
  Pattern (RStarLazy is_dot @@ RPlus (one_of "_")
           @@ RGroup (ROpt (RSet (one_of "aA")) @@ RPlus is_digit
                      @@ ROpt (RSet (one_of "_.") @@ RPlus is_digit))
           @@ RStar (one_of "_") @@ RLit "mm" @@ REol)
          false.

(** [r"^(?:ht|[Hh]eight):\s*([aA]?\d+(?:\.\d+)?) ?mm$"], [re.MULTILINE] *)
Definition RE_AUTO_HEIGHT_DESC : pattern :=
  Pattern (RBol @@ RAlt (RLit "ht") (RSet (one_of "Hh") @@ RLit "eight")
           @@ RChar ":" @@ RStar is_space
           @@ RGroup (ROpt (RSet (one_of "aA")) @@ RPlus is_digit
                      @@ ROpt (RChar "." @@ RPlus is_digit))
           @@ ROpt (RChar " ") @@ RLit "mm" @@ REol)
          true.

(** [r"^(?:sc|[Ss]cale):\s*(\d+(?:\.\d+)?(?: ?, ?\d+(?:\.\d+)?)?) ?%$"],
    [re.MULTILINE] *)
Definition RE_AUTO_SCALE_DESC : pattern :=
  Pattern (RBol @@ RAlt (RLit "sc") (RSet (one_of "Ss") @@ RLit "cale")
           @@ RChar ":" @@ RStar is_space
           @@ RGroup (RPlus is_digit @@ ROpt (RChar "." @@ RPlus is_digit)
                      @@ ROpt (ROpt (RChar " ") @@ RChar "," @@ ROpt (RChar " ")
                               @@ RPlus is_digit
                               @@ ROpt (RChar "." @@ RPlus is_digit)))
           @@ ROpt (RChar " ") @@ RChar "%" @@ REol)
          true.

(** [r"^(?:[Rr]aise|[Oo]ffset):\s*(\d+(?:\.\d+)?) ?mm$"], [re.MULTILINE] *)
Definition RE_AUTO_RAISE_DESC : pattern :=
  Pattern (RBol @@ RAlt (RSet (one_of "Rr") @@ RLit "aise")
                        (RSet (one_of "Oo") @@ RLit "ffset")
           @@ RChar ":" @@ RStar is_space
           @@ RGroup (RPlus is_digit @@ ROpt (RChar "." @@ RPlus is_digit))
           @@ ROpt (RChar " ") @@ RLit "mm" @@ REol)
          true.

(** ** Elements of the document

    What the code reads from an lxml node. *)

Record element : Type := Element {
  el_tag : option string;          (* [node.tag]; [None] when it is not a string *)
  el_id : option string;           (* the [id] attribute *)
  el_visibility : option string;   (* the [visibility] attribute *)
  el_style : option string;        (* the [style] attribute *)
  el_childtext : list (string * option string)
                                   (* tag and [.text] of each child, in order *)
}.

(** [inkex.addNS(tag, 'svg')] and [inkex.addNS(tag, 'sodipodi')] *)
Definition addNS_svg (tag : string) : string :=
  "{http://www.w3.org/2000/svg}" ++ tag.
Definition addNS_sodipodi (tag : string) : string :=
  "{http://sodipodi.sourceforge.net/DTD/sodipodi-0.dtd}" ++ tag.

Definition DESC_TAGS : list string := ["desc"; addNS_svg "desc"].

(** [node.tag in (a, b)] and [node.tag == a or node.tag == b] *)
Definition tag_is (t : option string) (names : list string) : bool :=
  match t with
  | Some s => existsb (String.eqb s) names
  | None => false
  end.

(** [node.find("./%s" % tagname)]: the first child with that tag. *)
Fixpoint find_child (tagname : string) (l : list (string * option string))
  : option (option string) :=
  match l with
  | [] => None
  | (t, text) :: l' => if String.eqb t tagname then Some text
                       else find_child tagname l'
  end.

(** ** Extrusion attributes *)

(** The dictionary [extrusion].  ['scale'] starts as the float [100.0] and is
    only ever printed with [%s]; it is kept as the printed text. *)
Record extrusion : Type := Extrusion {
  ex_height : string;
  ex_raise : string;
  ex_scale : string;
  ex_neg : bool
}.

Definition set_height (h : string) (e : extrusion) : extrusion :=
  Extrusion h (ex_raise e) (ex_scale e) (ex_neg e).
Definition set_raise (r : string) (e : extrusion) : extrusion :=
  Extrusion (ex_height e) r (ex_scale e) (ex_neg e).
Definition set_scale (s : string) (e : extrusion) : extrusion :=
  Extrusion (ex_height e) (ex_raise e) s (ex_neg e).

(** [s.replace("_", ".")] *)
Fixpoint replace_underscore (s : string) : string :=
  match s with
  | EmptyString => EmptyString
  | String c s' =>
      String (if Ascii.eqb c "_" then "."%char else c) (replace_underscore s')
  end.

(** [',' in s] *)
Fixpoint has_comma (s : string) : bool :=
  match s with
  | EmptyString => false
  | String c s' => Ascii.eqb c "," || has_comma s'
  end.

(** [l[-1]] of a list known to be non-empty. *)
Definition py_last (l : list string) : string := List.last l "".

(** The identifier step of [object_merge_extrusion_values]. *)
Definition merge_id (ext : extrusion) (node : element) : extrusion :=
  let rawid := default "" (el_id node) in
  match findall RE_AUTO_HEIGHT_ID rawid with
  | [] => ext
  | height => set_height (replace_underscore (py_last height)) ext
  end.

(** The body of [if desc_node is not None:]. *)
Definition merge_desc_text (ext : extrusion) (text : string) : extrusion :=
  let ext :=
    match findall RE_AUTO_HEIGHT_DESC text with
    | [] => ext
    | height => set_height (py_last height) ext
    end in
  let ext :=
    match findall RE_AUTO_SCALE_DESC text with
    | [] => ext
    | zscale =>
        if has_comma (py_last zscale)
        then set_scale ("[" ++ py_last zscale ++ "]") ext
        else set_scale (py_last zscale) ext
    end in
  match findall RE_AUTO_RAISE_DESC text with
  | [] => ext
  | zraise => set_raise (py_last zraise) ext
  end.

(** The loop [for tagname in DESC_TAGS].  A description node without text
    ([.text] is [None]) makes [findall] raise [TypeError]. *)
Fixpoint merge_descs (tags : list string) (ext : extrusion) (node : element)
  : option extrusion :=
  match tags with
  | [] => Some ext
  | tagname :: tags' =>
      match find_child tagname (el_childtext node) with
      | None => merge_descs tags' ext node
      | Some None => None
      | Some (Some text) => merge_descs tags' (merge_desc_text ext text) node
      end
  end.

(** The node's own identifier and description, the later overriding the
    earlier. *)
Definition merge_own_values (ext : extrusion) (node : element)
  : option extrusion :=
  merge_descs DESC_TAGS (merge_id ext node) node.

(** [if extrusion['height'][0] in ('a', 'A'): ...]; indexing an empty string
    raises [IndexError]. *)
Definition strip_anti (ext : extrusion) : option extrusion :=
  match ex_height ext with
  | EmptyString => None
  | String c rest =>
      if one_of "aA" c
      then Some (Extrusion rest (ex_raise ext) (ex_scale ext) true)
      else Some ext
  end.

(** [object_merge_extrusion_values(extrusion, node)].  [parents] is the
    chain [node.getparent()], [node.getparent().getparent()], ... up to the
    root; the function first recurses into the parent when it is a group. *)
Fixpoint object_merge_extrusion_values (ext : extrusion) (node : element)
    (parents : list element) : option extrusion :=
  ext ← match parents with
        | p :: ps =>
            if tag_is (el_tag p) [addNS_svg "g"; "g"]
            then object_merge_extrusion_values ext p ps
            else Some ext
        | [] => Some ext
        end;
  ext ← merge_own_values ext node;
  strip_anti ext.

(** The dictionary built by [convertPath] and its resolution. *)
Definition extrusion_default : extrusion := Extrusion "h" "0" "100.0" false.

Definition resolve_extrusion (parsedesc : string) (node : element)
    (parents : list element) : option extrusion :=
  if String.eqb parsedesc "true"
  then object_merge_extrusion_values extrusion_default node parents
  else Some extrusion_default.

(** ** Flattening of cubic super paths *)

(** A node [[h_in, pt, h_out]] of a cubic super path; [csp0], [csp1] and
    [csp2] are its entries [[0]], [[1]] and [[2]]. *)
Record cspnode : Type := CspNode { csp0 : point; csp1 : point; csp2 : point }.

(** The four control points of a Bezier segment. *)
Record bezier : Type := Bezier { bz0 : point; bz1 : point; bz2 : point; bz3 : point }.

(** The two functions of Inkscape's extension library used by the loop:
    [cspsubdiv.maxdist] and [bezmisc.beziersplitatt]. *)
Class BezierLib : Type := {
  maxdist : bezier -> Q;
  beziersplitatt : bezier -> Q -> bezier * bezier
}.

Section Flattening.
Context `{BezierLib}.

(** Python's [sp[i - 1]]: index [-1] is the last node. *)
Definition index_before (sp : list cspnode) (i : nat) : nat :=
  match i with
  | O => (length sp - 1)%nat
  | S j => j
  end.

(** [sp[i:1] = [p]] for [i < len(sp)]: an insertion before [sp[i]] when
    [1 <= i], a replacement of [sp[0]] when [i = 0]. *)
Definition slice_assign (sp : list cspnode) (i : nat) (p : cspnode)
  : list cspnode :=
  (take i sp ++ [p] ++ drop (Nat.max i 1) sp)%list.

(** [subdivideCubicPath(sp, flat, i=1)].  Each unit of [fuel] pays for one
    pass through the inner loop body; [None] when it runs out.  The list
    [sp] is updated in place in the source and returned here. *)
Fixpoint subdivideCubicPath (fuel : nat) (sp : list cspnode) (flat : Q)
    (i : nat) : option (list cspnode) :=
  match fuel with
  | O => None
  | S fuel' =>
      if (length sp <=? i)%nat then Some sp
      else
        match sp !! index_before sp i, sp !! i with
        | Some a, Some c =>
            let b := Bezier (csp1 a) (csp2 a) (csp0 c) (csp1 c) in
            if Qltb flat (maxdist b) then
              let '(one, two) := beziersplitatt b (1 # 2) in
              let sp := alter (fun n => CspNode (csp0 n) (csp1 n) (bz1 one))
                              (index_before sp i) sp in
              let sp := alter (fun n => CspNode (bz2 two) (csp1 n) (csp2 n))
                              i sp in
              let p := CspNode (bz2 one) (bz3 one) (bz1 two) in
              subdivideCubicPath fuel' (slice_assign sp i p) flat i
            else subdivideCubicPath fuel' sp flat (i + 1)
        | _, _ => None
        end
  end.

End Flattening.

(** ** The effect's state and the document tree *)

(** A subpath as stored in [self.paths[node]]: [[vertices, bbox]]. *)
Definition subpath : Type := list point * bbox.

(** The options read by the embedded code. *)
Record options : Type := Options {
  smoothness : Q;
  parsedesc : string;
  force_line : bool
}.

(** The fields of [self] written during the traversal.  [paths] is keyed by
    the node object; the key is the node's identity and the entry keeps the
    node's attributes and [getparent()] chain next to its subpaths.
    [messages] collects the calls of [inkex.errormsg]. *)
Record state : Type := State {
  xmin : Q; xmax : Q; ymin : Q; ymax : Q;
  paths : gmap nat (element * list element * list subpath);
  warnings : gset string;
  messages : list string
}.

#[local] Set Warnings "-register-all".

(** A node of the document as the traversal sees it.  [n_geom] stands for
    what [simplepath.parsePath], [cubicsuperpath.CubicSuperPath] and
    [simpletransform.applyTransformToPath] make of the element's geometry
    under the current transform; it is [None] when the element is dropped for
    lack of usable geometry (no [d], no [points], a zero radius, ...).
    [n_use] is the outcome of a [<use>]: [None] without [xlink:href],
    otherwise whether [x] or [y] is non-zero and the nodes found by the XPath
    search.  [n_texts] lists the non-[None] [.text] of the subtree of a
    [<text>]. *)
Inductive node : Type := Node {
  n_key : nat;
  n_el : element;
  n_parents : list element;
  n_children : list node;
  n_geom : option (list (list cspnode));
  n_use : option (bool * list node);
  n_texts : list string
}.

Definition set_messages (m : list string) (st : state) : state :=
  State (xmin st) (xmax st) (ymin st) (ymax st) (paths st) (warnings st) m.

(** [inkex.errormsg(m)] *)
Definition errormsg (m : string) (st : state) : state :=
  set_messages (messages st ++ [m]) st.

(** The state set up by [__init__]. *)
Definition state_init : state :=
  State (inject_Z (10 ^ 70)) (inject_Z (- 10 ^ 70))
        (inject_Z (10 ^ 70)) (inject_Z (- 10 ^ 70)) ∅ ∅ [].

(** ** [getPathVertices] *)

(** "Track the bounding box of this subpath" *)
Definition track_bbox (b : bbox) (pt : point) : bbox :=
  let '(lo_x, hi_x) :=
    if Qltb pt.1 (bxmin b) then (pt.1, bxmax b)
    else if Qltb (bxmax b) pt.1 then (bxmin b, pt.1)
    else (bxmin b, bxmax b) in
  let '(lo_y, hi_y) :=
    if Qltb pt.2 (bymin b) then (pt.2, bymax b)
    else if Qltb (bymax b) pt.2 then (bymin b, pt.2)
    else (bymin b, bymax b) in
  BBox lo_x hi_x lo_y hi_y.

(** The vertices and bounding box of one subdivided subpath; [sp[0]] raises
    [IndexError] on an empty one. *)
Definition subpath_vertices (sp : list cspnode) : option subpath :=
  match sp with
  | [] => None
  | n0 :: rest =>
      let first_point := csp1 n0 in
      Some (first_point :: map csp1 rest,
            fold_left track_bbox (map csp1 rest)
                      (BBox first_point.1 first_point.1
                            first_point.2 first_point.2))
  end.

(** "Track the bounding box of the overall drawing" *)
Definition track_drawing (st : state) (b : bbox) : state :=
  State (if Qltb (bxmin b) (xmin st) then bxmin b else xmin st)
        (if Qltb (xmax st) (bxmax b) then bxmax b else xmax st)
        (if Qltb (bymin b) (ymin st) then bymin b else ymin st)
        (if Qltb (ymax st) (bymax b) then bymax b else ymax st)
        (paths st) (warnings st) (messages st).

Definition set_path (k : nat) (v : element * list element * list subpath)
    (st : state) : state :=
  State (xmin st) (xmax st) (ymin st) (ymax st)
        (<[k := v]> (paths st)) (warnings st) (messages st).

Section PathVertices.
Context `{BezierLib}.
Variable opts : options.
Variable fuel : nat.

(** The loop [for sp in p] of [getPathVertices].  The source appends a
    finished subpath when the next one starts and once more after the loop;
    here each one is appended when it is finished. *)
Fixpoint getPathVertices_loop (p : list (list cspnode)) (st : state)
    (subpath_list : list subpath) : option (state * list subpath) :=
  match p with
  | [] => Some (st, subpath_list)
  | sp :: p' =>
      sp ← subdivideCubicPath fuel sp (smoothness opts) 1;
      sub ← subpath_vertices sp;
      getPathVertices_loop p' (track_drawing st sub.2) (subpath_list ++ [sub])
  end.

(** [getPathVertices(path, node, transform)], from the cubic super path
    on. *)
Definition getPathVertices (p : list (list cspnode)) (key : nat)
    (el : element) (parents : list element) (st : state) : option state :=
  match p with
  | [] => Some st
  | _ =>
      '(st, subpath_list) ← getPathVertices_loop p st [];
      match subpath_list with
      | [] => Some st
      | _ => Some (set_path key (el, parents, subpath_list) st)
      end
  end.

End PathVertices.

(** ** [recursivelyTraverseSvg] *)

Definition dquote : string := String (ascii_of_nat 34) "".

Definition MSG_TEXT : string :=
  "Warning: unable to draw text, please convert it to a path first.".

Definition MSG_IMAGE : string :=
  "Warning: unable to draw bitmap images; please convert them to line art first.  "
  ++ "Consider using the " ++ dquote ++ "Trace bitmap..." ++ dquote
  ++ " tool of the " ++ dquote ++ "Path" ++ dquote ++ " menu.  Mac users please "
  ++ "note that some X11 settings may cause cut-and-paste operations to paste in bitmap copies.".

Definition msg_object (tag : string) : string :=
  "Warning: unable to draw object <" ++ tag ++ ">, please convert it to a path first.".

(** [sep.join(l)] *)
Fixpoint join (sep : string) (l : list string) : string :=
  match l with
  | [] => ""
  | [x] => x
  | x :: l' => x ++ sep ++ join sep l'
  end.

(** [node.tag == inkex.addNS(name, 'svg') or node.tag == name] *)
Definition svg_tag (el : element) (name : string) : bool :=
  tag_is (el_tag el) [addNS_svg name; name].

(** The test at the head of the loop body: "Ignore invisible nodes" and the
    [display:none] style.  It returns the resolved visibility [v] when the
    node is processed and [None] when the loop goes on to the next node. *)
Definition resolved_visibility (el : element) (parent_visibility : string)
  : string :=
  let v := default parent_visibility (el_visibility el) in
  if String.eqb v "inherit" then parent_visibility else v.

Definition visible_as (el : element) (parent_visibility : string)
  : option string :=
  let v := resolved_visibility el parent_visibility in
  if String.eqb v "hidden" || String.eqb v "collapse" then None
  else if String.eqb (default "" (el_style el)) "display:none" then None
  else Some v.

(** The [image] branch: warn unless ['image'] is among the warnings issued. *)
Definition warn_image (st : state) : state :=
  if decide ("image" ∈ warnings st) then st
  else
    let st := errormsg MSG_IMAGE st in
    State (xmin st) (xmax st) (ymin st) (ymax st) (paths st)
          ({["image"]} ∪ warnings st) (messages st).

(** The [text] branch. *)
Definition warn_text (texts : list string) (st : state) : state :=
  match texts with
  | [] => st
  | _ =>
      let plaintext := join "', '" texts in
      errormsg MSG_TEXT
        (errormsg ("Warning: text " ++ dquote ++ plaintext ++ dquote) st)
  end.

Section Traversal.
Context `{BezierLib}.
Variable opts : options.
Variable fuel : nat.

(** One pass through the body of the loop [for node in aNodeList]. *)
Fixpoint traverse_node (n : node) (parent_visibility : string) (st : state)
    {struct n} : option state :=
  let 'Node key el parents children geom use texts := n in
  let traverse_list :=
    fix go (l : list node) (pv : string) (st : state) : option state :=
      match l with
      | [] => Some st
      | m :: l' => st ← traverse_node m pv st; go l' pv st
      end in
  let shape :=
    match geom with
    | Some p => getPathVertices opts fuel p key el parents st
    | None => Some st
    end in
  match visible_as el parent_visibility with
  | None => Some st
  | Some v =>
      if svg_tag el "g" then traverse_list children v st
      else if svg_tag el "use" then
        match use with
        | None => Some st
        | Some (_, []) => Some st
        | Some (xy_nonzero, refnode) =>
            (* [composeTransform] is not a global name: [NameError] *)
            if xy_nonzero then None
            else traverse_list refnode (default v (el_visibility el)) st
        end
      else if tag_is (el_tag el) [addNS_svg "path"] then shape
      else if svg_tag el "rect" then shape
      else if svg_tag el "line" then shape
      else if svg_tag el "polyline" then shape
      else if svg_tag el "polygon" then shape
      else if svg_tag el "ellipse" || svg_tag el "circle" then shape
      else if svg_tag el "pattern" then Some st
      else if svg_tag el "metadata" then Some st
      else if svg_tag el "defs" then Some st
      else if svg_tag el "desc" then Some st
      else if tag_is (el_tag el) [addNS_sodipodi "namedview"; "namedview"]
      then Some st
      else if svg_tag el "eggbot" then Some st
      else if svg_tag el "text" then Some (warn_text texts st)
      else if svg_tag el "title" then Some st
      else if svg_tag el "image" then Some (warn_image st)
      else if svg_tag el "pattern" then Some st
      else if svg_tag el "radialGradient" then Some st
      else if svg_tag el "linearGradient" then Some st
      else if svg_tag el "style" then Some st
      else if svg_tag el "cursor" then Some st
      else if svg_tag el "color-profile" then Some st
      else
        match el_tag el with
        | None => Some st
        | Some tag => Some (errormsg (msg_object tag) st)
        end
  end.

(** [recursivelyTraverseSvg(aNodeList, matCurrent, parent_visibility)] *)
Fixpoint recursivelyTraverseSvg (aNodeList : list node)
    (parent_visibility : string) (st : state) : option state :=
  match aNodeList with
  | [] => Some st
  | n :: rest =>
      st ← traverse_node n parent_visibility st;
      recursivelyTraverseSvg rest parent_visibility st
  end.

End Traversal.

(** ** [convertPath] *)

(** A loop whose body may raise. *)
Fixpoint foldM {A B : Type} (f : A -> B -> option A) (l : list B) (a : A)
  : option A :=
  match l with
  | [] => Some a
  | x :: l' => a ← f a x; foldM f l' a
  end.

(** [contains[i].append(j)] *)
Definition append_at (i x : nat) (l : list (list nat)) : list (list nat) :=
  alter (fun r => r ++ [x])%list i l.

(** The body of the double loop "Determine which polys contain which". *)
Definition containment_pair (path : list subpath)
    (acc : list (list nat) * list (list nat)) (i j : nat)
  : option (list (list nat) * list (list nat)) :=
  let '(contains, contained_by) := acc in
  pi ← path !! i; pj ← path !! j;
  r ← polyInPoly pj.1 (Some pj.2) pi.1 (Some pi.2);
  if r : bool then Some (append_at i j contains, append_at j i contained_by)
  else
    r ← polyInPoly pi.1 (Some pi.2) pj.1 (Some pj.2);
    if r : bool then Some (append_at j i contains, append_at i j contained_by)
    else Some acc.

(** [contains] and [contained_by] after the double loop. *)
Definition containment (path : list subpath)
  : option (list (list nat) * list (list nat)) :=
  let n := length path in
  foldM (fun acc i =>
           foldM (fun acc j => containment_pair path acc i j)
                 (seq (i + 1) (n - (i + 1))) acc)
        (seq 0 n) (replicate n [], replicate n []).

(** [re.sub('[^A-Za-z0-9_]+', '', rawid)] *)
Definition is_word (c : ascii) : bool :=
  let n := nat_of_ascii c in
  ((65 <=? n)%nat && (n <=? 90)%nat) || ((97 <=? n)%nat && (n <=? 122)%nat)
  || is_digit c || Ascii.eqb c "_".

Fixpoint sanitize (s : string) : string :=
  match s with
  | EmptyString => EmptyString
  | String c s' => if is_word c then String c (sanitize s') else sanitize s'
  end.

(** [s.split(c)] *)
Fixpoint split_on (c : ascii) (s : string) : list string :=
  match s with
  | EmptyString => [""]
  | String c' s' =>
      if Ascii.eqb c' c then "" :: split_on c s'
      else
        match split_on c s' with
        | h :: t => String c' h :: t
        | [] => [String c' ""]
        end
  end.

(** [s.strip()] *)
Fixpoint lstrip (l : list ascii) : list ascii :=
  match l with
  | c :: l' => if is_space c then lstrip l' else l
  | [] => []
  end.

Definition strip (s : string) : string :=
  string_of_list_ascii
    (rev (lstrip (rev (lstrip (list_ascii_of_string s))))).

(** [getPathStyle(node)].  When an item does not split into exactly a key
    and a value the exception is swallowed and [ret[key] = val] reuses the
    pair of the previous item, or fails with an unbound name when there is
    none. *)
Definition getPathStyle_step
    (acc : gmap string string * option (string * string)) (elem : string)
  : option (gmap string string * option (string * string)) :=
  let '(ret, last) := acc in
  if (String.length elem =? 0)%nat then Some acc
  else
    match split_on ":" (strip elem) with
    | [key; val] => Some (<[key := val]> ret, Some (key, val))
    | _ =>
        match last with
        | Some (key, val) => Some (<[key := val]> ret, last)
        | None => None
        end
    end.

Definition getPathStyle (el : element) : option (gmap string string) :=
  let style := default "" (el_style el) in
  fst <$> foldM getPathStyle_step (split_on ";" style) (∅, None).

(** Conversion of the stroke width: [str(self.LengthWithUnit(stroke_width,
    default_unit='mm') * 25.4 / self.dpi)], taken as given; [None] when the
    length does not parse and the product raises. *)
Class Units : Type := { stroke_width_text : string -> option string }.

(** The four texts [msg_linear_extrude], [msg_linear_extrude_by_paths],
    [msg_extrude_by_hull] and [msg_extrude_by_hull_and_paths]. *)
Inductive block : Type :=
| linear_extrude
| linear_extrude_by_paths
| extrude_by_hull
| extrude_by_hull_and_paths.

(** What is written to [self.f], one constructor per [write]:
    [id_prefix_center = [x,y];], [id_prefix_points = [...];],
    [id_prefix_paths = [[...],...];], the head of [module poly_id], one
    extrusion block, the end of the module, and the fixed texts of
    [effect]. *)
Inductive out : Type :=
| WCenter (id : string) (prefix : nat) (c : point)
| WPoints (id : string) (prefix : nat) (pts : list point)
| WPaths (id : string) (prefix : nat) (idx : list (list nat))
| WModule (id : string)
| WBlock (b : block) (id : string) (prefix : nat)
| WEnd
| WPreamble
| WNewline
| WAssembly (call_list call_list_neg : list string).

(** The fields of [self] used while writing. *)
Record emitter : Type := Emitter {
  pathid : nat;
  call_list : list string;
  call_list_neg : list string;
  f : list out;
  em_messages : list string
}.

Definition nonempty {A : Type} (l : list A) : bool :=
  negb (length l =? 0)%nat.

Section Emission.
Context `{Units}.
Variable opts : options.
Variables cx cy : Q.

(** [[point[0] - self.cx, point[1] - self.cy]] *)
Definition centered (pt : point) : point := (pt.1 - cx, pt.2 - cy).

(** The body of the loop [for j in contains[i]]. *)
Definition fold_nested (path : list subpath)
    (acc : list point * list (list nat) * nat) (j : nat)
  : option (list point * list (list nat) * nat) :=
  let '(polypoints, polypaths, count) := acc in
  pj ← path !! j;
  Some ((polypoints ++ map centered pj.1)%list,
        (polypaths ++ [seq count (length pj.1)])%list,
        (count + length pj.1)%nat).

(** The body of the first loop [for i in range(0, len(path))]: the point
    and index lists.  The state is [prefix] and the text written so far. *)
Definition emit_points (path : list subpath)
    (contains contained_by : list (list nat)) (id : string)
    (acc : nat * list out) (i : nat) : option (nat * list out) :=
  let '(prefix, w) := acc in
  cb ← contained_by !! i; cs ← contains !! i; sub ← path !! i;
  if nonempty cb then Some acc
  else
    let '(subpath, bb) := sub in
    let polycenter :=
      WCenter id prefix ((bxmin bb + bxmax bb) * (1 # 2) - cx,
                         (bymin bb + bymax bb) * (1 # 2) - cy) in
    if nonempty cs then
      '(polypoints, polypaths, _) ←
        foldM (fold_nested path) cs
              (map centered subpath, [seq 0 (length subpath)], length subpath);
      Some ((prefix + 1)%nat,
            (w ++ [polycenter; WPoints id prefix polypoints;
                   WPaths id prefix polypaths])%list)
    else
      Some ((prefix + 1)%nat,
            (w ++ [polycenter; WPoints id prefix (map centered subpath)])%list).

(** The body of the second loop: the extrusion blocks. *)
Definition emit_block (contains contained_by : list (list nat))
    (id : string) (filled : bool)
    (acc : nat * list out) (i : nat) : option (nat * list out) :=
  let '(prefix, w) := acc in
  cb ← contained_by !! i; cs ← contains !! i;
  if nonempty cb then Some acc
  else
    let poly :=
      if filled && negb (force_line opts) then
        if nonempty cs then linear_extrude_by_paths else linear_extrude
      else
        if nonempty cs then extrude_by_hull_and_paths else extrude_by_hull in
    Some ((prefix + 1)%nat, (w ++ [WBlock poly id prefix])%list).

(** [convertPath(node)], for the entry of [self.paths] under [node]. *)
Definition convertPath (em : emitter)
    (entry : element * list element * list subpath) : option emitter :=
  let '(el, parents, path) := entry in
  match path with
  | [] => Some em
  | _ =>
      '(contains, contained_by) ← containment path;
      let rawid := default "" (el_id el) in
      let '(id, rawid, pathid') :=
        if String.eqb rawid ""
        then (pretty (pathid em) ++ "x", pretty (pathid em) ++ "x",
              (pathid em + 1)%nat)
        else (sanitize rawid, rawid, pathid em) in
      style ← getPathStyle el;
      let stroke_width := default "1" (style !! "stroke-width") in
      stroke_width_mm ← stroke_width_text stroke_width;
      let filled := negb (String.eqb (default "#FFF" (style !! "fill")) "none") in
      if negb filled && String.eqb (default "none" (style !! "stroke")) "none"
      then
        Some (Emitter pathid' (call_list em) (call_list_neg em) (f em)
                (em_messages em ++
                 ["WARNING: " ++ rawid
                  ++ " has fill:none and stroke:none, object ignored."]))
      else
        '(_, w) ← foldM (emit_points path contains contained_by id)
                        (seq 0 (length path)) (O, f em);
        let w := (w ++ [WModule id])%list in
        ext ← resolve_extrusion (parsedesc opts) el parents;
        let call_item :=
          "translate ([0,0," ++ ex_raise ext ++ "]) poly_" ++ id ++ "("
          ++ ex_height ext ++ ", min_line_mm(" ++ stroke_width_mm ++ "), "
          ++ ex_scale ext ++ ");" ++ String newline "" in
        '(_, w) ← foldM (emit_block contains contained_by id filled)
                        (seq 0 (length path)) (O, w);
        Some (Emitter pathid'
                (if ex_neg ext then call_list em
                 else call_list em ++ [call_item])
                (if ex_neg ext then call_list_neg em ++ [call_item]
                 else call_list_neg em)
                (w ++ [WEnd]) (em_messages em))
  end.

End Emission.

(** ** [effect] *)

Section Effect.
Context `{BezierLib} `{Units}.
Variable opts : options.
Variable fuel : nat.

(** "Determine the center of the drawing's bounding box" *)
Definition center_x (st : state) : Q := xmin st + (xmax st - xmin st) / 2.
Definition center_y (st : state) : Q := ymin st + (ymax st - ymin st) / 2.

(** The loop [for key in self.paths]. *)
Definition convert_all (st : state) (em : emitter) : option emitter :=
  foldM (fun em kv =>
           convertPath opts (center_x st) (center_y st)
             (Emitter (pathid em) (call_list em) (call_list_neg em)
                      (f em ++ [WNewline]) (em_messages em))
             kv.2)
        (map_to_list (paths st)) em.

(** [effect()], from the traversal of the nodes [doc] (the root's children
    or the selected objects) to the last [write].  It returns the messages
    shown and the contents of the output file. *)
Definition effect (doc : list node) : option (list string * list out) :=
  st ← recursivelyTraverseSvg opts fuel doc "visible" state_init;
  em ← convert_all st (Emitter O [] [] [WPreamble] (messages st));
  Some (em_messages em,
        (f em ++ [WAssembly (call_list em) (call_list_neg em)])%list).

End Effect.

(** ** Lengths with units *)

(** [s[-n:]] and [s[:-n]], for [n] positive: the last [n] characters (all
    of [s] when it is shorter) and what comes before them. *)
Definition py_last_chars (n : nat) (s : string) : string :=
  let l := list_ascii_of_string s in
  string_of_list_ascii (drop (length l - n) l).

Definition py_but_last_chars (n : nat) (s : string) : string :=
  let l := list_ascii_of_string s in
  string_of_list_ascii (take (length l - n) l).

(** Python's [float(s)] on a string, taken as given; [None] when it
    raises. *)
Class FloatLib : Type := { float_of_string : string -> option Q }.

Definition TWO_LETTER_UNITS : list string :=
  ["px"; "pt"; "pc"; "mm"; "cm"; "in"; "ft"].

(** [parseLengthWithUnits(str, default_unit)]; [None] stands for the pair
    [(None, None)]. *)
Definition parseLengthWithUnits `{FloatLib} (str default_unit : string)
  : option (Q * string) :=
  let s := strip str in
  let '(u, s) :=
    if existsb (String.eqb (py_last_chars 2 s)) TWO_LETTER_UNITS
    then (py_last_chars 2 s, py_but_last_chars 2 s)
    else if existsb (String.eqb (py_last_chars 1 s)) ["m"; "%"]
    then (py_last_chars 1 s, py_but_last_chars 1 s)
    else (default_unit, s) in
  v ← float_of_string s; Some (v, u).

(** [LengthWithUnit(strn, default_unit)], with [self.dpi] and the flag
    [self.px_used] passed in; the result comes with the flag afterwards. *)
Definition LengthWithUnit `{FloatLib} (dpi : Q) (px_used : bool)
    (strn default_unit : string) : option Q * bool :=
  match parseLengthWithUnits strn default_unit with
  | None => (None, px_used)
  | Some (v, u) =>
      if String.eqb u "mm" then (Some (v * (dpi / (254 # 10))), px_used)
      else if String.eqb u "cm" then (Some (v * (dpi * 10 / (254 # 10))), px_used)
      else if String.eqb u "m" then (Some (v * (dpi * 1000 / (254 # 10))), px_used)
      else if String.eqb u "in" then (Some (v * dpi), px_used)
      else if String.eqb u "ft" then (Some (v * 12 * dpi), px_used)
      else if String.eqb u "pt" then (Some (v * (dpi / 72)), px_used)
      else if String.eqb u "pc" then (Some (v * (dpi / 6)), px_used)
      else if String.eqb u "px" then (Some v, true)
      else (None, px_used)
  end.

(** The stroke width of [convertPath]:
    [str(self.LengthWithUnit(stroke_width, default_unit='mm') * 25.4 / self.dpi)],
    where the product raises when the length is [None]; [str] on floats is
    taken as given. *)
Definition stroke_width_mm `{FloatLib} (str : Q -> string) (dpi : Q)
    (stroke_width : string) : option string :=
  v ← (LengthWithUnit dpi false stroke_width "mm").1;
  Some (str (v * (254 # 10) / dpi)).

Definition units_of `{FloatLib} (str : Q -> string) (dpi : Q) : Units :=
  {| stroke_width_text := stroke_width_mm str dpi |}.

(** * Vocabulary of the statements *)

(** ** Polygons *)

(** [bbox1] lies on or within [bbox2]. *)
Definition bbox_within (b1 b2 : bbox) : Prop :=
  bxmin b2 <= bxmin b1 /\ bxmax b1 <= bxmax b2 /\
  bymin b2 <= bymin b1 /\ bymax b1 <= bymax b2.

(** Two bounding boxes with equal bounds. *)
Definition bbox_eq (b1 b2 : bbox) : Prop :=
  bxmin b1 == bxmin b2 /\ bxmax b1 == bxmax b2 /\
  bymin b1 == bymin b2 /\ bymax b1 == bymax b2.

(** Two points with equal coordinates. *)
Definition point_eq (p q : point) : Prop := p.1 == q.1 /\ p.2 == q.2.

(** The optional bounding box does not reject the point. *)
Definition bbox_allows (bb : option bbox) (p : point) : Prop :=
  match bb with Some b => pointInBBox p b = true | None => True end.

(** ** Extrusion attributes *)

(** The height string begins with [a] or [A]. *)
Definition begins_anti (h : string) : bool :=
  match h with
  | String c _ => one_of "aA" c
  | EmptyString => false
  end.

(** The ancestor groups visited by the walk, the farthest first. *)
Fixpoint group_chain (parents : list element) : list element :=
  match parents with
  | p :: ps =>
      if tag_is (el_tag p) [addNS_svg "g"; "g"]
      then group_chain ps ++ [p]
      else []
  | [] => []
  end.

(** What one node of the walk does to the dictionary. *)
Definition merge_level (ext : extrusion) (node : element) : option extrusion :=
  ext ← merge_own_values ext node; strip_anti ext.

(** A pass over several nodes, in order. *)
Fixpoint merge_levels (ext : extrusion) (nodes : list element)
  : option extrusion :=
  match nodes with
  | [] => Some ext
  | n :: rest => ext ← merge_level ext n; merge_levels ext rest
  end.

(** At some node of [nodes], starting from [ext], the height in force after
    that node's own identifier and description begins with [a] or [A]. *)
Definition anti_at_some_level (ext : extrusion) (nodes : list element) : Prop :=
  exists (pre : list element) n (post : list element) e e1,
    nodes = (pre ++ n :: post)%list
    /\ merge_levels ext pre = Some e
    /\ merge_own_values e n = Some e1
    /\ begins_anti (ex_height e1) = true.

(** ** Flattening *)

(** The Bezier segment that ends at node [j] of the path, for [1 <= j]. *)
Definition segment (sp : list cspnode) (j : nat) : option bezier :=
  a ← sp !! (j - 1)%nat; c ← sp !! j;
  Some (Bezier (csp1 a) (csp2 a) (csp0 c) (csp1 c)).

(** Every segment ending at a node [j] with [lo <= j < hi] is within the
    tolerance. *)
Definition flat_between `{BezierLib} (flat : Q) (sp : list cspnode)
    (lo hi : nat) : Prop :=
  forall j b, (lo <= j < hi)%nat -> segment sp j = Some b -> maxdist b <= flat.

(** ** Traversal and emission *)


(** [j] is in the list kept for [i]. *)
Definition listed (l : list (list nat)) (i j : nat) : Prop :=
  exists members, l !! i = Some members /\ j ∈ members.

(** [contains] and [contained_by] have one entry per subpath and mirror each
    other. *)
Definition mirrored (n : nat) (acc : list (list nat) * list (list nat))
  : Prop :=
  length acc.1 = n /\ length acc.2 = n
  /\ forall i j, listed acc.1 i j <-> listed acc.2 j i.

(** The vertices of subpath [j]. *)
Definition vertices_of (path : list subpath) (j : nat) : list point :=
  match path !! j with
  | Some sub => sub.1
  | None => []
  end.

(** The vertices of the subpaths [members], one after the other. *)
Definition nested_points (path : list subpath) (members : list nat)
  : list point :=
  concat (map (vertices_of path) members).

(** Consecutive runs of indices of the given lengths, from [start] on. *)
Fixpoint index_ranges (start : nat) (lens : list nat) : list (list nat) :=
  match lens with
  | [] => []
  | n :: rest => seq start n :: index_ranges (start + n) rest
  end.

(** The subpaths that no other subpath encloses, in order. *)
Definition top_levels (contained_by : list (list nat)) : list nat :=
  filter (fun i => contained_by !! i = Some []) (seq 0 (length contained_by)).


(** The point lies in the box. *)
Definition bbox_covers (b : bbox) (p : point) : Prop :=
  bxmin b <= p.1 /\ p.1 <= bxmax b /\ bymin b <= p.2 /\ p.2 <= bymax b.



(** The message about images was shown at most once, and not at all unless
    ['image'] is recorded among the warnings. *)
Definition image_warned_once (st : state) : Prop :=
  (length (filter (fun m => m = MSG_IMAGE) (messages st)) <= 1)%nat
  /\ ("image" ∉ warnings st ->
      filter (fun m => m = MSG_IMAGE) (messages st) = []).

(** A subpath as [getPathVertices] builds it from some subdivided
    subpath. *)
Definition stored_subpath (s : subpath) : Prop :=
  exists sp, subpath_vertices sp = Some s.

(** A later state of the same traversal: messages were only appended,
    warnings and stored nodes only added, and the drawing-wide bounding box
    only grew. *)
Definition extends (st0 st : state) : Prop :=
  messages st0 `prefix_of` messages st
  /\ warnings st0 ⊆ warnings st
  /\ dom (paths st0) ⊆ dom (paths st)
  /\ xmin st <= xmin st0 /\ xmax st0 <= xmax st
  /\ ymin st <= ymin st0 /\ ymax st0 <= ymax st.

(** The tags of the branches of [recursivelyTraverseSvg] that only
    [pass]. *)
Definition ignored_tags : list string :=
  [addNS_svg "pattern"; "pattern"; addNS_svg "metadata"; "metadata";
   addNS_svg "defs"; "defs"; addNS_svg "desc"; "desc";
   addNS_sodipodi "namedview"; "namedview"; addNS_svg "eggbot"; "eggbot";
   addNS_svg "title"; "title"; addNS_svg "radialGradient"; "radialGradient";
   addNS_svg "linearGradient"; "linearGradient"; addNS_svg "style"; "style";
   addNS_svg "cursor"; "cursor"; addNS_svg "color-profile"; "color-profile"].

(** Every entry of [self.paths] holds at least one subpath, and each of
    them is as [getPathVertices] builds it. *)
Definition well_stored (st : state) : Prop :=
  forall key entry,
    paths st !! key = Some entry ->
    entry.2 <> [] /\ Forall stored_subpath entry.2.

(** A string without white space, [;] or [:]. *)
Definition plain (s : string) : Prop :=
  Forall (fun c => is_space c = false /\ c <> ";"%char /\ c <> ":"%char)
         (list_ascii_of_string s).

(** The style attribute that lists the given properties:
    [k1:v1;k2:v2;...]. *)
Definition format_style (kvs : list (string * string)) : string :=
  join ";" (map (fun kv => kv.1 ++ ":" ++ kv.2) kvs).

(** The dictionary holding the given properties, a later one replacing an
    earlier one of the same name. *)
Definition style_dict (kvs : list (string * string)) : gmap string string :=
  fold_left (fun m kv => <[kv.1 := kv.2]> m) kvs ∅.

(** An element with the given style attribute. *)
Definition styled (style : string) : element :=
  Element (Some (addNS_svg "path")) None None (Some style) [].

(** What [polyInPoly] answers when asked whether subpath [b] lies in
    subpath [a], each with its bounding box. *)
Definition inside_of (path : list subpath) (b a : nat) : option bool :=
  pb ← path !! b; pa ← path !! a;
  polyInPoly pb.1 (Some pb.2) pa.1 (Some pa.2).

(** Subpath [a] counts as enclosing another subpath [b]: [b] is found in
    [a], and when [b] comes first in the list, [a] was not found in [b]. *)
Definition encloses (path : list subpath) (a b : nat) : Prop :=
  a <> b /\ inside_of path b a = Some true
  /\ ((b < a)%nat -> inside_of path a b = Some false).

(** The pairs of indices that the double loop has visited when the outer
    index is [i] and the inner index is [j]. *)
Definition visited (i j a b : nat) : Prop :=
  (Nat.min a b < i)%nat \/ (Nat.min a b = i /\ (Nat.max a b < j)%nat).

(** [contains] while the double loop runs. *)
Definition containment_upto (path : list subpath) (i j : nat)
    (acc : list (list nat) * list (list nat)) : Prop :=
  mirrored (length path) acc
  /\ (forall a b, listed acc.1 a b <-> encloses path a b /\ visited i j a b)
  /\ (forall a members, acc.1 !! a = Some members -> NoDup members).

(** The declarations written for the top-level subpath [i] under the
    ordinal [k]: its center, its point list, and its index lists when it
    encloses other subpaths. *)
Definition declarations (cx cy : Q) (path : list subpath)
    (contains : list (list nat)) (id : string) (k i : nat) : list out :=
  match path !! i, contains !! i with
  | Some sub, Some members =>
      [WCenter id k ((bxmin sub.2 + bxmax sub.2) * (1 # 2) - cx,
                     (bymin sub.2 + bymax sub.2) * (1 # 2) - cy);
       WPoints id k (map (centered cx cy) (sub.1 ++ nested_points path members))]
      ++ (if nonempty members
          then [WPaths id k (index_ranges 0
                  (length sub.1
                   :: map (fun j => length (vertices_of path j)) members))]
          else [])
  | _, _ => []
  end.

(** The extrusion block written for the top-level subpath [i] under the
    ordinal [k]. *)
Definition block_for (opts : options) (contains : list (list nat))
    (id : string) (filled : bool) (k i : nat) : out :=
  let nested := nonempty (default [] (contains !! i)) in
  WBlock (if filled && negb (force_line opts)
          then if nested then linear_extrude_by_paths else linear_extrude
          else if nested then extrude_by_hull_and_paths else extrude_by_hull)
         id k.

(** The names [id_k_center] and [id_k_paths] occur in the text of a block
    ([msg_linear_extrude] and the three functions after it); [id_k_points]
    occurs in all four. *)
Definition uses_center (b : block) : bool :=
  match b with
  | linear_extrude | linear_extrude_by_paths => true
  | _ => false
  end.

Definition uses_paths (b : block) : bool :=
  match b with
  | linear_extrude_by_paths | extrude_by_hull_and_paths => true
  | _ => false
  end.

(** The number of module heads in a text. *)
Definition is_module (ev : out) : bool :=
  match ev with WModule _ => true | _ => false end.

Definition modules (w : list out) : nat := length (List.filter is_module w).

(** The number of module ends in a text. *)
Definition is_end (ev : out) : bool :=
  match ev with WEnd => true | _ => false end.

Definition module_ends (w : list out) : nat := length (List.filter is_end w).

(** ** What the patterns capture *)

(** Every character of the text is in the class. *)
Fixpoint all_chars (cls : ascii -> bool) (s : string) : Prop :=
  match s with
  | EmptyString => True
  | String c s' => cls c = true /\ all_chars cls s'
  end.

(** The texts that a pattern can span; the anchors span the empty text. *)
Fixpoint lang (r : regex) (s : string) : Prop :=
  match r with
  | RChar c => s = String c ""
  | RSet cls => exists c, cls c = true /\ s = String c ""
  | RSeq r1 r2 => exists s1 s2, s = s1 ++ s2 /\ lang r1 s1 /\ lang r2 s2
  | RAlt r1 r2 => lang r1 s \/ lang r2 s
  | ROpt r1 => s = "" \/ lang r1 s
  | RStar cls | RStarLazy cls => all_chars cls s
  | RPlus cls => s <> "" /\ all_chars cls s
  | RGroup r1 => lang r1 s
  | RBol | REol => s = ""
  end.

(** The positions between which a pattern can match: the text consumed and
    what the capturing group holds afterwards. *)
Fixpoint spans (r : regex) (st st' : mstate) : Prop :=
  match r with
  | RChar c =>
      ms_rest st = String c (ms_rest st') /\ ms_group st' = ms_group st
  | RSet cls =>
      exists c, cls c = true /\ ms_rest st = String c (ms_rest st')
                /\ ms_group st' = ms_group st
  | RSeq r1 r2 => exists mid, spans r1 st mid /\ spans r2 mid st'
  | RAlt r1 r2 => spans r1 st st' \/ spans r2 st st'
  | ROpt r1 => spans r1 st st' \/ st' = st
  | RStar cls | RStarLazy cls =>
      exists s, all_chars cls s /\ ms_rest st = s ++ ms_rest st'
                /\ ms_group st' = ms_group st
  | RPlus cls =>
      exists c s, cls c = true /\ all_chars cls s
                  /\ ms_rest st = String c (s ++ ms_rest st')
                  /\ ms_group st' = ms_group st
  | RGroup r1 =>
      exists st1, spans r1 st st1 /\ ms_rest st' = ms_rest st1
        /\ ms_group st' =
           Some (string_take (String.length (ms_rest st)
                              - String.length (ms_rest st1)) (ms_rest st))
  | RBol | REol => st' = st
  end.

(** The pattern has no capturing group. *)
Fixpoint groupless (r : regex) : bool :=
  match r with
  | RSeq r1 r2 | RAlt r1 r2 => groupless r1 && groupless r2
  | ROpt r1 => groupless r1
  | RGroup _ => false
  | _ => true
  end.

(** The capturing group of a pattern that is a sequence with one group
    among its items. *)
Fixpoint the_group (r : regex) : option regex :=
  match r with
  | RGroup r1 => Some r1
  | RSeq r1 r2 =>
      match the_group r1 with
      | Some g => if groupless r2 then Some g else None
      | None => the_group r2
      end
  | _ => None
  end.

(** A non-empty run of decimal digits. *)
Definition digits (s : string) : Prop := s <> "" /\ all_chars is_digit s.

(** A decimal number: digits, and possibly one of the separators [seps]
    followed by digits. *)
Definition number_text (seps : string) (s : string) : Prop :=
  exists whole frac,
    s = whole ++ frac /\ digits whole
    /\ (frac = "" \/ exists sep ds,
                       frac = String sep ds /\ one_of seps sep = true
                       /\ digits ds).

(** A height: a number, possibly after [a] or [A]. *)
Definition height_text (seps : string) (s : string) : Prop :=
  exists sign rest,
    s = sign ++ rest /\ (sign = "" \/ sign = "a" \/ sign = "A")
    /\ number_text seps rest.

(** The height in force between two nodes of the walk: the parameter [h]
    or a text that begins with a digit. *)
Definition height_ok (h : string) : Prop :=
  h = "h" \/ exists d rest, h = String d rest /\ is_digit d = true.

(** No description child of the element lacks its text. *)
Definition texts_present (n : element) : Prop :=
  forall tagname,
    In tagname DESC_TAGS -> find_child tagname (el_childtext n) <> Some None.

(** A scale: a number, or two numbers with a comma between them and at most
    one blank on each side of the comma. *)
Definition scale_text (s : string) : Prop :=
  exists first rest,
    s = first ++ rest /\ number_text "." first
    /\ (rest = ""
        \/ exists sp1 sp2 second,
             rest = sp1 ++ "," ++ sp2 ++ second
             /\ (sp1 = "" \/ sp1 = " ") /\ (sp2 = "" \/ sp2 = " ")
             /\ number_text "." second).

(** The height right after a node's identifier and descriptions were read:
    as between two nodes, or [a] or [A] followed by a digit. *)
Definition height_read (h : string) : Prop :=
  height_ok h
  \/ exists c d rest,
       h = String c (String d rest) /\ one_of "aA" c = true
       /\ is_digit d = true.

(** * Example inputs *)

(** A leaf element with the given identifier and, optionally, a description
    child. *)
Definition leaf (id : string) (desc : option string) : element :=
  Element (Some (addNS_svg "path")) (Some id) None None
          (match desc with
           | Some text => [(addNS_svg "desc", Some text)]
           | None => []
           end).

(** A description of several lines, one of which gives the height. *)
Definition description_lines : string :=
  "A bracket" ++ String newline "height: 7mm" ++ String newline "scale: 50%".

(** An instance to run the loop on: the split is de Casteljau's construction
    at parameter [t], as [bezmisc.beziersplitatt] computes it; the metric is
    a stand-in for [cspsubdiv.maxdist] (the larger taxicab distance of a
    handle from its end point), exact on rationals. *)
Definition tpoint (p q : point) (t : Q) : point :=
  (p.1 + t * (q.1 - p.1), p.2 + t * (q.2 - p.2)).

Definition casteljau_split (b : bezier) (t : Q) : bezier * bezier :=
  let m1 := tpoint (bz0 b) (bz1 b) t in
  let m2 := tpoint (bz1 b) (bz2 b) t in
  let m3 := tpoint (bz2 b) (bz3 b) t in
  let m4 := tpoint m1 m2 t in
  let m5 := tpoint m2 m3 t in
  let m := tpoint m4 m5 t in
  (Bezier (bz0 b) m1 m4 m, Bezier m m5 m3 (bz3 b)).

Definition taxicab (p q : point) : Q := Qabs (p.1 - q.1) + Qabs (p.2 - q.2).

Definition handle_deviation (b : bezier) : Q :=
  Qred (pymax (taxicab (bz0 b) (bz1 b)) (taxicab (bz3 b) (bz2 b))).

Definition example_lib : BezierLib :=
  {| maxdist := handle_deviation; beziersplitatt := casteljau_split |}.

(** The stroke width is passed through as written. *)
Definition units_example : Units := {| stroke_width_text := fun s => Some s |}.

(** Tolerance 0.2, descriptions parsed, no forced outline mode. *)
Definition opts_example : options := Options (1 # 5) "true" false.

(** The arch from (0,0) to (4,0) with handles (0,4) and (4,4). *)
Definition arch : list cspnode :=
  [CspNode (0, 0) (0, 0) (0, 4); CspNode (4, 4) (4, 0) (4, 0)].

(** A node of the straight path through the given points. *)
Definition polyline (l : list point) : list cspnode :=
  map (fun p => CspNode p p p) l.

(** An element in the SVG namespace, without description. *)
Definition svg_element (tag id style : string) : element :=
  Element (Some (addNS_svg tag)) (Some id) None (Some style) [].

(** A [<path>] with the given geometry. *)
Definition shape_node (key : nat) (id style : string)
    (geom : list (list cspnode)) : node :=
  Node key (svg_element "path" id style) [] [] (Some geom) None [].

(** An element without geometry. *)
Definition plain_node (key : nat) (tag : string) (texts : list string) : node :=
  Node key (svg_element tag "" "") [] [] None None texts.

(** A square with a square hole, as one path of two subpaths. *)
Definition ring : list (list cspnode) :=
  [polyline [(0, 0); (10, 0); (10, 10); (0, 10); (0, 0)];
   polyline [(2, 2); (8, 2); (8, 8); (2, 8); (2, 2)]].

(** An open path of three vertices. *)
Definition triangle : list (list cspnode) :=
  [polyline [(20, 20); (30, 20); (30, 30)]].


(** Three squares, each inside the previous one. *)
Definition square (lo hi : Q) : subpath :=
  ([(lo, lo); (hi, lo); (hi, hi); (lo, hi); (lo, lo)], BBox lo hi lo hi).

Definition nested_squares : list subpath :=
  [square 0 10; square 2 8; square 4 6].

(** A ring, an element of an unknown kind and an outlined triangle. *)
Definition doc_example : list node :=
  [shape_node 1 "ring_5mm" "fill:#000" ring;
   plain_node 2 "flowRoot" [];
   shape_node 6 "tri" "fill:none;stroke:#000" triangle].

(** A [<defs>] holding a shape. *)
Definition defs_node : node :=
  Node 9 (svg_element "defs" "defs1" "") []
       [shape_node 8 "template" "fill:#000" triangle] None None [].

(** A path element whose tag lacks the namespace. *)
Definition bare_path_node : node :=
  Node 4 (Element (Some "path") (Some "p") None None []) [] []
       (Some triangle) None [].

(** A [<use>] of a triangle, moved by a non-zero offset. *)
Definition use_node : node :=
  Node 5 (svg_element "use" "u" "") [] [] None
       (Some (true, [shape_node 6 "tri" "fill:#000" triangle])) [].


(** A float reader that knows a few numerals. *)
Definition float_example : FloatLib :=
  {| float_of_string := fun s =>
       if String.eqb s "5" then Some 5
       else if String.eqb s "50" then Some 50
       else if String.eqb s "2.5" then Some (5 # 2)
       else None |}.

(** * Properties *)

(** ** Facts about the comparisons *)

Lemma Qltb_lt (a b : Q) : Qltb a b = true <-> a < b.
Proof.
  unfold Qltb. rewrite negb_true_iff. split.
  - intros H. apply Qnot_le_lt. intros Hle.
    apply Qle_bool_iff in Hle. congruence.
  - intros H. destruct (Qle_bool b a) eqn:E; [|done].
    apply Qle_bool_iff in E. by apply Qlt_not_le in H.
Qed.

Lemma Qltb_ge (a b : Q) : Qltb a b = false <-> b <= a.
Proof.
  unfold Qltb. rewrite negb_false_iff. apply Qle_bool_iff.
Qed.

Lemma bboxInBBox_within (b1 b2 : bbox) :
  bboxInBBox b1 b2 = true <-> bbox_within b1 b2.
Proof.
  unfold bboxInBBox, bbox_within.
  destruct (Qltb (bxmin b1) (bxmin b2)) eqn:E1,
           (Qltb (bxmax b2) (bxmax b1)) eqn:E2,
           (Qltb (bymin b1) (bymin b2)) eqn:E3,
           (Qltb (bymax b2) (bymax b1)) eqn:E4; simpl;
    rewrite ?Qltb_lt, ?Qltb_ge in *;
    (split; [try discriminate | ]); try tauto;
    intros (H1 & H2 & H3 & H4);
    try (by apply Qlt_not_le in E1);
    try (by apply Qlt_not_le in E2);
    try (by apply Qlt_not_le in E3);
    try (by apply Qlt_not_le in E4).
Qed.

Lemma polyInPoly_loop_true poly1 poly2 bb tested :
  (polyInPoly_loop poly1 poly2 bb tested).1 = Some true <->
  Forall (fun p => pointInPoly p poly2 bb = Some true) poly1.
Proof.
  revert tested. induction poly1 as [|p rest IH]; intros tested; simpl.
  - split; [constructor | done].
  - destruct (pointInPoly p poly2 bb) as [[|]|] eqn:E; simpl.
    + rewrite IH. split; [by constructor | by inversion 1].
    + split; [done | inversion 1; congruence].
    + split; [done | inversion 1; congruence].
Qed.

(** C1: [polyInPoly(poly1, bbox1, poly2, bbox2)] returns true exactly when
    [bbox1] lies (non-strictly) within [bbox2] and every vertex of [poly1]
    is classified inside-or-on [poly2] by [pointInPoly]; when the
    bounding-box check fails the result is false and [pointInPoly] is not
    called at all. *)
Theorem polyInPoly_iff (poly1 poly2 : list point) (b1 b2 : bbox) :
  (polyInPoly poly1 (Some b1) poly2 (Some b2) = Some true <->
     bbox_within b1 b2 /\
     Forall (fun p => pointInPoly p poly2 (Some b2) = Some true) poly1)
  /\ (~ bbox_within b1 b2 ->
      polyInPoly_run poly1 (Some b1) poly2 (Some b2) = (Some false, [])).
Proof.
  unfold polyInPoly, polyInPoly_run. rewrite <- bboxInBBox_within.
  destruct (bboxInBBox b1 b2) eqn:E; simpl.
  - rewrite polyInPoly_loop_true. split; [tauto | intros H; by destruct H].
  - split; [|done]. split; [done | intros [? _]; done].
Qed.

Lemma polyInPoly_iff_witness :
  polyInPoly [(1, 1)] (Some (BBox 1 1 1 1)) [(0, 0); (2, 0); (2, 2); (0, 2)]
             (Some (BBox 0 2 0 2)) = Some true
  /\ polyInPoly_run [(1, 1)] (Some (BBox 1 1 1 3))
                    [(0, 0); (2, 0); (2, 2); (0, 2)] (Some (BBox 0 2 0 2))
     = (Some false, []).
Proof.
  split.
  - apply (proj1 (polyInPoly_iff [(1, 1)] [(0, 0); (2, 0); (2, 2); (0, 2)]
                                 (BBox 1 1 1 1) (BBox 0 2 0 2))).
    split.
    + unfold bbox_within; simpl. repeat split; discriminate.
    + constructor; [reflexivity | constructor].
  - apply (proj2 (polyInPoly_iff [(1, 1)] [(0, 0); (2, 0); (2, 2); (0, 2)]
                                 (BBox 1 1 1 3) (BBox 0 2 0 2))).
    unfold bbox_within; simpl. intros (_ & _ & _ & H). by apply H.
Defined.

(** ** Boundary rules of [pointInPoly] *)

Lemma point_eqb_eq (p q : point) : point_eqb p q = true <-> point_eq p q.
Proof.
  unfold point_eqb, point_eq.
  by rewrite andb_true_iff, !Qeq_bool_iff.
Qed.

Lemma bbox_allows_guard bb p :
  bbox_allows bb p ->
  match bb with Some b => negb (pointInBBox p b) | None => false end = false.
Proof. destruct bb as [b|]; simpl; [intros ->|]; done. Qed.

(** A point equal to a vertex of the polygon is classified inside. *)
Lemma pointInPoly_vertex (p q : point) (poly : list point) (bb : option bbox) :
  In q poly -> point_eq p q -> bbox_allows bb p ->
  pointInPoly p poly bb = Some true.
Proof.
  intros Hin Heq Hbb. unfold pointInPoly.
  rewrite (bbox_allows_guard _ _ Hbb).
  assert (existsb (point_eqb p) poly = true) as ->; [|done].
  apply existsb_exists. exists q. by rewrite point_eqb_eq.
Qed.

(** A point on the horizontal segment between two vertices that follow each
    other in the list, strictly between their abscissas, is classified
    inside. *)
Lemma pointInPoly_horizontal (p a b : point) (poly : list point)
    (bb : option bbox) (i : nat) :
  poly !! i = Some a -> poly !! S i = Some b ->
  p.2 == a.2 -> a.2 == b.2 ->
  pymin a.1 b.1 < p.1 -> p.1 < pymax a.1 b.1 ->
  bbox_allows bb p ->
  pointInPoly p poly bb = Some true.
Proof.
  intros Ha Hb Hy1 Hy2 Hlo Hhi Hbb. unfold pointInPoly.
  rewrite (bbox_allows_guard _ _ Hbb).
  destruct (existsb (point_eqb p) poly); [done|].
  destruct poly as [|p0 [|p1 rest]]; [done| |].
  { destruct i; simpl in Hb; done. }
  set (poly := p0 :: p1 :: rest) in *.
  assert (existsb (fun j => let '(q1, q2) := horizontal_edge poly p0 j in
                            on_horizontal p q1 q2)
                  (seq 0 (length poly)) = true) as ->; [|done].
  apply existsb_exists. exists (S i). split.
  - apply in_seq. apply lookup_lt_Some in Hb. lia.
  - unfold horizontal_edge.
    rewrite (nth_lookup_Some _ _ _ _ Ha), (nth_lookup_Some _ _ _ _ Hb).
    unfold on_horizontal.
    rewrite !andb_true_iff, !Qeq_bool_iff, !Qltb_lt. done.
Qed.

(** C6: the first loop of [pointInPoly] never examines the closing edge
    [poly[n-1], poly[0]] (iteration 0 looks at [poly[0], poly[1]], as does
    iteration 1), so a point strictly inside that edge, when it is
    horizontal, is left to the ray casting, which classifies it outside:
    on the square (0,0) (0,2) (2,2) (2,0) the point (1,0) of the edge from
    (2,0) back to (0,0) is not classified inside. *)
Theorem pointInPoly_closing_edge_missed :
  pointInPoly (1, 0) [(0, 0); (0, 2); (2, 2); (2, 0)] None = Some false
  /\ pointInPoly (1, 2) [(0, 0); (0, 2); (2, 2); (2, 0)] None = Some true.
Proof. split; reflexivity. Qed.

(** ** Containment of polygons *)

Lemma polyInPoly_true_within poly1 poly2 b1 b2 :
  polyInPoly poly1 (Some b1) poly2 (Some b2) = Some true -> bbox_within b1 b2.
Proof.
  unfold polyInPoly, polyInPoly_run. intros H.
  apply bboxInBBox_within.
  destruct (bboxInBBox b1 b2); [done | simpl in H; discriminate].
Qed.

(** C8, as the code has it: a square and the same square with one more
    vertex pushed inside are two different polygons with the same bounding
    box, and each is reported as enclosed by the other. *)
Lemma polyInPoly_not_antisymmetric :
  let A := [(0, 0); (2, 0); (2, 2); (0, 2)] in
  let B := [(0, 0); (2, 0); (2, 2); (1, 1); (0, 2)] in
  let bb := Some (BBox 0 2 0 2) in
  A <> B
  /\ polyInPoly A bb B bb = Some true
  /\ polyInPoly B bb A bb = Some true.
Proof. cbv zeta. split; [discriminate | split; reflexivity]. Qed.

(** C8, for different bounding boxes: two polygons whose bounding boxes
    differ are never each reported as enclosed by the other. *)
Theorem polyInPoly_antisymmetric_bbox (A B : list point) (bA bB : bbox) :
  ~ bbox_eq bA bB ->
  ~ (polyInPoly A (Some bA) B (Some bB) = Some true
     /\ polyInPoly B (Some bB) A (Some bA) = Some true).
Proof.
  intros Hne [HAB HBA]. apply Hne.
  apply polyInPoly_true_within in HAB as (H1 & H2 & H3 & H4).
  apply polyInPoly_true_within in HBA as (H5 & H6 & H7 & H8).
  repeat split; by apply Qle_antisym.
Qed.

Lemma polyInPoly_antisymmetric_bbox_witness :
  polyInPoly [(1, 1); (2, 1); (2, 2)] (Some (BBox 1 2 1 2))
             [(0, 0); (4, 0); (4, 4); (0, 4)] (Some (BBox 0 4 0 4)) = Some true
  /\ ~ (polyInPoly [(1, 1); (2, 1); (2, 2)] (Some (BBox 1 2 1 2))
                   [(0, 0); (4, 0); (4, 4); (0, 4)] (Some (BBox 0 4 0 4))
        = Some true
        /\ polyInPoly [(0, 0); (4, 0); (4, 4); (0, 4)] (Some (BBox 0 4 0 4))
                      [(1, 1); (2, 1); (2, 2)] (Some (BBox 1 2 1 2))
           = Some true).
Proof.
  split; [reflexivity|].
  apply (polyInPoly_antisymmetric_bbox
           [(1, 1); (2, 1); (2, 2)] [(0, 0); (4, 0); (4, 4); (0, 4)]
           (BBox 1 2 1 2) (BBox 0 4 0 4)).
  unfold bbox_eq; simpl. intros (H & _). discriminate H.
Defined.

(** ** Extrusion attributes *)

(** C2: an element with identifier [part_10_5_mm] and no description
    resolves to the height "10.5"; with a description holding the line
    [height: 7mm], alone or among other lines, the height is "7"; with
    [height: a7mm] instead, the height is "7" and the negative flag is set. *)
Theorem attribute_precedence_example :
  (ex_height <$> resolve_extrusion "true" (leaf "part_10_5_mm" None) [])
    = Some "10.5"
  /\ (ex_height <$>
        resolve_extrusion "true" (leaf "part_10_5_mm" (Some "height: 7mm")) [])
     = Some "7"
  /\ resolve_extrusion "true" (leaf "part_10_5_mm" (Some description_lines)) []
     = Some (Extrusion "7" "0" "50" false)
  /\ ((fun e => (ex_height e, ex_neg e)) <$>
        resolve_extrusion "true" (leaf "part_10_5_mm" (Some "height: a7mm")) [])
     = Some ("7", true).
Proof. repeat split; vm_compute; reflexivity. Qed.

Lemma merge_levels_app ext l1 l2 :
  merge_levels ext (l1 ++ l2) = (merge_levels ext l1 ≫= fun e => merge_levels e l2).
Proof.
  revert ext. induction l1 as [|n l1 IH]; intros ext; simpl; [done|].
  destruct (merge_level ext n) as [e|]; simpl; [apply IH | done].
Qed.

(** The recursion of [object_merge_extrusion_values] is a left-to-right pass
    over the ancestor groups, root first, followed by the node itself. *)
Lemma object_merge_as_levels ext node parents :
  object_merge_extrusion_values ext node parents
  = merge_levels ext (group_chain parents ++ [node]).
Proof.
  revert ext node. induction parents as [|p ps IH]; intros ext node.
  - simpl. unfold merge_level.
    destruct (merge_own_values ext node) as [e|]; simpl; [|done].
    by destruct (strip_anti e).
  - cbn [object_merge_extrusion_values group_chain].
    destruct (tag_is (el_tag p) [addNS_svg "g"; "g"]).
    + rewrite IH, (merge_levels_app ext (group_chain ps ++ [p]) [node]).
      destruct (merge_levels ext (group_chain ps ++ [p])) as [e|]; simpl; [|done].
      unfold merge_level.
      destruct (merge_own_values e node) as [e'|]; simpl; [|done].
      by destruct (strip_anti e').
    + simpl. unfold merge_level.
      destruct (merge_own_values ext node) as [e|]; simpl; [|done].
      by destruct (strip_anti e).
Qed.

Lemma strip_anti_spec e e' :
  strip_anti e = Some e' ->
  ex_neg e' = begins_anti (ex_height e) || ex_neg e
  /\ (if begins_anti (ex_height e)
      then exists c, ex_height e = String c (ex_height e')
      else ex_height e' = ex_height e)
  /\ ex_raise e' = ex_raise e /\ ex_scale e' = ex_scale e.
Proof.
  unfold strip_anti, begins_anti.
  destruct (ex_height e) as [|c rest] eqn:Hh; [done|].
  destruct (one_of "aA" c); intros [= <-]; simpl.
  - eauto.
  - by rewrite Hh.
Qed.

Lemma merge_descs_neg tags e node e' :
  merge_descs tags e node = Some e' -> ex_neg e' = ex_neg e.
Proof.
  revert e. induction tags as [|t tags IH]; intros e; simpl.
  - by intros [= <-].
  - destruct (find_child t (el_childtext node)) as [[text|]|]; [|done|apply IH].
    intros H. apply IH in H. rewrite H. unfold merge_desc_text.
    destruct (findall RE_AUTO_HEIGHT_DESC text),
             (findall RE_AUTO_SCALE_DESC text) as [|z zs],
             (findall RE_AUTO_RAISE_DESC text); try done;
      by destruct (has_comma (py_last (z :: zs))).
Qed.

Lemma merge_own_values_neg e node e' :
  merge_own_values e node = Some e' -> ex_neg e' = ex_neg e.
Proof.
  unfold merge_own_values, merge_id. intros H.
  apply merge_descs_neg in H. rewrite H.
  by destruct (findall RE_AUTO_HEIGHT_ID (default "" (el_id node))).
Qed.

Lemma merge_level_inv ext node e2 :
  merge_level ext node = Some e2 ->
  exists e1, merge_own_values ext node = Some e1 /\ strip_anti e1 = Some e2
             /\ ex_neg e2 = begins_anti (ex_height e1) || ex_neg ext.
Proof.
  unfold merge_level.
  destruct (merge_own_values ext node) as [e1|] eqn:Hown; simpl; [|done].
  intros Hs. exists e1. repeat split; [done|].
  apply strip_anti_spec in Hs as (-> & _).
  by rewrite (merge_own_values_neg _ _ _ Hown).
Qed.

Lemma merge_levels_neg ext nodes ext' :
  merge_levels ext nodes = Some ext' ->
  (ex_neg ext' = true <-> ex_neg ext = true \/ anti_at_some_level ext nodes).
Proof.
  revert ext. induction nodes as [|n rest IH]; intros ext; simpl.
  - intros [= <-]. split; [by left|].
    intros [H|(pre & n & post & _ & _ & Hl & _)]; [done|].
    by destruct pre.
  - destruct (merge_level ext n) as [e2|] eqn:Hlev; simpl; [|done].
    intros Hrest. rewrite (IH _ Hrest).
    destruct (merge_level_inv _ _ _ Hlev) as (e1 & Hown & Hstrip & Hneg).
    rewrite Hneg, orb_true_iff. split.
    + intros [[Hb|Hn]|(pre & m & post & e & e1' & Hl & Hpre & Hm & Hb)].
      * right. exists [], n, rest, ext, e1. by simpl.
      * by left.
      * right. exists (n :: pre), m, post, e, e1'. subst rest.
        repeat split; try done. simpl. by rewrite Hlev.
    + intros [Hn|(pre & m & post & e & e1' & Hl & Hpre & Hm & Hb)]; [by left; right|].
      destruct pre as [|n' pre]; simpl in Hl; injection Hl as <- ->.
      * simpl in Hpre. injection Hpre as <-.
        left; left. congruence.
      * simpl in Hpre. rewrite Hlev in Hpre. simpl in Hpre.
        right. by exists pre, m, post, e, e1'.
Qed.

(** C7, as the code has it: the prefix test runs at every node of the walk
    and the flag is never cleared.  Under a group whose identifier gives the
    height [a5], an element whose own identifier gives the height [3] ends
    with height "3", which does not begin with [a], and yet is negative. *)
Lemma inherited_negative_not_reset :
  let group := Element (Some (addNS_svg "g")) (Some "cut_a5mm") None None [] in
  let node := leaf "part_3mm" None in
  resolve_extrusion "true" node [group] = Some (Extrusion "3" "0" "100.0" true)
  /\ merge_own_values (Extrusion "5" "0" "100.0" true) node
     = Some (Extrusion "3" "0" "100.0" true)
  /\ begins_anti "3" = false.
Proof. cbv zeta. repeat split; vm_compute; reflexivity. Qed.

(** C7, with the inherited flag: after the walk (ancestor groups from the
    root down, then the element, each applying its identifier and then its
    description), the negative flag is true exactly when, at the element or
    at one of these ancestor groups, the height in force once that node's own
    identifier and description were applied began with [a] or [A].  At the element itself
    the one-character prefix is then stripped from the height, and otherwise
    the height is kept and the flag is the one inherited from the groups. *)
Theorem negative_iff_prefixed_at_some_level (node : element)
    (parents : list element) (ext' : extrusion) :
  object_merge_extrusion_values extrusion_default node parents = Some ext' ->
  (ex_neg ext' = true <->
     anti_at_some_level extrusion_default (group_chain parents ++ [node]))
  /\ exists e0 e1,
       merge_levels extrusion_default (group_chain parents) = Some e0
       /\ merge_own_values e0 node = Some e1
       /\ ex_neg ext' = begins_anti (ex_height e1) || ex_neg e0
       /\ (if begins_anti (ex_height e1)
           then exists c, ex_height e1 = String c (ex_height ext')
           else ex_height ext' = ex_height e1).
Proof.
  rewrite object_merge_as_levels. intros H. split.
  - rewrite (merge_levels_neg _ _ _ H). simpl.
    split; [by intros [?|?] | by right].
  - rewrite merge_levels_app in H.
    destruct (merge_levels extrusion_default (group_chain parents)) as [e0|];
      simpl in H; [|done].
    destruct (merge_level e0 node) as [e2|] eqn:Hlev; simpl in H; [|done].
    injection H as <-.
    destruct (merge_level_inv _ _ _ Hlev) as (e1 & Hown & Hstrip & Hneg).
    exists e0, e1. repeat split; try done.
    by apply strip_anti_spec in Hstrip as (_ & ? & _).
Qed.

Lemma negative_iff_prefixed_at_some_level_witness :
  let group := Element (Some (addNS_svg "g")) (Some "cut_a5mm") None None [] in
  let node := leaf "part_3mm" None in
  anti_at_some_level extrusion_default (group_chain [group] ++ [node]).
Proof.
  cbv zeta.
  apply (negative_iff_prefixed_at_some_level
           (leaf "part_3mm" None)
           [Element (Some (addNS_svg "g")) (Some "cut_a5mm") None None []]
           (Extrusion "3" "0" "100.0" true)).
  - vm_compute. reflexivity.
  - reflexivity.
Defined.

(** ** Flattening *)

Section FlatteningFacts.
Context `{BezierLib}.

Lemma lookup_slice_assign_lt (sp : list cspnode) (i k : nat) p :
  (k < i <= length sp)%nat -> slice_assign sp i p !! k = sp !! k.
Proof.
  intros Hk. unfold slice_assign.
  rewrite lookup_app_l by (rewrite length_take; lia).
  apply lookup_take_lt. lia.
Qed.

(** A segment only reads entries [1] and [2] of its first node and entries
    [0] and [1] of its second node. *)
Lemma segment_preserved (sp sp' : list cspnode) (j : nat) f :
  sp' !! (j - 1)%nat = sp !! (j - 1)%nat ->
  sp' !! j = f <$> sp !! j ->
  (forall n, csp0 (f n) = csp0 n /\ csp1 (f n) = csp1 n) ->
  segment sp' j = segment sp j.
Proof.
  intros H1 H2 Hf. unfold segment. rewrite H1, H2.
  destruct (sp !! (j - 1)%nat) as [a|]; simpl; [|done].
  destruct (sp !! j) as [c|]; simpl; [|done].
  by destruct (Hf c) as [-> ->].
Qed.

Lemma subdivideCubicPath_flat (flat : Q) (lo : nat) (fuel : nat) :
  forall (sp : list cspnode) (i : nat) (sp' : list cspnode),
    (1 <= lo <= i)%nat ->
    flat_between flat sp lo i ->
    subdivideCubicPath fuel sp flat i = Some sp' ->
    flat_between flat sp' lo (length sp').
Proof.
  induction fuel as [|fuel IH]; intros sp i sp' Hlo Hinv; simpl; [done|].
  destruct (Nat.leb_spec (length sp) i) as [Hlen|Hlen].
  { intros [= <-]. intros j b Hj. apply Hinv. lia. }
  destruct i as [|i']; [lia|]. simpl.
  destruct (sp !! i') as [a|] eqn:Ha; [|done].
  destruct (sp !! S i') as [c|] eqn:Hc; [|done].
  set (b := Bezier (csp1 a) (csp2 a) (csp0 c) (csp1 c)).
  destruct (Qltb flat (maxdist b)) eqn:Hcmp.
  - destruct (beziersplitatt b (1 # 2)) as [one two]. apply IH; [done|].
    intros j bj Hj.
    rewrite (segment_preserved sp _ j
               (fun n => if decide (j = i')
                         then CspNode (csp0 n) (csp1 n) (bz1 one) else n)).
    + apply Hinv. lia.
    + rewrite lookup_slice_assign_lt by (rewrite !length_alter; lia).
      rewrite !list_lookup_alter_ne by lia. done.
    + rewrite lookup_slice_assign_lt by (rewrite !length_alter; lia).
      rewrite list_lookup_alter_ne by lia.
      destruct (decide (j = i')) as [->|Hne].
      * by rewrite list_lookup_alter_eq.
      * rewrite list_lookup_alter_ne by lia.
        by destruct (sp !! j).
    + intros n. by destruct (decide (j = i')).
  - apply IH; [lia|].
    intros j bj Hj Hseg.
    destruct (decide (j = S i')) as [->|Hne].
    + unfold segment in Hseg. simpl in Hseg.
      rewrite Nat.sub_0_r, Ha, Hc in Hseg. simpl in Hseg.
      injection Hseg as <-. by apply Qltb_ge.
    + apply (Hinv j); [lia | done].
Qed.

(** C3: when [subdivideCubicPath(sp, flat)] returns, every Bezier segment
    formed by consecutive nodes of the resulting path has a deviation
    metric [maxdist] of at most [flat]. *)
Theorem subdivideCubicPath_segments_flat (fuel : nat) (sp sp' : list cspnode)
    (flat : Q) :
  subdivideCubicPath fuel sp flat 1 = Some sp' ->
  forall j b, (1 <= j < length sp')%nat ->
              segment sp' j = Some b -> maxdist b <= flat.
Proof.
  intros Hrun.
  apply (subdivideCubicPath_flat flat 1 fuel sp 1 sp'); [lia | | done].
  intros j b Hj. lia.
Qed.

(** A path whose segments are all within the tolerance is returned as it
    is, after one pass over its nodes. *)
Lemma subdivideCubicPath_flat_unchanged (flat : Q) (fuel : nat) :
  forall (sp : list cspnode) (i : nat),
    (1 <= i)%nat -> (length sp - i < fuel)%nat ->
    flat_between flat sp i (length sp) ->
    subdivideCubicPath fuel sp flat i = Some sp.
Proof.
  induction fuel as [|fuel IH]; intros sp i Hi Hfuel Hflat; [lia|]. simpl.
  destruct (Nat.leb_spec (length sp) i) as [Hlen|Hlen]; [done|].
  destruct i as [|i']; [lia|]. simpl.
  destruct (lookup_lt_is_Some_2 sp i') as [a Ha]; [lia|].
  destruct (lookup_lt_is_Some_2 sp (S i')) as [c Hc]; [lia|].
  rewrite Ha, Hc.
  assert (maxdist (Bezier (csp1 a) (csp2 a) (csp0 c) (csp1 c)) <= flat) as Hb.
  { apply (Hflat (S i')); [lia|]. unfold segment. simpl.
    by rewrite Nat.sub_0_r, Ha, Hc. }
  apply Qltb_ge in Hb. rewrite Hb.
  apply IH; [lia | lia |]. intros j b Hj. apply Hflat. lia.
Qed.

End FlatteningFacts.

Lemma subdivideCubicPath_segments_flat_witness :
  exists sp', @subdivideCubicPath example_lib 20 arch 1 1 = Some sp'
    /\ length sp' = 5%nat
    /\ forall j b, (1 <= j < length sp')%nat ->
         segment sp' j = Some b -> @maxdist example_lib b <= 1.
Proof.
  destruct (@subdivideCubicPath example_lib 20 arch 1 1) as [sp'|] eqn:Hrun;
    [|vm_compute in Hrun; discriminate].
  exists sp'. split; [done|]. split.
  - vm_compute in Hrun. injection Hrun as <-. reflexivity.
  - exact (@subdivideCubicPath_segments_flat example_lib 20 arch sp' 1 Hrun).
Defined.

(** ** Traversal *)


Section TraversalFacts.
Context `{BezierLib} `{Units}.
Variable opts : options.
Variable fuel : nat.




End TraversalFacts.


(** A node whose style mentions [display:none] among other properties is
    traversed like any other. *)
Lemma display_none_among_others_traversed :
  exists st,
    @traverse_node example_lib opts_example 50
      (shape_node 1 "tri" "fill:#000;display:none" triangle) "visible" state_init
    = Some st
    /\ is_Some (paths st !! 1%nat).
Proof. eexists. split; [vm_compute; reflexivity | by eexists]. Qed.

(** C9: the [warnings] dictionary guards the message about images only.  Two
    elements of an unknown kind produce the same message twice, and so do two
    text elements, while two images produce one message; none of them stops
    the traversal. *)
Theorem unsupported_warned_per_element `{BezierLib} (opts : options)
    (fuel : nat) :
  (messages <$> recursivelyTraverseSvg opts fuel
     [plain_node 1 "flowRoot" []; plain_node 2 "flowRoot" []]
     "visible" state_init)
  = Some [msg_object (addNS_svg "flowRoot"); msg_object (addNS_svg "flowRoot")]
  /\ (messages <$> recursivelyTraverseSvg opts fuel
        [plain_node 1 "text" ["A"]; plain_node 2 "text" ["A"]]
        "visible" state_init)
     = Some ["Warning: text " ++ dquote ++ "A" ++ dquote; MSG_TEXT;
             "Warning: text " ++ dquote ++ "A" ++ dquote; MSG_TEXT]
  /\ (messages <$> recursivelyTraverseSvg opts fuel
        [plain_node 1 "image" []; plain_node 2 "image" []]
        "visible" state_init)
     = Some [MSG_IMAGE].
Proof. repeat split; vm_compute; reflexivity. Qed.

(** ** Containment lists *)

Lemma foldM_invariant {A B : Type} (P : A -> Prop) (g : A -> B -> option A)
    (l : list B) (a a' : A) :
  (forall a x a', P a -> x ∈ l -> g a x = Some a' -> P a') ->
  P a -> foldM g l a = Some a' -> P a'.
Proof.
  revert a. induction l as [|x l IH]; intros a Hstep Ha; simpl.
  - by intros [= <-].
  - destruct (g a x) as [a1|] eqn:Hg; simpl; [|done].
    apply IH.
    + intros a0 y a0' H0 Hy. apply Hstep; [done | by right].
    + apply (Hstep a x); [done | by left | done].
Qed.

Lemma nonempty_false {A : Type} (l : list A) : nonempty l = false <-> l = [].
Proof. by destruct l. Qed.

Lemma listed_append_at l a b i j :
  (a < length l)%nat ->
  listed (append_at a b l) i j <-> listed l i j \/ (i = a /\ j = b).
Proof.
  intros Ha. unfold listed, append_at.
  destruct (lookup_lt_is_Some_2 l a Ha) as [m0 Hm0].
  destruct (decide (a = i)) as [<-|Hne].
  - rewrite list_lookup_alter_eq, Hm0. simpl. split.
    + intros (members & [= <-] & Hj). apply elem_of_app in Hj as [Hj|Hj].
      * left. eauto.
      * apply list_elem_of_singleton in Hj. by right.
    + intros [(members & Hl & Hj)|[_ ->]]; eexists; (split; [done|]);
        apply elem_of_app.
      * left. congruence.
      * right. by apply list_elem_of_singleton.
  - rewrite list_lookup_alter_ne by done. split; [by left|].
    intros [?|[-> _]]; done.
Qed.

Lemma append_at_mirrored n cs cb a b :
  mirrored n (cs, cb) -> (a < n)%nat -> (b < n)%nat ->
  mirrored n (append_at a b cs, append_at b a cb).
Proof.
  intros (Hl1 & Hl2 & Hm) Ha Hb. unfold mirrored. simpl in *.
  unfold append_at at 1 2. rewrite !length_alter. repeat split; try done.
  - rewrite listed_append_at by lia. intros [Hl|[-> ->]];
      apply listed_append_at; [lia | left; by apply Hm | lia | by right].
  - rewrite listed_append_at by lia. intros [Hl|[-> ->]];
      apply listed_append_at; [lia | left; by apply Hm | lia | by right].
Qed.

Lemma containment_mirrored path cs cb :
  containment path = Some (cs, cb) -> mirrored (length path) (cs, cb).
Proof.
  unfold containment.
  apply (foldM_invariant (mirrored (length path))).
  - intros acc i acc' Hacc Hi.
    apply (foldM_invariant (mirrored (length path))); [|done].
    intros [cs0 cb0] j acc1 Hinv Hj. unfold containment_pair.
    destruct (path !! i) as [pi|] eqn:Hpi; simpl; [|done].
    destruct (path !! j) as [pj|] eqn:Hpj; simpl; [|done].
    apply lookup_lt_Some in Hpi, Hpj.
    destruct (polyInPoly pj.1 (Some pj.2) pi.1 (Some pi.2)) as [[|]|];
      simpl; [| |done].
    + intros [= <-]. by apply append_at_mirrored.
    + destruct (polyInPoly pi.1 (Some pi.2) pj.1 (Some pj.2)) as [[|]|];
        simpl; [| |done].
      * intros [= <-]. by apply append_at_mirrored.
      * by intros [= <-].
  - unfold mirrored. simpl. rewrite !length_replicate.
    split; [done|]. split; [done|].
    assert (forall i j, ~ listed (replicate (length path) []) i j) as Hno.
    { intros i j (members & Hi & Hj). apply lookup_replicate in Hi as [-> _].
      by apply elem_of_nil in Hj. }
    intros i j. split; intros Hl; by apply Hno in Hl.
Qed.

(** ** What [convertPath] writes *)

Section EmissionFacts.
Context `{Units}.
Variable opts : options.
Variables cx cy : Q.


Lemma fold_nested_spec path members pts pp c pts' pp' c' :
  foldM (fold_nested cx cy path) members (pts, pp, c) = Some (pts', pp', c') ->
  pts' = (pts ++ map (centered cx cy) (nested_points path members))%list
  /\ pp' = (pp ++ index_ranges c (map (fun j => length (vertices_of path j))
                                     members))%list.
Proof.
  revert pts pp c. induction members as [|j members IH]; intros pts pp c; simpl.
  - intros [= <- <- <-]. by rewrite !app_nil_r.
  - destruct (path !! j) as [pj|] eqn:Hj; simpl; [|done].
    assert (vertices_of path j = pj.1) as Hv by (unfold vertices_of; by rewrite Hj).
    intros Hf. apply IH in Hf as [-> ->].
    unfold nested_points. simpl. rewrite Hv, map_app, <- !app_assoc. done.
Qed.





End EmissionFacts.


(** ** Invariants of the traversal *)

(** Induction over the document tree: a property holds of every node when
    it holds of a node as soon as it holds of its children and of the nodes
    its reference resolves to. *)
Lemma node_tree_ind (P : node -> Prop) :
  (forall key el parents children geom use texts,
     Forall P children ->
     (forall xy refnode, use = Some (xy, refnode) -> Forall P refnode) ->
     P (Node key el parents children geom use texts)) ->
  forall n, P n.
Proof.
  intros Hstep.
  fix IH 1. intros [key el parents children geom use texts].
  apply Hstep.
  - induction children as [|c children IHc]; constructor; [apply IH | exact IHc].
  - destruct use as [[xy0 refs]|]; [|intros ? ? [=]].
    assert (Forall P refs) as Hrefs.
    { induction refs as [|c refs IHc]; constructor; [apply IH | exact IHc]. }
    intros xy refnode [= _ <-]. exact Hrefs.
Qed.

Section TraversalInvariants.
Context `{BezierLib}.
Variable opts : options.
Variable fuel : nat.

(** A property of the state kept by every step that changes the state is
    kept by the traversal of any node. *)
Lemma traverse_node_invariant (I : state -> Prop) :
  (forall p key el parents st st',
     I st -> getPathVertices opts fuel p key el parents st = Some st' -> I st') ->
  (forall texts st, I st -> I (warn_text texts st)) ->
  (forall st, I st -> I (warn_image st)) ->
  (forall tag st, I st -> I (errormsg (msg_object tag) st)) ->
  forall n pv st st',
    I st -> traverse_node opts fuel n pv st = Some st' -> I st'.
Proof.
  intros Hpath Htext Himage Hobject.
  induction n as [key el parents children geom use texts Hch Hrefs]
    using node_tree_ind.
  intros pv st st' HI. cbn [traverse_node].
  destruct (visible_as el pv) as [v|]; [|by intros [= <-]].
  assert (forall l : list node,
            Forall (fun m => forall pv st st',
                      I st -> traverse_node opts fuel m pv st = Some st' -> I st') l ->
            forall pv st st', I st ->
              (fix go (l : list node) (pv : string) (st : state) : option state :=
                 match l with
                 | [] => Some st
                 | m :: l' => traverse_node opts fuel m pv st ≫= fun st => go l' pv st
                 end) l pv st = Some st' -> I st') as Hlist.
  { clear. intros l Hl. induction Hl as [|m l Hm _ IHl]; intros pv st st' HI.
    - by intros [= <-].
    - destruct (traverse_node opts fuel m pv st) as [st1|] eqn:Hm1; [|done].
      cbn [mbind option_bind]. apply IHl. by apply (Hm pv st). }
  assert (match geom with
          | Some p => getPathVertices opts fuel p key el parents st
          | None => Some st
          end = Some st' -> I st') as Hshape.
  { destruct geom as [p|]; [by apply Hpath | by intros [= <-]]. }
  repeat match goal with
         | |- (if ?b then _ else _) = Some _ -> _ => destruct b
         end;
    try (by intros [= <-]); try exact Hshape.
  - by apply Hlist.
  - destruct use as [[xy [|r refnode]]|]; try (by intros [= <-]).
    destruct xy; [done|]. apply (Hlist (r :: refnode)); [|done].
    exact (Hrefs false (r :: refnode) eq_refl).
  - intros [= <-]. by apply Htext.
  - intros [= <-]. by apply Himage.
  - destruct (el_tag el) as [tag|]; intros [= <-]; [by apply Hobject | done].
Qed.

End TraversalInvariants.

(** *** The drawing-wide bounding box covers what is stored *)

Lemma track_bbox_covers (b : bbox) (pt : point) :
  bxmin b <= bxmax b -> bymin b <= bymax b ->
  bxmin (track_bbox b pt) <= bxmax (track_bbox b pt)
  /\ bymin (track_bbox b pt) <= bymax (track_bbox b pt)
  /\ bbox_covers (track_bbox b pt) pt
  /\ forall q, bbox_covers b q -> bbox_covers (track_bbox b pt) q.
Proof.
  intros Hx Hy. unfold track_bbox, bbox_covers.
  destruct (Qltb pt.1 (bxmin b)) eqn:E1; [|destruct (Qltb (bxmax b) pt.1) eqn:E2];
    (destruct (Qltb pt.2 (bymin b)) eqn:E3;
     [|destruct (Qltb (bymax b) pt.2) eqn:E4]);
    rewrite ?Qltb_lt, ?Qltb_ge in *; simpl;
    (split; [lra|split; [lra|split; [repeat split; lra|]]]);
    intros q (? & ? & ? & ?); repeat split; lra.
Qed.

Lemma fold_track_bbox_covers (pts : list point) (b : bbox) :
  bxmin b <= bxmax b -> bymin b <= bymax b ->
  (forall q, q ∈ pts -> bbox_covers (fold_left track_bbox pts b) q)
  /\ (forall q, bbox_covers b q -> bbox_covers (fold_left track_bbox pts b) q).
Proof.
  revert b. induction pts as [|pt pts IH]; intros b Hx Hy; simpl.
  - split; [intros q Hq; by apply elem_of_nil in Hq | done].
  - destruct (track_bbox_covers b pt Hx Hy) as (Hx' & Hy' & Hpt & Hold).
    destruct (IH _ Hx' Hy') as [Hnew Hkeep]. split.
    + intros q Hq. apply elem_of_cons in Hq as [->|Hq]; [by apply Hkeep | by apply Hnew].
    + intros q Hq. by apply Hkeep, Hold.
Qed.

Lemma subpath_vertices_covers (sp : list cspnode) (sub : subpath) (p : point) :
  subpath_vertices sp = Some sub -> p ∈ sub.1 -> bbox_covers sub.2 p.
Proof.
  destruct sp as [|n0 rest]; [done|]. intros [= <-]. simpl.
  set (b0 := BBox _ _ _ _).
  destruct (fold_track_bbox_covers (map csp1 rest) b0) as [Hnew Hkeep];
    [apply Qle_refl..|].
  intros Hp. apply elem_of_cons in Hp as [->|Hp]; [|by apply Hnew].
  apply Hkeep. unfold bbox_covers, b0. simpl. repeat split; apply Qle_refl.
Qed.


Section CoverInvariant.
Context `{BezierLib}.
Variable opts : options.
Variable fuel : nat.




End CoverInvariant.

(** *** The warning about images *)

Lemma msg_object_not_image tag : msg_object tag <> MSG_IMAGE.
Proof. unfold msg_object, MSG_IMAGE. cbn. discriminate. Qed.

Lemma msg_text_not_image : MSG_TEXT <> MSG_IMAGE.
Proof. unfold MSG_TEXT, MSG_IMAGE. cbn. discriminate. Qed.

Lemma msg_text_content_not_image plaintext :
  "Warning: text " ++ dquote ++ plaintext ++ dquote <> MSG_IMAGE.
Proof. unfold MSG_IMAGE. cbn. discriminate. Qed.

Lemma errormsg_other_image_once m st :
  m <> MSG_IMAGE -> image_warned_once st -> image_warned_once (errormsg m st).
Proof.
  intros Hm [Hle Hnone]. unfold image_warned_once, errormsg. simpl.
  rewrite filter_app, (filter_cons_False _ m) by done. simpl.
  by rewrite app_nil_r.
Qed.

Lemma warn_text_image_once texts st :
  image_warned_once st -> image_warned_once (warn_text texts st).
Proof.
  intros Hst. unfold warn_text. destruct texts as [|t texts]; [done|].
  apply errormsg_other_image_once; [apply msg_text_not_image|].
  apply errormsg_other_image_once; [apply msg_text_content_not_image | done].
Qed.

Lemma warn_image_image_once st :
  image_warned_once st -> image_warned_once (warn_image st).
Proof.
  intros [Hle Hnone]. unfold warn_image.
  destruct (decide ("image" ∈ warnings st)) as [Hin|Hnin]; [done|].
  unfold image_warned_once, errormsg. simpl.
  rewrite filter_app, (Hnone Hnin), filter_cons_True by done. simpl.
  split; [lia|]. intros Hn. exfalso. apply Hn. set_solver.
Qed.

Section ImageWarning.
Context `{BezierLib}.
Variable opts : options.
Variable fuel : nat.

Lemma getPathVertices_loop_messages p st acc st' subpath_list :
  getPathVertices_loop opts fuel p st acc = Some (st', subpath_list) ->
  messages st' = messages st /\ warnings st' = warnings st.
Proof.
  revert st acc. induction p as [|sp p IH]; intros st acc; simpl.
  - by intros [= <- _].
  - destruct (subdivideCubicPath fuel sp (smoothness opts) 1) as [sp'|];
      simpl; [|done].
    destruct (subpath_vertices sp') as [sub|]; simpl; [|done].
    intros Hrest. by apply IH in Hrest.
Qed.

Lemma getPathVertices_image_once p key el parents st st' :
  image_warned_once st ->
  getPathVertices opts fuel p key el parents st = Some st' ->
  image_warned_once st'.
Proof.
  intros Hst. unfold getPathVertices. destruct p as [|sp p]; [by intros [= <-]|].
  destruct (getPathVertices_loop opts fuel (sp :: p) st [])
    as [[st1 subpath_list]|] eqn:Hloop; [|done].
  apply getPathVertices_loop_messages in Hloop as [Hm Hw].
  cbn [mbind option_bind]. unfold image_warned_once in *.
  destruct subpath_list; intros [= <-]; simpl; by rewrite Hm, Hw.
Qed.

(** Whatever the document, the message about bitmap images is shown at most
    once. *)
Lemma image_warning_at_most_once doc pv st :
  recursivelyTraverseSvg opts fuel doc pv state_init = Some st ->
  (length (filter (fun m => m = MSG_IMAGE) (messages st)) <= 1)%nat.
Proof.
  assert (forall l st0 st1, image_warned_once st0 ->
            recursivelyTraverseSvg opts fuel l pv st0 = Some st1 ->
            image_warned_once st1) as Hlist.
  { induction l as [|n l IH]; intros st0 st1 H0; simpl.
    - by intros [= <-].
    - destruct (traverse_node opts fuel n pv st0) as [st2|] eqn:Hn; simpl; [|done].
      apply IH. revert Hn.
      apply (traverse_node_invariant opts fuel image_warned_once); try done.
      + intros. by eapply getPathVertices_image_once.
      + apply warn_text_image_once.
      + apply warn_image_image_once.
      + intros tag st3. apply errormsg_other_image_once, msg_object_not_image. }
  intros Hrun. apply (Hlist doc state_init st); [|done].
  split; [simpl; lia | done].
Qed.

End ImageWarning.

(** ** Centering *)

Section EffectFacts.
Context `{BezierLib} `{Units}.
Variable opts : options.
Variable fuel : nat.







End EffectFacts.


(** * Further properties of the polygon tests *)

(** X1: a point equal to a vertex of the polygon is classified inside,
    whatever the rest of the polygon, as long as a supplied bounding box does
    not reject the point. *)
Theorem vertex_classified_inside (p q : point) (poly : list point)
    (bb : option bbox) :
  In q poly -> point_eq p q -> bbox_allows bb p ->
  pointInPoly p poly bb = Some true.
Proof. apply pointInPoly_vertex. Qed.

Lemma vertex_classified_inside_witness :
  pointInPoly (2, 2) [(0, 0); (2, 0); (2 # 1, 4 # 2); (0, 2)]
              (Some (BBox 0 2 0 2))
  = Some true.
Proof.
  apply (vertex_classified_inside (2, 2) (2 # 1, 4 # 2)
           [(0, 0); (2, 0); (2 # 1, 4 # 2); (0, 2)] (Some (BBox 0 2 0 2))).
  - right. right. by left.
  - split; reflexivity.
  - reflexivity.
Defined.

(** X2: a point on the horizontal segment between two vertices that follow
    each other in the list, strictly between their abscissas, is classified
    inside, as long as a supplied bounding box does not reject it. *)
Theorem horizontal_edge_classified_inside (p a b : point) (poly : list point)
    (bb : option bbox) (i : nat) :
  poly !! i = Some a -> poly !! S i = Some b ->
  p.2 == a.2 -> a.2 == b.2 ->
  pymin a.1 b.1 < p.1 -> p.1 < pymax a.1 b.1 ->
  bbox_allows bb p ->
  pointInPoly p poly bb = Some true.
Proof. apply pointInPoly_horizontal. Qed.

Lemma horizontal_edge_classified_inside_witness :
  pointInPoly (1, 2) [(0, 0); (0, 2); (2, 2); (2, 0)] None = Some true.
Proof.
  apply (horizontal_edge_classified_inside (1, 2) (0, 2) (2, 2)
           [(0, 0); (0, 2); (2, 2); (2, 0)] None 1);
    try reflexivity.
Defined.

Lemma pymax_cases (a b : Q) : pymax a b = a \/ pymax a b = b.
Proof. unfold pymax. destruct (Qltb a b); auto. Qed.

Lemma pymin_cases (a b : Q) : pymin a b = a \/ pymin a b = b.
Proof. unfold pymin. destruct (Qltb b a); auto. Qed.

Lemma existsb_false {A : Type} (g : A -> bool) (l : list A) :
  (forall x, In x l -> g x = false) -> existsb g l = false.
Proof.
  intros Hg. induction l as [|x l IH]; simpl; [done|].
  rewrite (Hg x) by (by left). apply IH. intros y Hy. apply Hg. by right.
Qed.

(** The ray casting leaves [inside] as it is as long as every edge it meets
    is rejected by one of the three outer tests. *)
Lemma ray_loop_unchanged (x y : Q) (poly : list point) (d : point)
    (P : point -> Prop) (idx : list nat) (acc : bool * point) :
  poly <> [] ->
  (forall q, In q poly -> P q) ->
  (forall q1 q2, P q1 -> P q2 ->
     Qltb (pymin q1.2 q2.2) y && Qle_bool y (pymax q1.2 q2.2)
     && Qle_bool x (pymax q1.1 q2.1) = false) ->
  P acc.2 ->
  (fold_left (ray_step x y poly d) idx acc).1 = acc.1.
Proof.
  intros Hne Hall Hrej. revert acc.
  induction idx as [|i idx IH]; intros [inside [p1_x p1_y]] Hacc; simpl; [done|].
  assert (In (nth (i mod length poly) poly d) poly) as Hin.
  { apply nth_In. apply Nat.mod_upper_bound. by destruct poly. }
  destruct (nth (i mod length poly) poly d) as [p2_x p2_y] eqn:Hnth.
  specialize (Hrej (p1_x, p1_y) (p2_x, p2_y) Hacc (Hall _ Hin)). simpl in Hrej.
  rewrite IH by (by apply Hall). simpl.
  destruct (Qltb (pymin p1_y p2_y) y); [|done].
  destruct (Qle_bool y (pymax p1_y p2_y)); [|done].
  destruct (Qle_bool x (pymax p1_x p2_x)); [done|done].
Qed.

Lemma Qle_bool_false (a b : Q) : Qle_bool a b = false <-> b < a.
Proof.
  rewrite <- Qltb_lt. unfold Qltb. by destruct (Qle_bool a b).
Qed.

Lemma Qeq_bool_false_lt (a b : Q) : a < b \/ b < a -> Qeq_bool a b = false.
Proof.
  intros Hlt. destruct (Qeq_bool a b) eqn:E; [|done].
  apply Qeq_bool_iff in E. rewrite E in Hlt.
  destruct Hlt as [H|H]; by apply Qlt_irrefl in H.
Qed.

(** X3: a point that lies strictly above, strictly below or strictly to the
    right of every vertex of a polygon of at least two vertices is classified
    outside, with or without a bounding box. *)
Theorem pointInPoly_beyond_extent (p : point) (poly : list point)
    (bb : option bbox) :
  (2 <= length poly)%nat ->
  (forall q, In q poly -> q.2 < p.2)
  \/ (forall q, In q poly -> p.2 < q.2)
  \/ (forall q, In q poly -> q.1 < p.1) ->
  pointInPoly p poly bb = Some false.
Proof.
  intros Hlen Hext. unfold pointInPoly.
  destruct (match bb with Some b => negb (pointInBBox p b) | None => false end);
    [done|].
  assert (existsb (point_eqb p) poly = false) as ->.
  { apply existsb_false. intros q Hq. unfold point_eqb.
    destruct Hext as [H|[H|H]]; specialize (H q Hq).
    - rewrite (Qeq_bool_false_lt p.2 q.2) by (by right). apply andb_false_r.
    - rewrite (Qeq_bool_false_lt p.2 q.2) by (by left). apply andb_false_r.
    - by rewrite (Qeq_bool_false_lt p.1 q.1) by (by right). }
  destruct poly as [|p0 [|p1 rest]]; [simpl in Hlen; lia..|].
  set (poly := p0 :: p1 :: rest) in *.
  assert (forall i, (i < length poly)%nat -> In (nth i poly p0) poly) as Hnth.
  { intros i Hi. by apply nth_In. }
  assert (existsb (fun i => let '(q1, q2) := horizontal_edge poly p0 i in
                            on_horizontal p q1 q2)
                  (seq 0 (length poly)) = false) as ->.
  { apply existsb_false. intros i Hi. apply in_seq in Hi.
    assert (exists q1 q2, horizontal_edge poly p0 i = (q1, q2)
                          /\ In q1 poly /\ In q2 poly) as (q1 & q2 & -> & H1 & H2).
    { destruct i as [|j].
      - exists p0, p1. repeat split; [by left | right; by left].
      - exists (nth j poly p0), (nth (S j) poly p0).
        split; [done|]. split; apply Hnth; lia. }
    unfold on_horizontal. destruct Hext as [H|[H|H]].
    + rewrite (Qeq_bool_false_lt p.2 q1.2) by (right; by apply H). done.
    + rewrite (Qeq_bool_false_lt p.2 q1.2) by (left; by apply H). done.
    + assert (Qltb p.1 (pymax q1.1 q2.1) = false) as ->;
        [|by rewrite andb_false_r].
      apply Qltb_ge. destruct (pymax_cases q1.1 q2.1) as [->| ->];
        apply Qlt_le_weak; by apply H. }
  f_equal.
  destruct Hext as [H|[H|H]].
  - rewrite (ray_loop_unchanged _ _ _ _ (fun q => q.2 < p.2)); try done.
    + intros q1 q2 H1 H2.
      assert (Qle_bool p.2 (pymax q1.2 q2.2) = false) as ->;
        [|by rewrite andb_false_r].
      apply Qle_bool_false. by destruct (pymax_cases q1.2 q2.2) as [->| ->].
    + apply H. by left.
  - rewrite (ray_loop_unchanged _ _ _ _ (fun q => p.2 < q.2)); try done.
    + intros q1 q2 H1 H2.
      assert (Qltb (pymin q1.2 q2.2) p.2 = false) as ->; [|done].
      apply Qltb_ge, Qlt_le_weak.
      by destruct (pymin_cases q1.2 q2.2) as [->| ->].
    + apply H. by left.
  - rewrite (ray_loop_unchanged _ _ _ _ (fun q => q.1 < p.1)); try done.
    + intros q1 q2 H1 H2.
      assert (Qle_bool p.1 (pymax q1.1 q2.1) = false) as ->;
        [|by rewrite andb_false_r].
      apply Qle_bool_false. by destruct (pymax_cases q1.1 q2.1) as [->| ->].
    + apply H. by left.
Qed.

Lemma pointInPoly_beyond_extent_witness :
  pointInPoly (5, 1) [(0, 0); (2, 0); (2, 2); (0, 2)] None = Some false.
Proof.
  apply (pointInPoly_beyond_extent (5, 1) [(0, 0); (2, 0); (2, 2); (0, 2)] None).
  - simpl. lia.
  - right. right. intros q Hq. simpl in Hq.
    destruct Hq as [<-|[<-|[<-|[<-|[]]]]]; reflexivity.
Defined.

Lemma pointInBBox_covers (p : point) (b : bbox) :
  pointInBBox p b = true <-> bbox_covers b p.
Proof.
  unfold pointInBBox, bbox_covers.
  destruct (Qltb p.1 (bxmin b)) eqn:E1, (Qltb (bxmax b) p.1) eqn:E2,
           (Qltb p.2 (bymin b)) eqn:E3, (Qltb (bymax b) p.2) eqn:E4; simpl;
    rewrite ?Qltb_lt, ?Qltb_ge in *;
    (split; [try discriminate; intros _; repeat split; lra
            | try done; intros (? & ? & ? & ?); lra]).
Qed.

(** X4: lying on or within is a preorder on bounding boxes, and a point of
    a box is a point of every box around it. *)
Theorem bboxInBBox_preorder (b1 b2 b3 : bbox) (p : point) :
  bboxInBBox b1 b1 = true
  /\ (bboxInBBox b1 b2 = true -> bboxInBBox b2 b3 = true ->
      bboxInBBox b1 b3 = true)
  /\ (pointInBBox p b1 = true -> bboxInBBox b1 b2 = true ->
      pointInBBox p b2 = true).
Proof.
  rewrite !bboxInBBox_within, !pointInBBox_covers.
  unfold bbox_within, bbox_covers.
  split; [repeat split; apply Qle_refl|]. split.
  - intros (? & ? & ? & ?) (? & ? & ? & ?). repeat split; lra.
  - intros (? & ? & ? & ?) (? & ? & ? & ?). repeat split; lra.
Qed.

Lemma bboxInBBox_preorder_witness :
  bboxInBBox (BBox 1 2 1 2) (BBox 0 9 0 9) = true
  /\ pointInBBox (1, 2) (BBox 0 9 0 9) = true.
Proof.
  pose proof (bboxInBBox_preorder (BBox 1 2 1 2) (BBox 0 3 0 3) (BBox 0 9 0 9)
                (1, 2)) as (_ & Htrans & _).
  pose proof (bboxInBBox_preorder (BBox 1 2 1 2) (BBox 0 9 0 9) (BBox 0 9 0 9)
                (1, 2)) as (_ & _ & Hpoint).
  split; [apply Htrans; reflexivity|].
  apply Hpoint; [reflexivity|]. apply Htrans; reflexivity.
Defined.

(** X5: containment is reflexive: a polygon whose vertices lie in its
    bounding box is reported as enclosed by itself. *)
Theorem polyInPoly_reflexive (poly : list point) (b : bbox) :
  (forall q, In q poly -> pointInBBox q b = true) ->
  polyInPoly poly (Some b) poly (Some b) = Some true.
Proof.
  intros Hin. unfold polyInPoly, polyInPoly_run.
  assert (bboxInBBox b b = true) as ->.
  { apply bboxInBBox_within. repeat split; apply Qle_refl. }
  simpl. apply polyInPoly_loop_true. apply Forall_forall. intros q Hq.
  apply list_elem_of_In in Hq.
  apply (pointInPoly_vertex q q); [done | split; reflexivity | by apply Hin].
Qed.

Lemma polyInPoly_reflexive_witness :
  polyInPoly [(0, 0); (2, 0); (2, 2)] (Some (BBox 0 2 0 2))
             [(0, 0); (2, 0); (2, 2)] (Some (BBox 0 2 0 2)) = Some true.
Proof.
  apply (polyInPoly_reflexive [(0, 0); (2, 0); (2, 2)] (BBox 0 2 0 2)).
  intros q Hq. simpl in Hq. destruct Hq as [<-|[<-|[<-|[]]]]; reflexivity.
Defined.

(** On a stored subpath [pointInPoly] does not raise: a polygon of one
    vertex has that vertex as its bounding box, so a point the box allows is
    the vertex. *)
Lemma pointInPoly_stored_total (p : point) (s : subpath) :
  stored_subpath s -> is_Some (pointInPoly p s.1 (Some s.2)).
Proof.
  intros [[|n0 [|n1 rest]] Hs]; [done| |].
  - injection Hs as <-. unfold pointInPoly. cbn [fst snd map fold_left].
    destruct (pointInBBox p _) eqn:Hbox; simpl; [|by eexists].
    apply pointInBBox_covers in Hbox as (H1 & H2 & H3 & H4). simpl in *.
    assert (point_eqb p (csp1 n0) = true) as ->; [|by eexists].
    apply point_eqb_eq. split; by apply Qle_antisym.
  - injection Hs as <-. unfold pointInPoly. cbn [fst snd map].
    destruct (negb _); [by eexists|].
    destruct (existsb _ _); [by eexists|].
    destruct (existsb _ _); by eexists.
Qed.

Lemma polyInPoly_stored_total (poly1 : list point) (b1 : option bbox)
    (s : subpath) :
  stored_subpath s -> is_Some (polyInPoly poly1 b1 s.1 (Some s.2)).
Proof.
  intros Hs. unfold polyInPoly, polyInPoly_run.
  destruct (match b1 with Some _ => _ | None => _ end); [by eexists|].
  generalize (@nil point).
  induction poly1 as [|p rest IH]; intros tested; simpl; [by eexists|].
  destruct (pointInPoly_stored_total p s Hs) as [[|] ->]; [apply IH | by eexists].
Qed.

Lemma foldM_total {A B : Type} (P : A -> Prop) (g : A -> B -> option A)
    (l : list B) (a : A) :
  (forall a x, P a -> x ∈ l -> exists a', g a x = Some a' /\ P a') ->
  P a -> exists a', foldM g l a = Some a' /\ P a'.
Proof.
  revert a. induction l as [|x l IH]; intros a Hstep Ha; simpl; [eauto|].
  destruct (Hstep a x Ha) as (a1 & -> & Ha1); [by left|]. simpl.
  apply IH; [|done]. intros a0 y H0 Hy. apply Hstep; [done | by right].
Qed.

Lemma containment_total (path : list subpath) :
  Forall stored_subpath path -> is_Some (containment path).
Proof.
  intros Hstored. unfold containment.
  destruct (foldM_total (fun _ => True)
              (fun acc i =>
                 foldM (fun acc j => containment_pair path acc i j)
                       (seq (i + 1) (length path - (i + 1))) acc)
              (seq 0 (length path))
              (replicate (length path) [], replicate (length path) []))
    as (acc & Hacc & _); [|done|by eexists].
  intros acc i _ Hi. apply elem_of_seq in Hi.
  apply (foldM_total (fun _ => True)); [|done].
  intros [cs cb] j _ Hj. apply elem_of_seq in Hj.
  assert (is_Some (containment_pair path (cs, cb) i j)) as [a' Ha'];
    [|by exists a'].
  unfold containment_pair, subpath in *.
  destruct (lookup_lt_is_Some_2 path i) as [pi Hpi]; [lia|].
  destruct (lookup_lt_is_Some_2 path j) as [pj Hpj]; [lia|].
  rewrite Hpi, Hpj. simpl.
  rewrite Forall_forall in Hstored.
  destruct (polyInPoly_stored_total pj.1 (Some pj.2) pi) as [r1 ->].
  { apply Hstored. by eapply list_elem_of_lookup_2. }
  simpl. destruct r1; [by eexists|].
  destruct (polyInPoly_stored_total pi.1 (Some pi.2) pj) as [r2 ->].
  { apply Hstored. by eapply list_elem_of_lookup_2. }
  simpl. destruct r2; by eexists.
Qed.

(** X6: on the subpaths that [getPathVertices] stores, the containment
    analysis of [convertPath] never raises: the [IndexError] of
    [pointInPoly] on a polygon of fewer than two vertices cannot occur, as
    the bounding box of a one-vertex subpath is that vertex. *)
Theorem containment_never_raises (path : list subpath) :
  Forall stored_subpath path -> is_Some (containment path).
Proof. apply containment_total. Qed.

Lemma containment_never_raises_witness :
  is_Some (containment [([(1, 1)], BBox 1 1 1 1);
                        ([(0, 0); (2, 0); (2, 2)], BBox 0 2 0 2)]).
Proof.
  apply (containment_never_raises
           [([(1, 1)], BBox 1 1 1 1); ([(0, 0); (2, 0); (2, 2)], BBox 0 2 0 2)]).
  repeat constructor.
  - by exists [CspNode (1, 1) (1, 1) (1, 1)].
  - by exists (polyline [(0, 0); (2, 0); (2, 2)]).
Defined.

(** * Further properties of the flattening *)

Section FlatteningMore.
Context `{BezierLib}.

(** X7: a path whose segments are all within the tolerance is returned
    unchanged, and one pass over its nodes (fuel above its length) is
    enough for the loop to return. *)
Theorem flat_path_returned_unchanged (flat : Q) (fuel : nat)
    (sp : list cspnode) :
  (0 < fuel)%nat -> (length sp <= fuel)%nat ->
  flat_between flat sp 1 (length sp) ->
  subdivideCubicPath fuel sp flat 1 = Some sp.
Proof.
  intros Hpos Hfuel Hflat.
  apply subdivideCubicPath_flat_unchanged; [lia | lia | done].
Qed.

Lemma map_csp1_alter (g : cspnode -> cspnode) (l : list cspnode) (i : nat) :
  (forall n, csp1 (g n) = csp1 n) ->
  map csp1 (alter g i l) = map csp1 l.
Proof.
  intros Hg. revert i. induction l as [|n l IH]; intros [|i]; simpl; [done..| |].
  - by rewrite Hg.
  - f_equal. apply IH.
Qed.

Lemma insert_keeps_ends {A : Type} (ks : list A) (i : nat) (x : A) :
  (1 <= i < length ks)%nat ->
  ks `sublist_of` (take i ks ++ x :: drop i ks)%list
  /\ head (take i ks ++ x :: drop i ks)%list = head ks
  /\ last (take i ks ++ x :: drop i ks)%list = last ks.
Proof.
  intros Hi. split; [|split].
  - rewrite <- (take_drop i ks) at 1.
    apply sublist_app; [done|]. by apply sublist_cons.
  - destruct ks as [|k ks]; [simpl in Hi; lia|]. destruct i; [lia|]. done.
  - destruct (drop i ks) as [|y l2] eqn:E.
    { apply (f_equal length) in E. rewrite length_drop in E. simpl in E. lia. }
    rewrite last_app_cons, last_cons_cons.
    rewrite <- (take_drop i ks) at 1. by rewrite E, last_app_cons.
Qed.

Lemma subdivideCubicPath_knots (flat : Q) (fuel : nat) :
  forall (sp : list cspnode) (i : nat) (sp' : list cspnode),
    (1 <= i)%nat ->
    subdivideCubicPath fuel sp flat i = Some sp' ->
    map csp1 sp `sublist_of` map csp1 sp'
    /\ head (map csp1 sp') = head (map csp1 sp)
    /\ last (map csp1 sp') = last (map csp1 sp).
Proof.
  induction fuel as [|fuel IH]; intros sp i sp' Hi; simpl; [done|].
  destruct (Nat.leb_spec (length sp) i) as [Hlen|Hlen].
  { by intros [= <-]. }
  destruct i as [|i']; [lia|]. simpl.
  destruct (sp !! i') as [a|]; [|done].
  destruct (sp !! S i') as [c|]; [|done].
  destruct (Qltb flat _).
  - destruct (beziersplitatt _ _) as [one two]. intros Hrun.
    apply IH in Hrun as (Hsub & Hhead & Hlast); [|done].
    unfold slice_assign in *.
    replace (Nat.max (S i') 1) with (S i') in * by lia.
    rewrite !map_app, <- firstn_map, <- skipn_map in *. simpl map in *.
    rewrite !map_csp1_alter in * by done.
    destruct (insert_keeps_ends (map csp1 sp) (S i') (bz3 one))
      as (Hs & Hh & Hl); [rewrite length_map; lia|].
    split; [by etrans|].
    split; [exact (eq_trans Hhead Hh) | exact (eq_trans Hlast Hl)].
  - apply IH. lia.
Qed.

(** X8: flattening only adds vertices: the vertices of the path handed to
    [subdivideCubicPath] are vertices of the result, in the same order, and
    the first and the last vertex stay the first and the last. *)
Theorem subdivideCubicPath_keeps_vertices (flat : Q) (fuel : nat)
    (sp sp' : list cspnode) :
  subdivideCubicPath fuel sp flat 1 = Some sp' ->
  map csp1 sp `sublist_of` map csp1 sp'
  /\ head (map csp1 sp') = head (map csp1 sp)
  /\ last (map csp1 sp') = last (map csp1 sp).
Proof. by apply subdivideCubicPath_knots. Qed.

End FlatteningMore.

Lemma flat_path_returned_unchanged_witness :
  @subdivideCubicPath example_lib 3 (polyline [(0, 0); (4, 0); (4, 3)]) 1 1
  = Some (polyline [(0, 0); (4, 0); (4, 3)]).
Proof.
  apply (@flat_path_returned_unchanged example_lib 1 3
           (polyline [(0, 0); (4, 0); (4, 3)])).
  - lia.
  - simpl. lia.
  - intros j b Hj Hseg. simpl in Hj.
    assert (j = 1 \/ j = 2)%nat as [-> | ->] by lia;
      injection Hseg as <-; discriminate.
Defined.

Lemma subdivideCubicPath_keeps_vertices_witness :
  exists sp', @subdivideCubicPath example_lib 20 arch 1 1 = Some sp'
    /\ map csp1 arch `sublist_of` map csp1 sp'
    /\ head (map csp1 sp') = head (map csp1 arch)
    /\ last (map csp1 sp') = last (map csp1 arch).
Proof.
  destruct (@subdivideCubicPath example_lib 20 arch 1 1) as [sp'|] eqn:Hrun;
    [|vm_compute in Hrun; discriminate].
  exists sp'. split; [done|].
  exact (@subdivideCubicPath_keeps_vertices example_lib 1 20 arch sp' Hrun).
Defined.

(** * Further properties of the traversal *)

Lemma fold_track_bbox_attained (pts : list point) (b : bbox) (seen : list point) :
  (exists q, In q seen /\ bxmin b = q.1) -> (exists q, In q seen /\ bxmax b = q.1) ->
  (exists q, In q seen /\ bymin b = q.2) -> (exists q, In q seen /\ bymax b = q.2) ->
  let b' := fold_left track_bbox pts b in
  (exists q, In q (seen ++ pts)%list /\ bxmin b' = q.1)
  /\ (exists q, In q (seen ++ pts)%list /\ bxmax b' = q.1)
  /\ (exists q, In q (seen ++ pts)%list /\ bymin b' = q.2)
  /\ (exists q, In q (seen ++ pts)%list /\ bymax b' = q.2).
Proof.
  revert b seen. induction pts as [|pt pts IH]; intros b seen H1 H2 H3 H4; simpl.
  - by rewrite app_nil_r.
  - replace (seen ++ pt :: pts)%list with ((seen ++ [pt]) ++ pts)%list
      by (by rewrite <- app_assoc).
    assert (forall (g : point -> Q) (v : Q),
              (exists q, In q seen /\ v = g q) ->
              exists q, In q (seen ++ [pt])%list /\ v = g q) as Hold.
    { intros g v (q & Hq & ->). exists q. split; [|done].
      apply in_or_app. by left. }
    assert (forall g : point -> Q,
              exists q, In q (seen ++ [pt])%list /\ g pt = g q) as Hnew.
    { intros g. exists pt. split; [|done]. apply in_or_app. right. by left. }
    apply IH; unfold track_bbox;
      destruct (Qltb pt.1 (bxmin b)), (Qltb (bxmax b) pt.1),
               (Qltb pt.2 (bymin b)), (Qltb (bymax b) pt.2); simpl;
      first [ by apply (Hold fst) | by apply (Hold snd)
            | apply (Hnew fst) | apply (Hnew snd) ].
Qed.

(** X9: the bounding box cached with a subpath is its exact bounding box:
    it contains every vertex of the subpath and each of its four bounds is
    the coordinate of one of the vertices. *)
Theorem subpath_bbox_exact (sp : list cspnode) (s : subpath) :
  subpath_vertices sp = Some s ->
  (forall p, In p s.1 -> bbox_covers s.2 p)
  /\ (exists q, In q s.1 /\ bxmin s.2 = q.1)
  /\ (exists q, In q s.1 /\ bxmax s.2 = q.1)
  /\ (exists q, In q s.1 /\ bymin s.2 = q.2)
  /\ (exists q, In q s.1 /\ bymax s.2 = q.2).
Proof.
  intros Hs. split.
  - intros p Hp. apply (subpath_vertices_covers sp); [done|].
    by apply list_elem_of_In.
  - destruct sp as [|n0 rest]; [done|]. injection Hs as <-. simpl.
    apply (fold_track_bbox_attained (map csp1 rest) _ [csp1 n0]);
      exists (csp1 n0); (split; [by left | done]).
Qed.

Lemma subpath_bbox_exact_witness :
  exists s, subpath_vertices (polyline [(1, 5); (4, 2); (3, 9)]) = Some s
    /\ s.2 = BBox 1 4 2 9
    /\ forall p, In p s.1 -> bbox_covers s.2 p.
Proof.
  eexists. split; [reflexivity|]. split; [reflexivity|].
  apply (subpath_bbox_exact (polyline [(1, 5); (4, 2); (3, 9)])). reflexivity.
Defined.

Section TraversalMore.
Context `{BezierLib}.
Variable opts : options.
Variable fuel : nat.

Lemma getPathVertices_loop_stored p st acc st' subpath_list :
  Forall stored_subpath acc ->
  getPathVertices_loop opts fuel p st acc = Some (st', subpath_list) ->
  Forall stored_subpath subpath_list
  /\ length subpath_list = (length acc + length p)%nat.
Proof.
  revert st acc. induction p as [|sp p IH]; intros st acc Hacc; simpl.
  - intros [= <- <-]. split; [done | lia].
  - destruct (subdivideCubicPath fuel sp (smoothness opts) 1) as [sp'|];
      simpl; [|done].
    destruct (subpath_vertices sp') as [sub|] eqn:Hsub; simpl; [|done].
    intros Hrest. apply IH in Hrest as [Hst Hlen].
    + split; [done|]. rewrite Hlen, length_app. simpl. lia.
    + apply Forall_app. split; [done|]. apply Forall_singleton. by exists sp'.
Qed.

Lemma getPathVertices_loop_paths p st acc st' subpath_list :
  getPathVertices_loop opts fuel p st acc = Some (st', subpath_list) ->
  paths st' = paths st.
Proof.
  revert st acc. induction p as [|sp p IH]; intros st acc; simpl.
  - by intros [= <- _].
  - destruct (subdivideCubicPath fuel sp (smoothness opts) 1); simpl; [|done].
    destruct (subpath_vertices _); simpl; [|done].
    intros Hrest. by apply IH in Hrest.
Qed.

Lemma getPathVertices_well_stored p key el parents st st' :
  well_stored st -> getPathVertices opts fuel p key el parents st = Some st' ->
  well_stored st'.
Proof.
  intros Hst. unfold getPathVertices. destruct p as [|sp p]; [by intros [= <-]|].
  destruct (getPathVertices_loop opts fuel (sp :: p) st [])
    as [[st1 subpath_list]|] eqn:Hloop; [|done].
  pose proof (getPathVertices_loop_paths _ _ _ _ _ Hloop) as Hpaths.
  apply getPathVertices_loop_stored in Hloop as [Hstored Hlen]; [|done].
  cbn [mbind option_bind].
  destruct subpath_list as [|s0 l]; intros [= <-].
  - intros k entry Hk. apply (Hst k). by rewrite <- Hpaths.
  - intros k entry Hk. unfold set_path in Hk. simpl in Hk.
    destruct (decide (k = key)) as [->|Hne].
    + rewrite lookup_insert_eq in Hk. injection Hk as <-. done.
    + rewrite lookup_insert_ne in Hk by done. apply (Hst k).
      by rewrite <- Hpaths.
Qed.

(** A property of the state kept by every step that changes the state is
    kept by the traversal of any list of nodes. *)
Lemma recursivelyTraverseSvg_invariant (I : state -> Prop) :
  (forall p key el parents st st',
     I st -> getPathVertices opts fuel p key el parents st = Some st' -> I st') ->
  (forall texts st, I st -> I (warn_text texts st)) ->
  (forall st, I st -> I (warn_image st)) ->
  (forall tag st, I st -> I (errormsg (msg_object tag) st)) ->
  forall l pv st st',
    I st -> recursivelyTraverseSvg opts fuel l pv st = Some st' -> I st'.
Proof.
  intros Hpath Htext Himage Hobject.
  induction l as [|n l IH]; intros pv st st' HI; simpl.
  - by intros [= <-].
  - destruct (traverse_node opts fuel n pv st) as [st1|] eqn:Hn; simpl; [|done].
    apply IH. revert Hn. by apply (traverse_node_invariant opts fuel I).
Qed.

(** X10: whatever the document, every element stored by the traversal has
    at least one subpath, and the containment analysis that [convertPath]
    runs on it does not raise. *)
Theorem stored_elements_analysable (doc : list node) (pv : string) (st : state)
    (key : nat) (entry : element * list element * list subpath) :
  recursivelyTraverseSvg opts fuel doc pv state_init = Some st ->
  paths st !! key = Some entry ->
  entry.2 <> [] /\ is_Some (containment entry.2).
Proof.
  intros Hrun Hkey.
  assert (well_stored st) as Hst.
  { revert Hrun. apply (recursivelyTraverseSvg_invariant well_stored).
    - intros. by eapply getPathVertices_well_stored.
    - intros texts st0 H0. by destruct texts.
    - intros st0 H0. unfold warn_image. by destruct (decide _).
    - done.
    - intros k e Hk. unfold state_init in Hk. simpl in Hk.
      by rewrite lookup_empty in Hk. }
  destruct (Hst key entry Hkey) as [Hne Hstored]. split; [done|].
  by apply containment_total.
Qed.

End TraversalMore.

Lemma stored_elements_analysable_witness :
  exists st entry,
    @recursivelyTraverseSvg example_lib opts_example 50 doc_example "visible"
      state_init = Some st
    /\ paths st !! 1%nat = Some entry
    /\ entry.2 <> [] /\ is_Some (containment entry.2).
Proof.
  destruct (@recursivelyTraverseSvg example_lib opts_example 50 doc_example
              "visible" state_init) as [st|] eqn:Hrun;
    [|vm_compute in Hrun; discriminate].
  destruct (paths st !! 1%nat) as [entry|] eqn:Hkey.
  - exists st, entry. split; [done|]. split; [done|].
    exact (@stored_elements_analysable example_lib opts_example 50 doc_example
             "visible" st 1%nat entry Hrun Hkey).
  - exfalso. vm_compute in Hrun. injection Hrun as <-.
    vm_compute in Hkey. discriminate.
Defined.

Section TraversalGrowth.
Context `{BezierLib}.
Variable opts : options.
Variable fuel : nat.

(** X11: whatever the document and however many images it holds, the
    message about bitmap images is shown at most once. *)
Theorem image_warned_at_most_once (doc : list node) (pv : string) (st : state) :
  recursivelyTraverseSvg opts fuel doc pv state_init = Some st ->
  (length (filter (fun m => m = MSG_IMAGE) (messages st)) <= 1)%nat.
Proof. apply image_warning_at_most_once. Qed.

Lemma extends_refl st : extends st st.
Proof.
  unfold extends. repeat split; try done; apply Qle_refl.
Qed.

Lemma extends_messages st0 st m :
  extends st0 st -> extends st0 (errormsg m st).
Proof.
  intros (Hm & Hrest). split; [|done].
  unfold errormsg. simpl. by apply prefix_app_r.
Qed.

Lemma getPathVertices_loop_extends p st0 st acc st' subpath_list :
  extends st0 st ->
  getPathVertices_loop opts fuel p st acc = Some (st', subpath_list) ->
  extends st0 st'.
Proof.
  revert st acc. induction p as [|sp p IH]; intros st acc Hext; simpl.
  - by intros [= <- _].
  - destruct (subdivideCubicPath fuel sp (smoothness opts) 1); simpl; [|done].
    destruct (subpath_vertices _) as [sub|]; simpl; [|done].
    apply IH. destruct Hext as (? & ? & ? & ? & ? & ? & ?).
    unfold extends, track_drawing. simpl.
    destruct (Qltb (bxmin sub.2) (xmin st)) eqn:E1,
             (Qltb (xmax st) (bxmax sub.2)) eqn:E2,
             (Qltb (bymin sub.2) (ymin st)) eqn:E3,
             (Qltb (ymax st) (bymax sub.2)) eqn:E4;
      rewrite ?Qltb_lt, ?Qltb_ge in *; repeat split; try done; lra.
Qed.

(** X12: the traversal only adds to the state: messages are appended,
    warnings and stored nodes are added and never removed, and the
    drawing-wide bounding box only grows. *)
Theorem traversal_only_extends (l : list node) (pv : string) (st0 st : state) :
  recursivelyTraverseSvg opts fuel l pv st0 = Some st -> extends st0 st.
Proof.
  apply (recursivelyTraverseSvg_invariant opts fuel (extends st0)).
  - intros p key el parents st1 st2 Hext. unfold getPathVertices.
    destruct p as [|sp p]; [by intros [= <-]|].
    destruct (getPathVertices_loop opts fuel (sp :: p) st1 [])
      as [[st3 subs]|] eqn:Hloop; [|done].
    apply (getPathVertices_loop_extends _ st0) in Hloop; [|done].
    cbn [mbind option_bind]. destruct subs; intros [= <-]; [done|].
    destruct Hloop as (Hm & Hw & Hdom & Hb). unfold extends, set_path. simpl.
    split; [done|]. split; [done|]. split; [|done].
    rewrite dom_insert. clear -Hdom. set_solver.
  - intros texts st1 Hext. unfold warn_text. destruct texts; [done|].
    by do 2 apply extends_messages.
  - intros st1 Hext. unfold warn_image. destruct (decide _); [done|].
    destruct (extends_messages st0 st1 MSG_IMAGE Hext)
      as (Hm & Hw & Hrest).
    unfold extends. simpl. split; [done|].
    split; [clear -Hw; set_solver|done].
  - intros tag st1. apply extends_messages.
  - apply extends_refl.
Qed.

(** X13: an element of one of the ignored kinds (definitions, metadata,
    gradients, ...) or a node whose tag is not a string leaves the state as
    it is, whatever it contains. *)
Theorem ignored_elements_unchanged (n : node) (pv : string) (st : state) :
  (el_tag (n_el n) = None
   \/ exists t, el_tag (n_el n) = Some t /\ In t ignored_tags) ->
  traverse_node opts fuel n pv st = Some st.
Proof.
  destruct n as [key el parents children geom use texts]. simpl.
  destruct (visible_as el pv) as [v|]; [|done].
  unfold svg_tag.
  intros [->|(t & -> & Ht)]; [done|].
  unfold ignored_tags in Ht. simpl in Ht.
  repeat (destruct Ht as [<-|Ht]; [reflexivity|]). done.
Qed.

(** X14: an element whose tag is the bare name [path], without the SVG
    namespace, is not drawn: unlike [rect], [line] or [circle], only the
    namespaced tag is recognised, and the element is reported as an object
    that cannot be drawn. *)
Theorem bare_path_tag_not_drawn (n : node) (pv v : string) (st : state) :
  el_tag (n_el n) = Some "path" ->
  visible_as (n_el n) pv = Some v ->
  traverse_node opts fuel n pv st = Some (errormsg (msg_object "path") st).
Proof.
  destruct n as [key el parents children geom use texts]. simpl.
  intros Htag ->. unfold svg_tag. by rewrite Htag.
Qed.

(** X15: a visible [<use>] that resolves to at least one node and has a
    non-zero [x] or [y] aborts the traversal: the translation is composed
    with [composeTransform], a name the module does not define. *)
Theorem use_with_offset_aborts (n : node) (pv v : string) (st : state)
    (r : node) (refnode : list node) :
  svg_tag (n_el n) "use" = true ->
  visible_as (n_el n) pv = Some v ->
  n_use n = Some (true, r :: refnode) ->
  traverse_node opts fuel n pv st = None.
Proof.
  destruct n as [key el parents children geom use texts]. simpl.
  intros Htag -> ->. rewrite Htag.
  destruct (svg_tag el "g") eqn:Hg; [|done].
  unfold svg_tag, tag_is in *. destruct (el_tag el) as [t|]; [|done].
  simpl in *. rewrite !orb_false_r in *.
  apply orb_true_iff in Htag as [Ht|Ht], Hg as [Hg'|Hg'];
    apply String.eqb_eq in Ht, Hg'; subst t; discriminate.
Qed.



End TraversalGrowth.

Lemma image_warned_at_most_once_witness :
  exists st,
    @recursivelyTraverseSvg example_lib opts_example 50
      [plain_node 1 "image" []; plain_node 2 "image" []; plain_node 3 "image" []]
      "visible" state_init = Some st
    /\ (length (filter (fun m => m = MSG_IMAGE) (messages st)) <= 1)%nat.
Proof.
  eexists. split; [vm_compute; reflexivity|].
  apply (@image_warned_at_most_once example_lib opts_example 50
           [plain_node 1 "image" []; plain_node 2 "image" [];
            plain_node 3 "image" []] "visible").
  vm_compute. reflexivity.
Defined.

Lemma traversal_only_extends_witness :
  exists st,
    @recursivelyTraverseSvg example_lib opts_example 50 doc_example "visible"
      state_init = Some st
    /\ extends state_init st.
Proof.
  destruct (@recursivelyTraverseSvg example_lib opts_example 50 doc_example
              "visible" state_init) as [st|] eqn:Hrun;
    [|vm_compute in Hrun; discriminate].
  exists st. split; [done|].
  exact (@traversal_only_extends example_lib opts_example 50 doc_example
           "visible" state_init st Hrun).
Defined.

Lemma ignored_elements_unchanged_witness :
  @traverse_node example_lib opts_example 50 defs_node "visible" state_init
  = Some state_init.
Proof.
  apply (@ignored_elements_unchanged example_lib opts_example 50 defs_node
           "visible" state_init).
  right. exists (addNS_svg "defs"). split; [reflexivity|].
  do 4 right. by left.
Defined.

Lemma bare_path_tag_not_drawn_witness :
  @traverse_node example_lib opts_example 50 bare_path_node "visible" state_init
  = Some (errormsg (msg_object "path") state_init).
Proof.
  apply (@bare_path_tag_not_drawn example_lib opts_example 50 bare_path_node
           "visible" "visible" state_init); reflexivity.
Defined.

Lemma use_with_offset_aborts_witness :
  @traverse_node example_lib opts_example 50 use_node "visible" state_init = None.
Proof.
  apply (@use_with_offset_aborts example_lib opts_example 50 use_node
           "visible" "visible" state_init
           (shape_node 6 "tri" "fill:#000" triangle) []); reflexivity.
Defined.


(** * Properties of [getPathStyle] *)

Lemma list_ascii_of_string_app (s1 s2 : string) :
  list_ascii_of_string (s1 ++ s2)
  = (list_ascii_of_string s1 ++ list_ascii_of_string s2)%list.
Proof. induction s1 as [|c s1 IH]; simpl; [done | by rewrite IH]. Qed.

Lemma split_on_without (c : ascii) (s : string) :
  Forall (fun c' => c' <> c) (list_ascii_of_string s) -> split_on c s = [s].
Proof.
  induction s as [|c' s IH]; simpl; [done|]. intros Hs.
  apply Forall_cons in Hs as [Hc Hs].
  destruct (Ascii.eqb_spec c' c) as [->|_]; [done|]. by rewrite IH.
Qed.

Lemma split_on_app (c : ascii) (s1 s2 : string) :
  Forall (fun c' => c' <> c) (list_ascii_of_string s1) ->
  split_on c (s1 ++ String c s2) = s1 :: split_on c s2.
Proof.
  induction s1 as [|c' s1 IH]; simpl.
  - intros _. by rewrite Ascii.eqb_refl.
  - intros Hs. apply Forall_cons in Hs as [Hc Hs].
    destruct (Ascii.eqb_spec c' c) as [->|_]; [done|]. by rewrite IH.
Qed.

Lemma lstrip_plain (l : list ascii) :
  match l with c :: _ => is_space c = false | [] => True end -> lstrip l = l.
Proof. destruct l as [|c l]; simpl; [done|]. by intros ->. Qed.

Lemma strip_no_space (s : string) :
  Forall (fun c => is_space c = false) (list_ascii_of_string s) -> strip s = s.
Proof.
  intros Hs. unfold strip.
  rewrite (lstrip_plain (list_ascii_of_string s)).
  - rewrite lstrip_plain, rev_involutive; [apply string_of_list_ascii_of_string|].
    apply Forall_rev in Hs.
    destruct (rev (list_ascii_of_string s)) as [|c l]; [done|].
    by apply Forall_cons in Hs as [? _].
  - destruct (list_ascii_of_string s) as [|c l]; [done|].
    by apply Forall_cons in Hs as [? _].
Qed.

Lemma plain_item (k v : string) :
  plain k -> plain v ->
  split_on ";" (k ++ ":" ++ v) = [k ++ ":" ++ v]
  /\ String.length (k ++ ":" ++ v) <> 0%nat
  /\ split_on ":" (strip (k ++ ":" ++ v)) = [k; v].
Proof.
  intros Hk Hv. split; [|split].
  - apply split_on_without. rewrite !list_ascii_of_string_app. simpl.
    apply Forall_app. split; [|apply Forall_cons; split; [done|]];
      (eapply Forall_impl; [eassumption|]); by intros c (_ & ? & _).
  - destruct k; simpl; discriminate.
  - rewrite strip_no_space.
    + change (":" ++ v) with (String ":" v). rewrite split_on_app.
      * f_equal. apply split_on_without.
        eapply Forall_impl; [exact Hv|]. by intros c (_ & _ & ?).
      * eapply Forall_impl; [exact Hk|]. by intros c (_ & _ & ?).
    + rewrite !list_ascii_of_string_app. simpl.
      apply Forall_app. split; [|apply Forall_cons; split; [done|]];
        (eapply Forall_impl; [eassumption|]); by intros c (? & _).
Qed.

Lemma split_on_format_style (kvs : list (string * string)) :
  kvs <> [] ->
  Forall (fun kv => plain kv.1 /\ plain kv.2) kvs ->
  split_on ";" (format_style kvs) = map (fun kv => kv.1 ++ ":" ++ kv.2) kvs.
Proof.
  intros Hne Hall. unfold format_style.
  induction kvs as [|[k v] kvs IH]; [done|].
  apply Forall_cons in Hall as [[Hk Hv] Hall].
  destruct kvs as [|kv2 kvs].
  - simpl. by apply plain_item.
  - change (join ";" (map _ ((k, v) :: kv2 :: kvs)))
      with ((k ++ ":" ++ v) ++ String ";" (join ";" (map (fun kv => kv.1 ++ ":" ++ kv.2)
                                                        (kv2 :: kvs)))).
    rewrite split_on_app.
    + rewrite IH by done. done.
    + destruct (plain_item k v Hk Hv) as (Hs & _).
      rewrite !list_ascii_of_string_app. simpl.
      apply Forall_app. split; [|apply Forall_cons; split; [done|]];
        (eapply Forall_impl; [eassumption|]); by intros c (_ & ? & _).
Qed.

Lemma getPathStyle_steps (kvs : list (string * string))
    (m : gmap string string) (prev : option (string * string)) :
  Forall (fun kv => plain kv.1 /\ plain kv.2) kvs ->
  foldM getPathStyle_step (map (fun kv => kv.1 ++ ":" ++ kv.2) kvs) (m, prev)
  = Some (fold_left (fun m kv => <[kv.1 := kv.2]> m) kvs m,
          match last kvs with Some kv => Some kv | None => prev end).
Proof.
  revert m prev. induction kvs as [|[k v] kvs IH]; intros m prev Hall; [done|].
  apply Forall_cons in Hall as [[Hk Hv] Hall].
  destruct (plain_item k v Hk Hv) as (_ & Hlen & Hsplit).
  assert (getPathStyle_step (m, prev) (k ++ ":" ++ v)
          = Some (<[k := v]> m, Some (k, v))) as Hstep.
  { unfold getPathStyle_step. apply Nat.eqb_neq in Hlen.
    by rewrite Hlen, Hsplit. }
  cbn [map foldM fst snd]. rewrite Hstep. cbn [mbind option_bind].
  rewrite IH by done. cbn [fold_left fst snd]. f_equal. f_equal.
  destruct kvs as [|kv2 kvs]; [done|]. rewrite last_cons_cons.
  destruct (last (kv2 :: kvs)) eqn:Hl; [done|].
  by apply last_None in Hl.
Qed.

(** X17: writing properties as [k1:v1;k2:v2;...] and reading them back with
    [getPathStyle] gives the dictionary of these properties, a later one
    replacing an earlier one of the same name, for names and values without
    white space, [;] or [:]. *)
Theorem style_round_trip (kvs : list (string * string)) :
  Forall (fun kv => plain kv.1 /\ plain kv.2) kvs ->
  getPathStyle (styled (format_style kvs)) = Some (style_dict kvs).
Proof.
  intros Hall. unfold getPathStyle. cbn [styled el_style default].
  unfold id. destruct kvs as [|kv kvs]; [done|].
  rewrite split_on_format_style, getPathStyle_steps by done. done.
Qed.

Lemma style_round_trip_witness :
  getPathStyle (styled "fill:none;stroke:#000;stroke-width:2;fill:red")
  = Some (style_dict [("fill", "none"); ("stroke", "#000");
                      ("stroke-width", "2"); ("fill", "red")]).
Proof.
  apply (style_round_trip [("fill", "none"); ("stroke", "#000");
                           ("stroke-width", "2"); ("fill", "red")]).
  repeat constructor; simpl; done.
Defined.

Lemma strip_keeps (P : ascii -> Prop) (s : string) :
  Forall P (list_ascii_of_string s) -> Forall P (list_ascii_of_string (strip s)).
Proof.
  assert (forall l, Forall P l -> Forall P (lstrip l)) as Hl.
  { induction l as [|c l IH]; simpl; [done|]. intros Hc.
    destruct (is_space c); [|done]. apply IH. by apply Forall_cons in Hc as [_ ?]. }
  intros Hs. unfold strip. rewrite list_ascii_of_string_of_list_ascii.
  by apply Forall_rev, Hl, Forall_rev, Hl.
Qed.

(** X18: a non-empty style attribute that is a single item without a colon
    makes [getPathStyle] fail: the item does not split into a name and a
    value, the exception is swallowed, and the assignment that follows
    refers to a name that was never bound. *)
Theorem style_without_colon_fails (s : string) :
  s <> "" ->
  Forall (fun c => c <> ";"%char /\ c <> ":"%char) (list_ascii_of_string s) ->
  getPathStyle (styled s) = None.
Proof.
  intros Hne Hs. unfold getPathStyle. cbn [styled el_style default].
  unfold id. rewrite split_on_without
    by (eapply Forall_impl; [exact Hs|]; by intros c [? _]).
  cbn [foldM]. unfold getPathStyle_step.
  destruct (String.length s =? 0)%nat eqn:Hlen.
  { apply Nat.eqb_eq in Hlen. by destruct s. }
  rewrite split_on_without; [done|].
  apply strip_keeps. eapply Forall_impl; [exact Hs|]. by intros c [_ ?].
Qed.

Lemma style_without_colon_fails_witness :
  getPathStyle (styled "display none") = None.
Proof.
  apply (style_without_colon_fails "display none"); [done|].
  repeat constructor; done.
Defined.

Lemma split_on_nonempty (c : ascii) (s : string) : split_on c s <> [].
Proof.
  induction s as [|c' s IH]; simpl; [done|].
  destruct (Ascii.eqb c' c); [done|]. by destruct (split_on c s).
Qed.

Lemma split_on_sep (c : ascii) (s1 s2 : string) :
  split_on c (s1 ++ String c s2) = (split_on c s1 ++ split_on c s2)%list.
Proof.
  induction s1 as [|c' s1 IH]; simpl.
  - by rewrite Ascii.eqb_refl.
  - destruct (Ascii.eqb c' c); [by rewrite IH|]. rewrite IH.
    pose proof (split_on_nonempty c s1). by destruct (split_on c s1).
Qed.

Lemma foldM_app {A B : Type} (f : B -> A -> option B) (l1 l2 : list A) (b : B) :
  foldM f (l1 ++ l2)%list b = foldM f l1 b ≫= foldM f l2.
Proof.
  revert b. induction l1 as [|a l1 IH]; intros b; simpl.
  - by destruct (foldM f l2 b).
  - destruct (f b a) as [b'|]; simpl; [apply IH | done].
Qed.

Lemma style_dict_last (kvs : list (string * string)) (m : gmap string string)
    (k v : string) :
  last kvs = Some (k, v) ->
  fold_left (fun m kv => <[kv.1 := kv.2]> m) kvs m !! k = Some v.
Proof.
  intros Hl. apply last_Some in Hl as [kvs' ->].
  rewrite fold_left_app. simpl. apply lookup_insert_eq.
Qed.

(** X19: a malformed item (no colon) that follows well-formed ones is not
    dropped: after the swallowed exception [getPathStyle] assigns the name
    and the value of the item before it once more, so that the dictionary is
    the one of the well-formed items. *)
Theorem style_malformed_item_repeats_previous
    (kvs : list (string * string)) (bad : string) :
  kvs <> [] ->
  Forall (fun kv => plain kv.1 /\ plain kv.2) kvs ->
  bad <> "" ->
  Forall (fun c => c <> ";"%char /\ c <> ":"%char) (list_ascii_of_string bad) ->
  getPathStyle (styled (format_style kvs ++ ";" ++ bad)) = Some (style_dict kvs).
Proof.
  intros Hne Hall Hbad Hchars. unfold getPathStyle.
  cbn [styled el_style default]. unfold id.
  change (";" ++ bad) with (String ";" bad).
  rewrite split_on_sep, split_on_format_style by done.
  rewrite (split_on_without ";" bad)
    by (eapply Forall_impl; [exact Hchars|]; by intros c [? _]).
  rewrite foldM_app, getPathStyle_steps by done.
  destruct (last kvs) as [[k v]|] eqn:Hl; [|by apply last_None in Hl].
  cbn [mbind option_bind foldM]. unfold getPathStyle_step.
  destruct (String.length bad =? 0)%nat eqn:Hlen.
  { apply Nat.eqb_eq in Hlen. by destruct bad. }
  rewrite split_on_without.
  - cbn [mbind option_bind fmap option_fmap option_map fst].
    f_equal. apply insert_id. by apply style_dict_last.
  - apply strip_keeps. eapply Forall_impl; [exact Hchars|]. by intros c [_ ?].
Qed.

Lemma style_malformed_item_repeats_previous_witness :
  getPathStyle (styled "fill:none;stroke:#000;opacity 1")
  = Some (style_dict [("fill", "none"); ("stroke", "#000")]).
Proof.
  apply (style_malformed_item_repeats_previous
           [("fill", "none"); ("stroke", "#000")] "opacity 1"); [done| |done|].
  - repeat constructor; simpl; done.
  - repeat constructor; done.
Defined.

(** * The containment lists of [convertPath] *)

Lemma foldM_seq_invariant {A : Type} (P : nat -> A -> Prop)
    (g : A -> nat -> option A) (n s : nat) (a a' : A) :
  (forall k a a', (s <= k < s + n)%nat -> P k a -> g a k = Some a' -> P (S k) a') ->
  P s a -> foldM g (seq s n) a = Some a' -> P (s + n)%nat a'.
Proof.
  revert s a. induction n as [|n IH]; intros s a Hstep Ha; simpl.
  - intros [= <-]. by rewrite Nat.add_0_r.
  - destruct (g a s) as [a1|] eqn:Hg; simpl; [|done].
    intros Hrun. replace (s + S n)%nat with (S s + n)%nat by lia.
    apply (IH (S s) a1); [| |done].
    + intros k b b' Hk. apply Hstep. lia.
    + apply (Hstep s a a1); [lia|done..].
Qed.

Lemma encloses_lt (path : list subpath) (a b : nat) :
  encloses path a b -> (a < length path)%nat /\ (b < length path)%nat.
Proof.
  intros (_ & Hin & _). unfold inside_of in Hin.
  destruct (path !! b) eqn:Hb; simpl in Hin; [|done].
  destruct (path !! a) eqn:Ha; simpl in Hin; [|done].
  split; by eapply lookup_lt_Some.
Qed.

Lemma NoDup_append_at (l : list (list nat)) (a b : nat) :
  (forall i members, l !! i = Some members -> NoDup members) ->
  ~ listed l a b ->
  forall i members, append_at a b l !! i = Some members -> NoDup members.
Proof.
  intros Hnd Hnl i members. unfold append_at.
  destruct (decide (a = i)) as [<-|Hne].
  - rewrite list_lookup_alter_eq.
    destruct (l !! a) as [m0|] eqn:Hm0; simpl; [|done]. intros [= <-].
    apply NoDup_app. split; [by eapply Hnd|]. split; [|apply NoDup_singleton].
    intros x Hx ->%list_elem_of_singleton. apply Hnl. by exists m0.
  - rewrite list_lookup_alter_ne by done. apply Hnd.
Qed.

Lemma containment_pair_upto (path : list subpath) (i j : nat)
    (acc acc' : list (list nat) * list (list nat)) :
  (i < j)%nat ->
  containment_upto path i j acc ->
  containment_pair path acc i j = Some acc' ->
  containment_upto path i (S j) acc'.
Proof.
  intros Hij (Hm & Hl & Hnd). destruct acc as [cs cb].
  unfold containment_pair.
  destruct (path !! i) as [pi|] eqn:Hpi; simpl; [|done].
  destruct (path !! j) as [pj|] eqn:Hpj; simpl; [|done].
  pose proof (lookup_lt_Some _ _ _ Hpi) as Hi.
  pose proof (lookup_lt_Some _ _ _ Hpj) as Hj.
  assert (length cs = length path) as Hlen by apply Hm.
  simpl in Hlen.
  assert (i < length cs)%nat as Hics by (rewrite Hlen; exact Hi).
  assert (j < length cs)%nat as Hjcs by (rewrite Hlen; exact Hj).
  assert (forall a b, visited i (S j) a b
            <-> visited i j a b \/ (a = i /\ b = j) \/ (a = j /\ b = i)) as Hv.
  { intros a b. unfold visited. lia. }
  assert (~ visited i j i j /\ ~ visited i j j i) as [Hv1 Hv2].
  { unfold visited. lia. }
  assert (inside_of path j i = polyInPoly pj.1 (Some pj.2) pi.1 (Some pi.2))
    as Hji by (unfold inside_of; by rewrite Hpj, Hpi).
  assert (inside_of path i j = polyInPoly pi.1 (Some pi.2) pj.1 (Some pj.2))
    as Hij' by (unfold inside_of; by rewrite Hpi, Hpj).
  simpl in Hl, Hnd.
  destruct (polyInPoly pj.1 (Some pj.2) pi.1 (Some pi.2)) as [[|]|] eqn:H1;
    simpl; [| |done].
  - intros [= <-]. split; [by apply append_at_mirrored|]. simpl. split.
    + intros a b. rewrite listed_append_at, Hl, Hv by done. split.
      * intros [[He Hvis]|[-> ->]]; [tauto|].
        split; [|tauto]. split; [lia|]. split; [done|lia].
      * intros [He [Hvis|[[-> ->]|[-> ->]]]]; [tauto..|].
        exfalso. destruct He as (_ & _ & He). rewrite Hji in He.
        by specialize (He Hij).
    + apply NoDup_append_at; [done|]. rewrite Hl. tauto.
  - destruct (polyInPoly pi.1 (Some pi.2) pj.1 (Some pj.2)) as [[|]|] eqn:H2;
      simpl; [| |done].
    + intros [= <-]. split; [by apply append_at_mirrored|]. simpl. split.
      * intros a b. rewrite listed_append_at, Hl, Hv by done. split.
        -- intros [[He Hvis]|[-> ->]]; [tauto|].
           split; [|tauto]. split; [lia|]. by split.
        -- intros [He [Hvis|[[-> ->]|[-> ->]]]]; [tauto| |tauto].
           exfalso. destruct He as (_ & He & _). congruence.
      * apply NoDup_append_at; [done|]. rewrite Hl. tauto.
    + intros [= <-]. split; [done|]. simpl. split; [|done].
      intros a b. rewrite Hl, Hv. split; [tauto|].
      intros [He [Hvis|[[-> ->]|[-> ->]]]]; [tauto|exfalso..];
        destruct He as (_ & He & _); congruence.
Qed.

Lemma containment_upto_all (path : list subpath)
    (acc : list (list nat) * list (list nat)) :
  containment path = Some acc ->
  containment_upto path (length path) 0 acc.
Proof.
  unfold containment. intros Hrun.
  apply (foldM_seq_invariant (fun i acc => containment_upto path i 0 acc))
    in Hrun; [done| |].
  - intros i acc0 acc1 Hi Hacc0 Hinner.
    assert (forall acc, containment_upto path i 0 acc
              -> containment_upto path i (i + 1) acc) as Hstart.
    { intros [cs cb] (Hm & Hl & Hnd). split; [done|]. split; [|done].
      intros a b. rewrite Hl. unfold visited. split; [intuition lia|].
      intros [He Hv]. split; [done|]. destruct He as [Hne _]. lia. }
    apply (foldM_seq_invariant (fun j acc => containment_upto path i j acc))
      in Hinner.
    + destruct acc1 as [cs cb]. destruct Hinner as (Hm & Hl & Hnd).
      split; [done|]. split; [|done].
      intros a b. rewrite Hl. unfold visited. split.
      * intros [He Hv]. split; [done|]. lia.
      * intros [He Hv]. split; [done|].
        apply encloses_lt in He as He'. destruct He as [Hne _]. lia.
    + intros j acc2 acc3 Hj. apply containment_pair_upto. lia.
    + by apply Hstart.
  - split; [|split].
    + unfold mirrored. simpl. rewrite !length_replicate.
      split; [done|]. split; [done|]. intros i j.
      split; intros (m & Hm & Hin); apply lookup_replicate in Hm as [-> _];
        by apply elem_of_nil in Hin.
    + intros a b. simpl. split.
      * intros (m & Hm & Hin). apply lookup_replicate in Hm as [-> _].
        by apply elem_of_nil in Hin.
      * intros [_ Hv]. unfold visited in Hv. lia.
    + intros a members Hm. simpl in Hm.
      apply lookup_replicate in Hm as [-> _]. constructor.
Qed.

(** X20: when the double loop of [convertPath] ends, subpath [a] is
    recorded as containing subpath [b] exactly when [polyInPoly] finds [b]
    in [a] and, for [b] earlier in the list, does not find [a] in [b];
    [contained_by] records the same pairs from the other side, no subpath
    contains itself, no two subpaths contain each other, and no index is
    listed twice. *)
Theorem containment_records_enclosure (path : list subpath)
    (contains contained_by : list (list nat)) :
  containment path = Some (contains, contained_by) ->
  (forall a b, listed contains a b <-> encloses path a b)
  /\ (forall a b, listed contained_by b a <-> encloses path a b)
  /\ (forall a b, listed contains a b -> a <> b /\ ~ listed contains b a)
  /\ (forall a members, contains !! a = Some members -> NoDup members).
Proof.
  intros Hrun. apply containment_upto_all in Hrun as (Hm & Hl & Hnd).
  simpl in Hl, Hnd.
  assert (forall a b, listed contains a b <-> encloses path a b) as Hiff.
  { intros a b. rewrite Hl. split; [tauto|]. intros He. split; [done|].
    apply encloses_lt in He. unfold visited. lia. }
  split; [done|]. split; [|split; [|done]].
  - intros a b. rewrite <- Hiff. symmetry. apply Hm.
  - intros a b Hab. apply Hiff in Hab as Hab'. split; [apply Hab'|].
    rewrite Hiff. intros Hba.
    destruct Hab' as (Hne & Hin1 & Hlt1), Hba as (_ & Hin2 & Hlt2).
    destruct (decide (a < b)%nat) as [Hlt|Hge].
    + specialize (Hlt2 Hlt). congruence.
    + assert (b < a)%nat as Hlt by lia. specialize (Hlt1 Hlt). congruence.
Qed.

Lemma containment_records_enclosure_witness :
  containment nested_squares
  = Some ([[1; 2]; [2]; []]%nat, [[]; [0]; [0; 1]]%nat)
  /\ (listed [[1; 2]; [2]; []]%nat 0 2 <-> encloses nested_squares 0 2)
  /\ (listed [[]; [0]; [0; 1]]%nat 2 0 <-> encloses nested_squares 0 2).
Proof.
  assert (containment nested_squares
          = Some ([[1; 2]; [2]; []]%nat, [[]; [0]; [0; 1]]%nat)) as Hrun
    by (vm_compute; reflexivity).
  split; [exact Hrun|].
  destruct (containment_records_enclosure nested_squares _ _ Hrun)
    as (Hcs & Hcb & _).
  split; [apply Hcs | apply Hcb].
Defined.

(** * What [convertPath] writes *)

Lemma concat_index_ranges (s : nat) (lens : list nat) :
  concat (index_ranges s lens) = seq s (sum_list lens).
Proof.
  revert s. induction lens as [|n lens IH]; intros s; simpl; [done|].
  by rewrite IH, seq_app.
Qed.

Lemma length_nested_points (path : list subpath) (members : list nat) :
  length (nested_points path members)
  = sum_list (map (fun j => length (vertices_of path j)) members).
Proof.
  unfold nested_points. induction members as [|j members IH]; simpl; [done|].
  by rewrite length_app, IH.
Qed.

Lemma elem_of_concat_imap {A B : Type} (g : nat -> A -> list B) (l : list A)
    (x : B) :
  x ∈ concat (imap g l) <-> exists o a, l !! o = Some a /\ x ∈ g o a.
Proof.
  rewrite list_elem_of_In, in_concat. split.
  - intros (r & Hr & Hx). apply list_elem_of_In, elem_of_lookup_imap in Hr
      as (o & a & -> & Ho).
    exists o, a. by rewrite list_elem_of_In.
  - intros (o & a & Ho & Hx). exists (g o a). split; [|by apply list_elem_of_In].
    apply list_elem_of_In, elem_of_lookup_imap. eauto.
Qed.

Lemma declarations_at (cx cy : Q) (path : list subpath)
    (contains : list (list nat)) (id : string) (k i : nat)
    (sub : subpath) (members : list nat) :
  path !! i = Some sub -> contains !! i = Some members ->
  declarations cx cy path contains id k i
  = ([WCenter id k ((bxmin sub.2 + bxmax sub.2) * (1 # 2) - cx,
                    (bymin sub.2 + bymax sub.2) * (1 # 2) - cy);
      WPoints id k (map (centered cx cy) (sub.1 ++ nested_points path members))]
     ++ (if nonempty members
         then [WPaths id k (index_ranges 0
                 (length sub.1
                  :: map (fun j => length (vertices_of path j)) members))]
         else []))%list.
Proof.
  intros Hs Hm. unfold declarations, subpath in *. by rewrite Hs, Hm.
Qed.

Section EmissionMore.
Context `{Units}.
Variable opts : options.
Variables cx cy : Q.

(** The first loop in closed form. *)
Lemma emit_points_exact path contains contained_by id l :
  forall k w k' w',
    foldM (emit_points cx cy path contains contained_by id) l (k, w)
      = Some (k', w') ->
    w' = (w ++ concat (imap (fun o i =>
                               declarations cx cy path contains id (k + o) i)
                            (filter (fun i => contained_by !! i = Some []) l)))%list.
Proof.
  induction l as [|i l IH]; intros k w k' w'; simpl.
  - intros [= <- <-]. by rewrite app_nil_r.
  - destruct (contained_by !! i) as [cb|] eqn:Hcb; simpl; [|done].
    destruct (contains !! i) as [cs|] eqn:Hcs; simpl; [|done].
    destruct (path !! i) as [[subpath bb]|] eqn:Hsub; simpl; [|done].
    destruct (nonempty cb) eqn:Hne; simpl.
    { intros Hrest. apply IH in Hrest as ->.
      rewrite filter_cons_False; [done|].
      rewrite Hcb. intros [= ->]. done. }
    apply nonempty_false in Hne as ->.
    rewrite filter_cons_True by done. rewrite imap_cons. simpl.
    assert (imap ((fun o i0 => declarations cx cy path contains id (k + o) i0)
                    ∘ S)
                 (filter (fun i0 => contained_by !! i0 = Some []) l)
            = imap (fun o i0 => declarations cx cy path contains id (k + 1 + o) i0)
                   (filter (fun i0 => contained_by !! i0 = Some []) l)) as ->.
    { apply imap_ext. intros o i0 _. simpl. f_equal. lia. }
    unfold declarations at 1. rewrite Hsub, Hcs, Nat.add_0_r. simpl.
    destruct (nonempty cs) eqn:Hcsne; simpl.
    + destruct (foldM (fold_nested cx cy path) cs
                  (map (centered cx cy) subpath, [seq 0 (length subpath)],
                   length subpath)) as [[[pts pp] c]|] eqn:Hnest; simpl; [|done].
      apply fold_nested_spec in Hnest as [-> ->].
      intros Hrest. apply IH in Hrest as ->.
      rewrite <- app_assoc, map_app. done.
    + intros Hrest. apply IH in Hrest as ->.
      apply nonempty_false in Hcsne as ->.
      unfold nested_points. simpl. rewrite app_nil_r, <- app_assoc. done.
Qed.

(** The second loop in closed form. *)
Lemma emit_block_exact contains contained_by id filled l :
  forall k w k' w',
    foldM (emit_block opts contains contained_by id filled) l (k, w)
      = Some (k', w') ->
    w' = (w ++ imap (fun o i => block_for opts contains id filled (k + o) i)
                    (filter (fun i => contained_by !! i = Some []) l))%list.
Proof.
  induction l as [|i l IH]; intros k w k' w'; simpl.
  - intros [= <- <-]. by rewrite app_nil_r.
  - destruct (contained_by !! i) as [cb|] eqn:Hcb; simpl; [|done].
    destruct (contains !! i) as [cs|] eqn:Hcs; simpl; [|done].
    destruct (nonempty cb) eqn:Hne; simpl.
    { intros Hrest. apply IH in Hrest as ->.
      rewrite filter_cons_False; [done|].
      rewrite Hcb. intros [= ->]. done. }
    apply nonempty_false in Hne as ->.
    rewrite filter_cons_True by done. rewrite imap_cons.
    assert (imap ((fun o i0 => block_for opts contains id filled (k + o) i0) ∘ S)
                 (filter (fun i0 => contained_by !! i0 = Some []) l)
            = imap (fun o i0 => block_for opts contains id filled (k + 1 + o) i0)
                   (filter (fun i0 => contained_by !! i0 = Some []) l)) as ->.
    { apply imap_ext. intros o i0 _. simpl. f_equal. lia. }
    intros Hrest. apply IH in Hrest as ->.
    unfold block_for at 2. rewrite Hcs, Nat.add_0_r. simpl.
    by rewrite <- app_assoc.
Qed.

(** [convertPath] in closed form: either nothing is written, or the
    declarations of the top-level subpaths, the module head, one block per
    top-level subpath and the module end, and one call is recorded. *)
Lemma convertPath_exact em el parents path em' :
  convertPath opts cx cy em (el, parents, path) = Some em' ->
  (f em' = f em /\ call_list em' = call_list em
   /\ call_list_neg em' = call_list_neg em)
  \/ exists contains contained_by id filled call,
       containment path = Some (contains, contained_by)
       /\ f em' =
          (f em
           ++ concat (imap (fun o i => declarations cx cy path contains id o i)
                           (top_levels contained_by))
           ++ [WModule id]
           ++ imap (fun o i => block_for opts contains id filled o i)
                   (top_levels contained_by)
           ++ [WEnd])%list
       /\ ((call_list em' = (call_list em ++ [call])%list
            /\ call_list_neg em' = call_list_neg em)
           \/ (call_list em' = call_list em
               /\ call_list_neg em' = (call_list_neg em ++ [call])%list)).
Proof.
  unfold convertPath. destruct path as [|sub0 rest].
  { intros [= <-]. by left. }
  cbv iota. generalize (sub0 :: rest). clear sub0 rest. intros path.
  destruct (containment path) as [[contains contained_by]|] eqn:Hc;
    simpl; [|done].
  pose proof (containment_mirrored _ _ _ Hc) as (_ & Hlen & _).
  simpl in Hlen.
  set (ids := if String.eqb (default "" (el_id el)) "" then _ else _).
  destruct ids as [[id rawid] pathid'].
  destruct (getPathStyle el) as [style|]; simpl; [|done].
  destruct (stroke_width_text (default "1" (style !! "stroke-width")))
    as [sw|]; simpl; [|done].
  destruct (negb (negb (String.eqb (default "#FFF" (style !! "fill")) "none"))
            && String.eqb (default "none" (style !! "stroke")) "none").
  { intros [= <-]. by left. }
  destruct (foldM (emit_points cx cy path contains contained_by id)
              (seq 0 (length path)) (0%nat, f em)) as [[k1 w1]|] eqn:H1;
    simpl; [|done].
  destruct (resolve_extrusion (parsedesc opts) el parents) as [ext|];
    simpl; [|done].
  destruct (foldM (emit_block opts contains contained_by id _)
              (seq 0 (length path)) (0%nat, (w1 ++ [WModule id])%list))
    as [[k2 w2]|] eqn:H2; simpl; [|done].
  intros [= <-]. simpl. right.
  apply emit_points_exact in H1 as ->.
  apply emit_block_exact in H2 as ->.
  do 4 eexists. eexists. split; [done|]. unfold top_levels. rewrite Hlen.
  split; [by rewrite <- !app_assoc|].
  destruct (ex_neg ext); [right|left]; done.
Qed.

(** X21: an index list written by [convertPath] comes with a point list of
    the same name, has one list of indices for the enclosing subpath and one
    for each enclosed one, and these lists, one after the other, count
    through the positions of the point list: every point is addressed
    exactly once and no index is out of range. *)
Theorem index_lists_enumerate_points em el parents path em' id k idx :
  convertPath opts cx cy em (el, parents, path) = Some em' ->
  WPaths id k idx ∈ f em' ->
  WPaths id k idx ∈ f em
  \/ exists pts, WPoints id k pts ∈ f em'
       /\ concat idx = seq 0 (length pts) /\ (2 <= length idx)%nat.
Proof.
  intros Hrun Hev.
  destruct (convertPath_exact _ _ _ _ _ Hrun)
    as [(Hf & _)|(contains & contained_by & id0 & filled & call & _ & Hf & _)].
  { left. by rewrite <- Hf. }
  rewrite Hf in Hev |- *.
  apply elem_of_app in Hev as [Hev|Hev]; [by left|]. right.
  apply elem_of_app in Hev as [Hev|Hev].
  - apply elem_of_concat_imap in Hev as Hev'.
    destruct Hev' as (o & i & Ho & Hin). unfold declarations in Hin.
    destruct (path !! i) as [sub|] eqn:Hsub; [|by apply elem_of_nil in Hin].
    destruct (contains !! i) as [members|] eqn:Hmem;
      [|by apply elem_of_nil in Hin].
    apply elem_of_app in Hin as [Hin|Hin].
    { apply elem_of_cons in Hin as [?|Hin]; [done|].
      apply elem_of_cons in Hin as [?|Hin]; [done|].
      by apply elem_of_nil in Hin. }
    destruct (nonempty members) eqn:Hne; [|by apply elem_of_nil in Hin].
    apply list_elem_of_singleton in Hin. injection Hin as -> -> ->.
    eexists. split; [|split].
    + apply elem_of_app. right. apply elem_of_app. left.
      apply elem_of_concat_imap. exists o, i. split; [done|].
      unfold declarations. rewrite Hsub, Hmem.
      apply elem_of_app. left. apply elem_of_cons. right.
      apply elem_of_cons. by left.
    + change (seq 0 (length sub.1) :: ?r)
        with (index_ranges 0 (length sub.1
                              :: map (fun j => length (vertices_of path j))
                                     members)).
      rewrite concat_index_ranges, length_map, length_app, length_nested_points.
      done.
    + destruct members; [done|]. simpl. lia.
  - exfalso. apply elem_of_cons in Hev as [?|Hev]; [done|].
    apply elem_of_app in Hev as [Hev|Hev].
    + apply elem_of_lookup_imap in Hev as (o & i & Hev & _). done.
    + apply list_elem_of_singleton in Hev. done.
Qed.

(** X22: every extrusion block written by [convertPath] uses names that the
    same call declared before the module head: a point list with the id and
    the ordinal of the block, a center when the block translates by one, and
    index lists when the block is one of the two that follow paths. *)
Theorem blocks_use_declared_names em el parents path em' b id k :
  convertPath opts cx cy em (el, parents, path) = Some em' ->
  WBlock b id k ∈ f em' ->
  WBlock b id k ∈ f em
  \/ exists before after,
       f em' = (before ++ [WModule id] ++ after)%list
       /\ WBlock b id k ∈ after
       /\ (exists pts, WPoints id k pts ∈ before)
       /\ (uses_center b = true -> exists c, WCenter id k c ∈ before)
       /\ (uses_paths b = true -> exists idx, WPaths id k idx ∈ before).
Proof.
  intros Hrun Hev.
  destruct (convertPath_exact _ _ _ _ _ Hrun)
    as [(Hf & _)|(contains & contained_by & id0 & filled & call & Hc & Hf & _)].
  { left. by rewrite <- Hf. }
  rewrite Hf in Hev.
  apply elem_of_app in Hev as [Hev|Hev]; [by left|]. right.
  apply elem_of_app in Hev as [Hev|Hev].
  { exfalso. apply elem_of_concat_imap in Hev as (o & i & _ & Hin).
    unfold declarations in Hin.
    destruct (path !! i); [|by apply elem_of_nil in Hin].
    destruct (contains !! i) as [members|]; [|by apply elem_of_nil in Hin].
    apply elem_of_app in Hin as [Hin|Hin].
    - apply elem_of_cons in Hin as [?|Hin]; [done|].
      apply elem_of_cons in Hin as [?|Hin]; [done|].
      by apply elem_of_nil in Hin.
    - destruct (nonempty members); [|by apply elem_of_nil in Hin].
      by apply list_elem_of_singleton in Hin. }
  apply elem_of_cons in Hev as [?|Hev]; [done|].
  apply elem_of_app in Hev as [Hev|Hev];
    [|by apply list_elem_of_singleton in Hev].
  apply elem_of_lookup_imap in Hev as Hev'.
  destruct Hev' as (o & i & Hblk & Ho).
  unfold block_for in Hblk. injection Hblk as Hb -> ->.
  pose proof (containment_mirrored _ _ _ Hc) as (Hl1 & Hl2 & _).
  simpl in Hl1, Hl2.
  assert (i < length path)%nat as Hi.
  { unfold top_levels in Ho.
    apply list_elem_of_lookup_2, list_elem_of_filter in Ho as [_ Ho].
    apply elem_of_seq in Ho. lia. }
  assert (exists sub, path !! i = Some sub) as [sub Hsub].
  { destruct (path !! i) eqn:E; [eauto|]. apply lookup_ge_None in E. lia. }
  destruct (lookup_lt_is_Some_2 contains i) as [members Hmem]; [lia|].
  assert (forall ev, ev ∈ declarations cx cy path contains id0 o i ->
            ev ∈ (f em ++ concat (imap (fun o i =>
                                          declarations cx cy path contains id0 o i)
                                       (top_levels contained_by)))%list) as Hdecl.
  { intros ev Hin. apply elem_of_app. right.
    apply elem_of_concat_imap. eauto. }
  eexists (f em ++ concat _)%list, _. split; [by rewrite <- app_assoc|].
  split; [|split; [|split]].
  - apply elem_of_app. left. apply elem_of_lookup_imap.
    exists o, i. split; [|done]. unfold block_for. by rewrite Hb.
  - eexists. apply Hdecl. rewrite (declarations_at _ _ _ _ _ _ _ _ _ Hsub Hmem).
    apply elem_of_app. left. apply elem_of_cons. right.
    apply elem_of_cons. by left.
  - intros _. eexists. apply Hdecl. rewrite (declarations_at _ _ _ _ _ _ _ _ _ Hsub Hmem).
    apply elem_of_app. left. apply elem_of_cons. by left.
  - intros Hp. rewrite Hmem in Hb. simpl in Hb.
    assert (nonempty members = true) as Hne.
    { destruct (nonempty members); [done|].
      destruct (filled && negb (force_line opts)); subst b; done. }
    eexists. apply Hdecl. rewrite (declarations_at _ _ _ _ _ _ _ _ _ Hsub Hmem), Hne.
    apply elem_of_app. right. by apply list_elem_of_singleton.
Qed.

End EmissionMore.

Lemma index_lists_enumerate_points_witness :
  exists em',
    @convertPath units_example opts_example 5 5 (Emitter 0 [] [] [] [])
      (svg_element "path" "rings" "fill:#000", [], nested_squares) = Some em'
    /\ WPaths "rings" 0 (index_ranges 0 [5; 5; 5]%nat) ∈ f em'
    /\ exists pts,
         WPoints "rings" 0 pts ∈ f em'
         /\ concat (index_ranges 0 [5; 5; 5]%nat) = seq 0 (length pts)
         /\ (2 <= length (index_ranges 0 [5; 5; 5]%nat))%nat.
Proof.
  destruct (@convertPath units_example opts_example 5 5 (Emitter 0 [] [] [] [])
              (svg_element "path" "rings" "fill:#000", [], nested_squares))
    as [em'|] eqn:Hrun; [|vm_compute in Hrun; discriminate].
  assert (WPaths "rings" 0 (index_ranges 0 [5; 5; 5]%nat) ∈ f em') as Hin.
  { pose proof Hrun as Hval. vm_compute in Hval. injection Hval as <-.
    apply list_elem_of_In. vm_compute. do 2 right. left. reflexivity. }
  exists em'. split; [done|]. split; [done|].
  destruct (@index_lists_enumerate_points units_example opts_example 5 5
              (Emitter 0 [] [] [] []) (svg_element "path" "rings" "fill:#000")
              [] nested_squares em' "rings" 0%nat _ Hrun Hin) as [Hold|Hnew].
  - by apply elem_of_nil in Hold.
  - exact Hnew.
Defined.

Lemma blocks_use_declared_names_witness :
  exists em',
    @convertPath units_example opts_example 5 5 (Emitter 0 [] [] [] [])
      (svg_element "path" "rings" "fill:#000", [], nested_squares) = Some em'
    /\ WBlock linear_extrude_by_paths "rings" 0 ∈ f em'
    /\ exists before after,
         f em' = (before ++ [WModule "rings"] ++ after)%list
         /\ WBlock linear_extrude_by_paths "rings" 0 ∈ after
         /\ (exists pts, WPoints "rings" 0 pts ∈ before)
         /\ (uses_center linear_extrude_by_paths = true ->
             exists c, WCenter "rings" 0 c ∈ before)
         /\ (uses_paths linear_extrude_by_paths = true ->
             exists idx, WPaths "rings" 0 idx ∈ before).
Proof.
  destruct (@convertPath units_example opts_example 5 5 (Emitter 0 [] [] [] [])
              (svg_element "path" "rings" "fill:#000", [], nested_squares))
    as [em'|] eqn:Hrun; [|vm_compute in Hrun; discriminate].
  assert (WBlock linear_extrude_by_paths "rings" 0 ∈ f em') as Hin.
  { pose proof Hrun as Hval. vm_compute in Hval. injection Hval as <-.
    apply list_elem_of_In. vm_compute. do 4 right. left. reflexivity. }
  exists em'. split; [done|]. split; [done|].
  destruct (@blocks_use_declared_names units_example opts_example 5 5
              (Emitter 0 [] [] [] []) (svg_element "path" "rings" "fill:#000")
              [] nested_squares em' _ "rings" 0%nat Hrun Hin) as [Hold|Hnew].
  - by apply elem_of_nil in Hold.
  - exact Hnew.
Defined.

(** * Modules and calls *)

Lemma filter_none {A : Type} (p : A -> bool) (l : list A) :
  (forall x, x ∈ l -> p x = false) -> List.filter p l = [].
Proof.
  induction l as [|x l IH]; intros Hp; simpl; [done|].
  rewrite Hp by apply elem_of_cons, or_introl, eq_refl.
  apply IH. intros y Hy. apply Hp. by right.
Qed.

Lemma declarations_plain (cx cy : Q) (path : list subpath)
    (contains : list (list nat)) (id : string) (tl : list nat) (ev : out) :
  ev ∈ concat (imap (fun o i => declarations cx cy path contains id o i) tl) ->
  is_module ev = false /\ is_end ev = false.
Proof.
  intros (o & i & _ & Hin)%elem_of_concat_imap. unfold declarations in Hin.
  destruct (path !! i); [|by apply elem_of_nil in Hin].
  destruct (contains !! i) as [members|]; [|by apply elem_of_nil in Hin].
  apply elem_of_app in Hin as [Hin|Hin].
  - apply elem_of_cons in Hin as [->|Hin]; [done|].
    apply elem_of_cons in Hin as [->|Hin]; [done|].
    by apply elem_of_nil in Hin.
  - destruct (nonempty members); [|by apply elem_of_nil in Hin].
    by apply list_elem_of_singleton in Hin as ->.
Qed.

Lemma blocks_plain (opts : options) (contains : list (list nat)) (id : string)
    (filled : bool) (tl : list nat) (ev : out) :
  ev ∈ imap (fun o i => block_for opts contains id filled o i) tl ->
  is_module ev = false /\ is_end ev = false.
Proof. by intros (o & i & -> & _)%elem_of_lookup_imap. Qed.

Section EffectMore.
Context `{BezierLib} `{Units}.
Variable opts : options.
Variable fuel : nat.

Lemma convertPath_counts cx cy em el parents path em' :
  convertPath opts cx cy em (el, parents, path) = Some em' ->
  exists d,
    modules (f em') = (modules (f em) + d)%nat
    /\ module_ends (f em') = (module_ends (f em) + d)%nat
    /\ (length (call_list em') + length (call_list_neg em')
        = length (call_list em) + length (call_list_neg em) + d)%nat.
Proof.
  intros Hrun.
  destruct (convertPath_exact _ _ _ _ _ _ _ _ Hrun)
    as [(-> & -> & ->)
       |(contains & contained_by & id & filled & call & _ & -> & Hcalls)].
  { exists 0%nat. lia. }
  exists 1%nat. unfold modules, module_ends.
  rewrite !List.filter_app, !length_app.
  rewrite (filter_none is_module (concat _))
    by (intros ev Hev; by apply declarations_plain in Hev as [? _]).
  rewrite (filter_none is_end (concat _))
    by (intros ev Hev; by apply declarations_plain in Hev as [_ ?]).
  rewrite (filter_none is_module (imap _ _))
    by (intros ev Hev; by apply blocks_plain in Hev as [? _]).
  rewrite (filter_none is_end (imap _ _))
    by (intros ev Hev; by apply blocks_plain in Hev as [_ ?]).
  simpl. split; [lia|]. split; [lia|].
  destruct Hcalls as [[-> ->]|[-> ->]]; rewrite length_app; simpl; lia.
Qed.

(** X23: in the file that [effect] writes, every module head has its module
    end, and the assembly at the end of the file holds as many calls, taking
    the added and the subtracted ones together, as modules were written:
    an element that is skipped gets neither a module nor a call. *)
Theorem modules_match_calls (doc : list node) (msgs : list string)
    (written : list out) :
  effect opts fuel doc = Some (msgs, written) ->
  exists body call_list call_list_neg,
    written = (body ++ [WAssembly call_list call_list_neg])%list
    /\ modules body = (length call_list + length call_list_neg)%nat
    /\ module_ends body = modules body.
Proof.
  unfold effect.
  destruct (recursivelyTraverseSvg opts fuel doc "visible" state_init)
    as [st|]; simpl; [|done].
  destruct (convert_all opts st (Emitter 0 [] [] [WPreamble] (messages st)))
    as [em|] eqn:Hall; simpl; [|done].
  intros [= <- <-]. exists (f em), (call_list em), (call_list_neg em).
  split; [done|]. unfold convert_all in Hall.
  apply (foldM_invariant
           (fun em => modules (f em)
                      = (length (call_list em) + length (call_list_neg em))%nat
                      /\ module_ends (f em) = modules (f em))) in Hall;
    [done| |done].
  intros em0 [key [[el parents] path]] em1 [Hm He] _ Hstep.
  cbn [snd] in Hstep.
  apply convertPath_counts in Hstep as (d & Hd1 & Hd2 & Hd3).
  cbn [f call_list call_list_neg] in Hd1, Hd2, Hd3.
  unfold modules, module_ends in *.
  rewrite !List.filter_app, !length_app in Hd1, Hd2. simpl in Hd1, Hd2. lia.
Qed.

End EffectMore.

Lemma modules_match_calls_witness :
  exists msgs written,
    @effect example_lib units_example opts_example 50 doc_example
      = Some (msgs, written)
    /\ exists body call_list call_list_neg,
         written = (body ++ [WAssembly call_list call_list_neg])%list
         /\ modules body = (length call_list + length call_list_neg)%nat
         /\ module_ends body = modules body.
Proof.
  destruct (@effect example_lib units_example opts_example 50 doc_example)
    as [[msgs written]|] eqn:Hrun; [|vm_compute in Hrun; discriminate].
  exists msgs, written. split; [done|].
  exact (@modules_match_calls example_lib units_example opts_example 50
           doc_example msgs written Hrun).
Defined.

(** * Descriptions without text *)

Lemma merge_descs_no_text (tags : list string) (ext : extrusion)
    (n : element) (tagname : string) :
  tagname ∈ tags ->
  find_child tagname (el_childtext n) = Some None ->
  merge_descs tags ext n = None.
Proof.
  revert ext. induction tags as [|t tags IH]; intros ext Hin Hfind.
  { by apply elem_of_nil in Hin. }
  simpl. apply elem_of_cons in Hin as [<-|Hin].
  { by rewrite Hfind. }
  destruct (find_child t (el_childtext n)) as [[text|]|]; [|done|]; by apply IH.
Qed.

Lemma merge_levels_no_text (ext : extrusion) (nodes : list element)
    (n : element) (tagname : string) :
  n ∈ nodes -> tagname ∈ DESC_TAGS ->
  find_child tagname (el_childtext n) = Some None ->
  merge_levels ext nodes = None.
Proof.
  revert ext. induction nodes as [|m nodes IH]; intros ext Hin Htag Hfind.
  { by apply elem_of_nil in Hin. }
  simpl. apply elem_of_cons in Hin as [<-|Hin].
  - unfold merge_level, merge_own_values.
    by rewrite (merge_descs_no_text _ _ _ _ Htag Hfind).
  - destruct (merge_level ext m) as [e|]; simpl; [|done]. by apply IH.
Qed.

(** X24: when the element or one of the groups around it has a description
    child without text, the walk of [object_merge_extrusion_values] fails
    ([findall] is applied to [None]), whatever the identifiers and the other
    descriptions say. *)
Theorem description_without_text_aborts (ext : extrusion) (node : element)
    (parents : list element) (n : element) (tagname : string) :
  n ∈ (group_chain parents ++ [node])%list ->
  tagname ∈ DESC_TAGS ->
  find_child tagname (el_childtext n) = Some None ->
  object_merge_extrusion_values ext node parents = None.
Proof.
  intros Hin Htag Hfind. rewrite object_merge_as_levels.
  by eapply merge_levels_no_text.
Qed.

Lemma description_without_text_aborts_witness :
  object_merge_extrusion_values extrusion_default
    (Element (Some (addNS_svg "path")) (Some "p_5mm") None None [])
    [Element (Some (addNS_svg "g")) (Some "layer") None None
       [(addNS_svg "desc", None)]]
  = None.
Proof.
  apply (description_without_text_aborts extrusion_default _ _
           (Element (Some (addNS_svg "g")) (Some "layer") None None
              [(addNS_svg "desc", None)])
           (addNS_svg "desc")).
  - vm_compute. left.
  - unfold DESC_TAGS. right. left.
  - reflexivity.
Defined.

(** * Lengths with units *)

Lemma py_last_chars_app (n : nat) (body u : string) :
  String.length u = n ->
  py_last_chars n (body ++ u) = u /\ py_but_last_chars n (body ++ u) = body.
Proof.
  intros <-. unfold py_last_chars, py_but_last_chars.
  rewrite list_ascii_of_string_app, length_app.
  assert (String.length u = length (list_ascii_of_string u)) as ->.
  { induction u as [|c u IH]; simpl; [done | by rewrite IH]. }
  replace (length (list_ascii_of_string body) + length (list_ascii_of_string u)
           - length (list_ascii_of_string u))%nat
    with (length (list_ascii_of_string body)) by lia.
  rewrite drop_app_length, take_app_length.
  by rewrite !string_of_list_ascii_of_string.
Qed.

Lemma py_last_chars_percent (body : string) :
  existsb (String.eqb (py_last_chars 2 (body ++ "%"))) TWO_LETTER_UNITS = false.
Proof.
  assert (exists c, py_last_chars 2 (body ++ "%") = String c "%"
                    \/ py_last_chars 2 (body ++ "%") = "%") as [c Hc].
  { unfold py_last_chars. rewrite list_ascii_of_string_app, length_app. simpl.
    destruct (list_ascii_of_string body) as [|c0 l] eqn:Hl using rev_ind.
    - exists "%"%char. by right.
    - exists c0. left. rewrite length_app. simpl. rewrite <- app_assoc. simpl.
      replace (length l + 1 + 1 - 2)%nat with (length l) by lia.
      by rewrite drop_app_length. }
  destruct Hc as [-> | ->]; [|done].
  unfold TWO_LETTER_UNITS. simpl.
  repeat match goal with
         | |- context [Ascii.eqb c ?x] => destruct (Ascii.eqb c x)
         end; done.
Qed.

Section Lengths.
Context `{FloatLib}.

Lemma LengthWithUnit_percent (dpi : Q) (px_used : bool)
    (strn default_unit body : string) :
  strip strn = body ++ "%" ->
  LengthWithUnit dpi px_used strn default_unit = (None, px_used).
Proof.
  intros Hs. unfold LengthWithUnit, parseLengthWithUnits. rewrite Hs.
  rewrite py_last_chars_percent.
  destruct (py_last_chars_app 1 body "%" eq_refl) as [-> ->]. simpl.
  by destruct (float_of_string body).
Qed.

(** X25: a length that ends in a percent sign is never converted:
    [LengthWithUnit] returns [None] and leaves [px_used] alone, whatever
    stands before the sign, whatever the default unit and whatever the
    resolution. *)
Theorem percent_length_not_converted (dpi : Q) (px_used : bool)
    (strn default_unit body : string) :
  strip strn = body ++ "%" ->
  LengthWithUnit dpi px_used strn default_unit = (None, px_used)
  /\ parseLengthWithUnits strn default_unit
     = (v ← float_of_string body; Some (v, "%")).
Proof.
  intros Hs. split; [by eapply LengthWithUnit_percent|].
  unfold parseLengthWithUnits. rewrite Hs, py_last_chars_percent.
  by destruct (py_last_chars_app 1 body "%" eq_refl) as [-> ->].
Qed.

(** X26: a two-letter unit at the end of a length is taken as the unit and
    the text before it as the number, before the one-letter units are
    looked at: [5mm] is five millimetres, not [5m] metres, and the default
    unit plays no part. *)
Theorem two_letter_unit_first (strn default_unit body u : string) :
  In u TWO_LETTER_UNITS ->
  strip strn = body ++ u ->
  parseLengthWithUnits strn default_unit
  = (v ← float_of_string body; Some (v, u)).
Proof.
  intros Hu Hs. unfold parseLengthWithUnits. rewrite Hs.
  assert (String.length u = 2%nat) as Hlen.
  { unfold TWO_LETTER_UNITS in Hu. simpl in Hu.
    destruct Hu as [<-|[<-|[<-|[<-|[<-|[<-|[<-|[]]]]]]]]; done. }
  destruct (py_last_chars_app 2 body u Hlen) as [-> ->].
  assert (existsb (String.eqb u) TWO_LETTER_UNITS = true) as ->; [|done].
  apply existsb_exists. exists u. split; [done|]. apply String.eqb_refl.
Qed.

(** X27: a stroke width given in percent aborts [convertPath] for an
    element that has subpaths: [LengthWithUnit] returns [None] and the
    conversion to millimetres multiplies it. *)
Theorem percent_stroke_width_aborts (str : Q -> string) (dpi : Q)
    (opts : options) (cx cy : Q) (em : emitter) (el : element)
    (parents : list element) (path : list subpath)
    (style : gmap string string) (w body : string) :
  path <> [] ->
  getPathStyle el = Some style ->
  style !! "stroke-width" = Some w ->
  strip w = body ++ "%" ->
  @convertPath (units_of str dpi) opts cx cy em (el, parents, path) = None.
Proof.
  intros Hne Hstyle Hw Hs. unfold convertPath.
  destruct path as [|sub0 rest]; [done|].
  destruct (containment (sub0 :: rest)) as [[contains contained_by]|];
    simpl; [|done].
  destruct (if String.eqb (default "" (el_id el)) "" then _ else _)
    as [[id rawid] pathid'].
  rewrite Hstyle. simpl. rewrite Hw. simpl.
  unfold stroke_width_mm.
  by rewrite (LengthWithUnit_percent dpi false w "mm" body Hs).
Qed.

End Lengths.

Lemma percent_length_not_converted_witness :
  @LengthWithUnit float_example 90 false " 50% " "px" = (None, false)
  /\ @parseLengthWithUnits float_example " 50% " "px" = Some (50, "%").
Proof.
  apply (@percent_length_not_converted float_example 90 false " 50% " "px" "50").
  reflexivity.
Defined.

Lemma two_letter_unit_first_witness :
  @parseLengthWithUnits float_example "2.5mm" "px" = Some (5 # 2, "mm").
Proof.
  apply (@two_letter_unit_first float_example "2.5mm" "px" "2.5" "mm").
  - unfold TWO_LETTER_UNITS. simpl. tauto.
  - reflexivity.
Defined.

Lemma percent_stroke_width_aborts_witness :
  @convertPath (@units_of float_example (fun _ => "1") 90) opts_example 5 5
    (Emitter 0 [] [] [] [])
    (svg_element "path" "rings" "fill:none;stroke:#000;stroke-width:50%", [],
     nested_squares)
  = None.
Proof.
  apply (@percent_stroke_width_aborts float_example (fun _ => "1") 90
           opts_example 5 5 (Emitter 0 [] [] [] [])
           (svg_element "path" "rings" "fill:none;stroke:#000;stroke-width:50%")
           [] nested_squares
           (style_dict [("fill", "none"); ("stroke", "#000");
                        ("stroke-width", "50%")])
           "50%" "50").
  - done.
  - vm_compute. reflexivity.
  - vm_compute. reflexivity.
  - reflexivity.
Defined.

(** * What the patterns capture *)

Lemma string_app_cons (c : ascii) (s t : string) :
  String c s ++ t = String c (s ++ t).
Proof. reflexivity. Qed.

Lemma string_app_assoc (s1 s2 s3 : string) :
  (s1 ++ s2) ++ s3 = s1 ++ s2 ++ s3.
Proof.
  induction s1 as [|c s1 IH]; [done|]. by rewrite !string_app_cons, IH.
Qed.

Lemma string_app_nil_r (s : string) : s ++ "" = s.
Proof. induction s as [|c s IH]; [done|]. by rewrite string_app_cons, IH. Qed.

Lemma string_length_app (s t : string) :
  String.length (s ++ t) = (String.length s + String.length t)%nat.
Proof.
  induction s as [|c s IH]; [done|]. rewrite string_app_cons. simpl.
  by rewrite IH.
Qed.

Lemma string_take_app (s t : string) :
  string_take (String.length (s ++ t) - String.length t) (s ++ t) = s.
Proof.
  rewrite string_length_app.
  replace (String.length s + String.length t - String.length t)%nat
    with (String.length s) by lia.
  induction s as [|c s IH]; [by destruct t|].
  rewrite string_app_cons. simpl. by rewrite IH.
Qed.

Lemma rmatch_star_spans {A : Type} (ml : bool) (cls : ascii -> bool)
    (g : option string) (k : mstate -> option A) (x : A) (rest : string) :
  forall prev,
    rmatch ml (RStar cls) (MState prev rest g) k = Some x ->
    exists st', spans (RStar cls) (MState prev rest g) st' /\ k st' = Some x.
Proof.
  induction rest as [|c rest IH]; intros prev; simpl.
  - intros Hk. exists (MState prev "" g). split; [by exists ""|done].
  - destruct (cls c) eqn:Hc.
    + specialize (IH (Some c)). simpl in IH.
      match type of IH with
      | ?F = Some x -> _ => destruct F as [y|] eqn:Hstar
      end.
      * intros [= ->]. destruct (IH eq_refl) as (st' & (s & Hs & Hr & Hg) & Hk).
        exists st'. split; [|done]. exists (String c s).
        simpl in Hr, Hg |- *. rewrite Hr. by rewrite string_app_cons.
      * intros Hk. exists (MState prev (String c rest) g).
        split; [by exists ""|done].
    + intros Hk. exists (MState prev (String c rest) g).
      split; [by exists ""|done].
Qed.

Lemma rmatch_lazy_spans {A : Type} (ml : bool) (cls : ascii -> bool)
    (g : option string) (k : mstate -> option A) (x : A) (rest : string) :
  forall prev,
    rmatch ml (RStarLazy cls) (MState prev rest g) k = Some x ->
    exists st', spans (RStarLazy cls) (MState prev rest g) st' /\ k st' = Some x.
Proof.
  induction rest as [|c rest IH]; intros prev; simpl.
  - destruct (k (MState prev "" g)) as [y|] eqn:Hk; [|done].
    intros [= ->]. exists (MState prev "" g). split; [by exists ""|done].
  - destruct (k (MState prev (String c rest) g)) as [y|] eqn:Hk.
    + intros [= ->]. exists (MState prev (String c rest) g).
      split; [by exists ""|done].
    + destruct (cls c) eqn:Hc; [|done].
      intros Hstar. destruct (IH (Some c) Hstar)
        as (st' & (s & Hs & Hr & Hg) & Hk').
      exists st'. split; [|done]. exists (String c s).
      simpl in Hr, Hg |- *. rewrite Hr. by rewrite string_app_cons.
Qed.

(** The matcher only reports matches of the pattern. *)
Lemma rmatch_spans {A : Type} (ml : bool) (r : regex) :
  forall (st : mstate) (k : mstate -> option A) (x : A),
    rmatch ml r st k = Some x ->
    exists st', spans r st st' /\ k st' = Some x.
Proof.
  induction r as [c|cls|r1 IH1 r2 IH2|r1 IH1 r2 IH2|r1 IH1|cls|cls|cls|r1 IH1| |];
    intros st k x.
  - simpl. destruct (ms_rest st) as [|c' s'] eqn:Hrest; [done|].
    destruct (Ascii.eqb_spec c' c) as [->|]; [|done].
    intros Hk. eexists. split; [|exact Hk]. done.
  - simpl. destruct (ms_rest st) as [|c' s'] eqn:Hrest; [done|].
    destruct (cls c') eqn:Hc; [|done].
    intros Hk. eexists. split; [|exact Hk]. by exists c'.
  - simpl. intros Hm. apply IH1 in Hm as (mid & H1 & Hm).
    apply IH2 in Hm as (st' & H2 & Hk). exists st'. split; [by exists mid|done].
  - simpl. destruct (rmatch ml r1 st k) as [y|] eqn:H1.
    + intros [= ->]. apply IH1 in H1 as (st' & ? & ?). exists st'.
      split; [by left|done].
    + intros H2. apply IH2 in H2 as (st' & ? & ?). exists st'.
      split; [by right|done].
  - simpl. destruct (rmatch ml r1 st k) as [y|] eqn:H1.
    + intros [= ->]. apply IH1 in H1 as (st' & ? & ?). exists st'.
      split; [by left|done].
    + intros Hk. exists st. split; [by right|done].
  - destruct st as [prev rest g]. apply rmatch_star_spans.
  - destruct st as [prev rest g]. apply rmatch_lazy_spans.
  - destruct st as [prev rest g]. destruct rest as [|c0 s0]; [done|].
    cbn [rmatch ms_rest ms_group]. destruct (cls c0) eqn:Hc; [|done].
    intros Hstar.
    destruct (rmatch_star_spans ml cls g k x s0 (Some c0) Hstar)
      as (st' & (s & Hs & Hr & Hg) & Hk).
    exists st'. split; [|done]. exists c0, s. simpl in *. by rewrite Hr.
  - simpl. intros Hm. apply IH1 in Hm as (st1 & H1 & Hk).
    eexists. split; [|exact Hk]. exists st1. done.
  - simpl. destruct (at_bol ml st); [|done]. intros Hk. by exists st.
  - simpl. destruct (at_eol ml st); [|done]. intros Hk. by exists st.
Qed.

Lemma spans_lang (r : regex) :
  forall st st', spans r st st' ->
    exists s, ms_rest st = s ++ ms_rest st' /\ lang r s.
Proof.
  induction r as [c|cls|r1 IH1 r2 IH2|r1 IH1 r2 IH2|r1 IH1|cls|cls|cls|r1 IH1| |];
    intros st st'; simpl.
  - intros [Hr _]. exists (String c ""). by rewrite Hr.
  - intros (c & Hc & Hr & _). exists (String c ""). rewrite Hr. eauto.
  - intros (mid & H1 & H2).
    apply IH1 in H1 as (s1 & Hr1 & Hl1). apply IH2 in H2 as (s2 & Hr2 & Hl2).
    exists (s1 ++ s2). rewrite Hr1, Hr2, string_app_assoc. eauto 6.
  - intros [H1|H2]; [apply IH1 in H1 as (s & ? & ?)|apply IH2 in H2 as (s & ? & ?)];
      exists s; eauto.
  - intros [H1| ->]; [apply IH1 in H1 as (s & ? & ?); exists s; eauto|].
    exists "". eauto.
  - intros (s & Hs & Hr & _). exists s. eauto.
  - intros (s & Hs & Hr & _). exists s. eauto.
  - intros (c & s & Hc & Hs & Hr & _). exists (String c s). rewrite Hr. simpl.
    repeat split; done.
  - intros (st1 & H1 & Hr & _). apply IH1 in H1 as (s & Hs & Hl).
    exists s. by rewrite Hr.
  - intros ->. by exists "".
  - intros ->. by exists "".
Qed.

Lemma spans_groupless (r : regex) :
  groupless r = true ->
  forall st st', spans r st st' -> ms_group st' = ms_group st.
Proof.
  induction r as [c|cls|r1 IH1 r2 IH2|r1 IH1 r2 IH2|r1 IH1|cls|cls|cls|r1 IH1| |];
    simpl; intros Hg st st'.
  - by intros [_ ?].
  - by intros (c & _ & _ & ?).
  - apply andb_true_iff in Hg as [Hg1 Hg2]. intros (mid & H1 & H2).
    rewrite (IH2 Hg2 _ _ H2). by apply IH1.
  - apply andb_true_iff in Hg as [Hg1 Hg2]. intros [H1|H2]; auto.
  - intros [H1| ->]; auto.
  - by intros (s & _ & _ & ?).
  - by intros (s & _ & _ & ?).
  - by intros (c & s & _ & _ & _ & ?).
  - done.
  - by intros ->.
  - by intros ->.
Qed.

Lemma spans_the_group (r g : regex) :
  the_group r = Some g ->
  forall st st', spans r st st' ->
    exists s, ms_group st' = Some s /\ lang g s.
Proof.
  revert g.
  induction r as [c|cls|r1 IH1 r2 IH2|r1 IH1 r2 IH2|r1 IH1|cls|cls|cls|r1 IH1| |];
    intros g; simpl; try done.
  - destruct (the_group r1) as [g1|] eqn:Hg1.
    + destruct (groupless r2) eqn:Hg2; [|done]. intros [= <-] st st'.
      intros (mid & H1 & H2).
      rewrite (spans_groupless r2 Hg2 _ _ H2). by eapply IH1.
    + intros Hg st st' (mid & H1 & H2). by eapply IH2.
  - intros [= <-] st st' (st1 & H1 & Hr & Hg).
    apply spans_lang in H1 as (s & Hs & Hl). exists s. split; [|done].
    by rewrite Hg, Hs, string_take_app.
Qed.

Lemma findall_from_captures (p : pattern) (g : regex) (x : string) (fuel : nat) :
  the_group (pat_re p) = Some g ->
  forall prev rest, In x (findall_from fuel p prev rest) -> lang g x.
Proof.
  intros Hg. induction fuel as [|fuel IH]; intros prev rest; simpl; [done|].
  destruct (rmatch (pat_multiline p) (pat_re p) (MState prev rest None) Some)
    as [st'|] eqn:Hm.
  - apply rmatch_spans in Hm as (st1 & Hsp & [= ->]).
    destruct (spans_the_group _ _ Hg _ _ Hsp) as (s & Hs & Hl).
    rewrite Hs. simpl.
    destruct (String.length (ms_rest st') <? String.length rest)%nat.
    + intros [<-|Hin]; [done|]. by eapply IH.
    + destruct rest as [|c s'].
      * intros [<-|[]]. done.
      * intros [<-|Hin]; [done|]. by eapply IH.
  - destruct rest as [|c s']; [done|]. apply IH.
Qed.

(** Every text that [findall] returns is spanned by the capturing group of
    the pattern. *)
Lemma findall_captures (p : pattern) (g : regex) (text x : string) :
  the_group (pat_re p) = Some g -> In x (findall p text) -> lang g x.
Proof. intros Hg. unfold findall. by apply findall_from_captures. Qed.

Lemma lang_number (sepr : regex) (seps s : string) :
  (forall t, lang sepr t -> exists c, t = String c "" /\ one_of seps c = true) ->
  lang (RPlus is_digit @@ ROpt (sepr @@ RPlus is_digit)) s ->
  number_text seps s.
Proof.
  intros Hsep. simpl.
  intros (whole & frac & -> & Hwhole & [->|(t & ds & -> & Ht & Hds)]).
  - exists whole, "". split; [done|]. split; [done|]. by left.
  - destruct (Hsep t Ht) as (c & -> & Hc).
    exists whole, (String c ds). split; [done|]. split; [done|].
    right. by exists c, ds.
Qed.

Lemma lang_set_sep (seps t : string) :
  lang (RSet (one_of seps)) t -> exists c, t = String c "" /\ one_of seps c = true.
Proof. simpl. intros (c & ? & ->). eauto. Qed.

Lemma lang_char_dot (t : string) :
  lang (RChar ".") t -> exists c, t = String c "" /\ one_of "." c = true.
Proof. simpl. intros ->. by exists "."%char. Qed.

Lemma lang_height (num : regex) (seps s : string) :
  (forall t, lang num t -> number_text seps t) ->
  lang (ROpt (RSet (one_of "aA")) @@ num) s -> height_text seps s.
Proof.
  intros Hnum. cbn [lang].
  intros (sign & rest & -> & Hsign & Hrest). exists sign, rest.
  split; [done|]. split; [|by apply Hnum].
  destruct Hsign as [->|(c & Hc & ->)]; [by left|]. right. simpl in Hc.
  rewrite orb_false_r in Hc.
  apply orb_true_iff in Hc as [->%Ascii.eqb_eq| ->%Ascii.eqb_eq]; auto.
Qed.

Lemma findall_height_id (text x : string) :
  In x (findall RE_AUTO_HEIGHT_ID text) -> height_text "_." x.
Proof.
  intros Hin. eapply findall_captures in Hin; [|reflexivity].
  revert Hin. apply lang_height. intros t. apply lang_number, lang_set_sep.
Qed.

Lemma findall_height_desc (text x : string) :
  In x (findall RE_AUTO_HEIGHT_DESC text) -> height_text "." x.
Proof.
  intros Hin. eapply findall_captures in Hin; [|reflexivity].
  revert Hin. apply lang_height. intros t. apply lang_number, lang_char_dot.
Qed.

(** X28: what the four patterns capture.  A height found in an identifier
    or a description is a decimal number, possibly after [a] or [A]; a raise
    is a decimal number; a scale is one number or two with a comma between
    them.  In an identifier the decimal separator is [_] or [.], in a
    description it is [.]. *)
Theorem captured_values_are_numbers (text x : string) :
  (In x (findall RE_AUTO_HEIGHT_ID text) -> height_text "_." x)
  /\ (In x (findall RE_AUTO_HEIGHT_DESC text) -> height_text "." x)
  /\ (In x (findall RE_AUTO_RAISE_DESC text) -> number_text "." x)
  /\ (In x (findall RE_AUTO_SCALE_DESC text) -> scale_text x).
Proof.
  split; [apply findall_height_id|]. split; [apply findall_height_desc|].
  split; intros Hin.
  - eapply findall_captures in Hin; [|reflexivity].
    revert Hin. apply lang_number, lang_char_dot.
  - eapply findall_captures in Hin; [|reflexivity].
    cbn [lang] in Hin.
    destruct Hin as (whole & tail & -> & Hwhole & frac & rest & -> & Hfrac & Hrest).
    exists (whole ++ frac), rest. rewrite string_app_assoc.
    split; [done|]. split.
    { apply (lang_number (RChar ".")); [apply lang_char_dot|].
      cbn [lang]. by exists whole, frac. }
    destruct Hrest as [->|Hrest]; [by left|]. right.
    destruct Hrest as (sp1 & r1 & -> & Hsp1 & comma & r2 & -> & -> & sp2 & r3
                       & -> & Hsp2 & whole2 & frac2 & -> & Hwhole2 & Hfrac2).
    exists sp1, sp2, (whole2 ++ frac2). split; [done|].
    split; [destruct Hsp1 as [->| ->]; auto|].
    split; [destruct Hsp2 as [->| ->]; auto|].
    apply (lang_number (RChar ".")); [apply lang_char_dot|].
    cbn [lang]. by exists whole2, frac2.
Qed.

Lemma captured_values_are_numbers_witness :
  In "a12_5" (findall RE_AUTO_HEIGHT_ID "wall_a12_5_mm")
  /\ height_text "_." "a12_5".
Proof.
  assert (In "a12_5" (findall RE_AUTO_HEIGHT_ID "wall_a12_5_mm")) as Hin
    by (vm_compute; auto).
  split; [exact Hin|].
  exact (proj1 (captured_values_are_numbers "wall_a12_5_mm" "a12_5") Hin).
Defined.

(** * The extrusion walk does not fail on well-formed documents *)

Lemma digit_not_anti (d : ascii) : is_digit d = true -> one_of "aA" d = false.
Proof. by destruct d as [[|] [|] [|] [|] [|] [|] [|] [|]]. Qed.

Lemma digit_not_underscore (d : ascii) :
  is_digit d = true -> Ascii.eqb d "_" = false.
Proof. by destruct d as [[|] [|] [|] [|] [|] [|] [|] [|]]. Qed.

Lemma anti_not_underscore (c : ascii) :
  one_of "aA" c = true -> Ascii.eqb c "_" = false.
Proof. by destruct c as [[|] [|] [|] [|] [|] [|] [|] [|]]. Qed.

Lemma height_text_read (seps h : string) : height_text seps h -> height_read h.
Proof.
  intros (sign & rest & -> & Hsign & whole & frac & -> & [Hne Hd] & _).
  destruct whole as [|d whole]; [done|]. destruct Hd as [Hd _].
  destruct Hsign as [->|[->| ->]].
  - left. right. by exists d, (whole ++ frac).
  - right. by exists "a"%char, d, (whole ++ frac).
  - right. by exists "A"%char, d, (whole ++ frac).
Qed.

Lemma replace_underscore_read (h : string) :
  height_text "_." h -> height_read (replace_underscore h).
Proof.
  intros Hh. apply height_text_read in Hh as [[->|(d & rest & -> & Hd)]
                                             |(c & d & rest & -> & Hc & Hd)].
  - left. by left.
  - left. right. simpl. rewrite (digit_not_underscore d Hd). eauto.
  - right. simpl.
    rewrite (anti_not_underscore c Hc), (digit_not_underscore d Hd). eauto 6.
Qed.

Lemma py_last_In (x : string) (l : list string) : In (py_last (x :: l)) (x :: l).
Proof.
  unfold py_last. revert x. induction l as [|y l IH]; intros x; [by left|].
  right. apply (IH y).
Qed.

Lemma merge_id_read (e : extrusion) (n : element) :
  height_read (ex_height e) -> height_read (ex_height (merge_id e n)).
Proof.
  intros He. unfold merge_id.
  destruct (findall RE_AUTO_HEIGHT_ID (default "" (el_id n))) as [|x l] eqn:Hf;
    [done|].
  simpl. apply replace_underscore_read.
  eapply (findall_height_id (default "" (el_id n))).
  rewrite Hf. apply py_last_In.
Qed.

Lemma merge_desc_text_read (e : extrusion) (text : string) :
  height_read (ex_height e) ->
  height_read (ex_height (merge_desc_text e text)).
Proof.
  intros He. unfold merge_desc_text.
  assert (height_read
            (ex_height
               match findall RE_AUTO_HEIGHT_DESC text with
               | [] => e
               | x :: l => set_height (py_last (x :: l)) e
               end)) as H1.
  { destruct (findall RE_AUTO_HEIGHT_DESC text) as [|x l] eqn:Hf; [done|].
    simpl. eapply height_text_read, (findall_height_desc text).
    rewrite Hf. apply py_last_In. }
  revert H1.
  generalize (match findall RE_AUTO_HEIGHT_DESC text with
              | [] => e
              | x :: l => set_height (py_last (x :: l)) e
              end).
  intros e1 H1.
  assert (forall e2 : extrusion,
            ex_height e2 = ex_height e1 -> height_read (ex_height e2)) as Hkeep
    by (intros e2 ->; done).
  destruct (findall RE_AUTO_RAISE_DESC text);
    destruct (findall RE_AUTO_SCALE_DESC text); try done;
    try destruct (has_comma _); by apply Hkeep.
Qed.

Lemma merge_descs_read (tags : list string) (e : extrusion) (n : element) :
  (forall t, In t tags -> find_child t (el_childtext n) <> Some None) ->
  height_read (ex_height e) ->
  exists e', merge_descs tags e n = Some e' /\ height_read (ex_height e').
Proof.
  revert e. induction tags as [|t tags IH]; intros e Htags He; simpl; [eauto|].
  destruct (find_child t (el_childtext n)) as [[text|]|] eqn:Hf.
  - apply IH; [intros t' Ht'; apply Htags; by right|].
    by apply merge_desc_text_read.
  - exfalso. by apply (Htags t); [left|].
  - apply IH; [intros t' Ht'; apply Htags; by right|done].
Qed.

Lemma strip_anti_ok (e : extrusion) :
  height_read (ex_height e) ->
  exists e', strip_anti e = Some e' /\ height_ok (ex_height e').
Proof.
  unfold strip_anti.
  intros [[Hh|(d & rest & Hh & Hd)]|(c & d & rest & Hh & Hc & Hd)]; rewrite Hh.
  - simpl. exists e. split; [done|]. rewrite Hh. by left.
  - rewrite (digit_not_anti d Hd). exists e. split; [done|]. rewrite Hh.
    right. eauto.
  - rewrite Hc. eexists. split; [done|]. simpl. right. eauto.
Qed.

Lemma merge_level_ok (e : extrusion) (n : element) :
  texts_present n -> height_ok (ex_height e) ->
  exists e', merge_level e n = Some e' /\ height_ok (ex_height e').
Proof.
  intros Hn He. unfold merge_level, merge_own_values.
  destruct (merge_descs_read DESC_TAGS (merge_id e n) n Hn) as (e1 & -> & H1).
  { apply merge_id_read. by left. }
  simpl. by apply strip_anti_ok.
Qed.

Lemma merge_levels_ok (nodes : list element) (e : extrusion) :
  Forall texts_present nodes -> height_ok (ex_height e) ->
  exists e', merge_levels e nodes = Some e' /\ height_ok (ex_height e').
Proof.
  revert e. induction nodes as [|n nodes IH]; intros e Hall He; simpl; [eauto|].
  apply Forall_cons in Hall as [Hn Hall].
  destruct (merge_level_ok e n Hn He) as (e1 & -> & H1). simpl. by apply IH.
Qed.

(** X29: when every description child of the element and of the groups
    around it has its text, the extrusion parameters are resolved without
    an error: the height is never empty when its first character is looked
    at.  The resolved height is the parameter [h] or begins with a digit,
    the mark [a] or [A] having been taken off. *)
Theorem extrusion_resolved_without_error (parsedesc : string) (node : element)
    (parents : list element) :
  Forall texts_present (group_chain parents ++ [node])%list ->
  exists ext,
    resolve_extrusion parsedesc node parents = Some ext
    /\ height_ok (ex_height ext).
Proof.
  intros Hall. unfold resolve_extrusion.
  destruct (String.eqb parsedesc "true").
  - rewrite object_merge_as_levels. apply merge_levels_ok; [done|]. by left.
  - exists extrusion_default. split; [done|]. by left.
Qed.

Lemma extrusion_resolved_without_error_witness :
  exists ext,
    resolve_extrusion "true"
      (Element (Some (addNS_svg "path")) (Some "wall_a12_5_mm") None None
         [(addNS_svg "desc", Some "raise: 3mm")])
      [Element (Some (addNS_svg "g")) (Some "layer_2mm") None None []]
    = Some ext
    /\ height_ok (ex_height ext).
Proof.
  apply extrusion_resolved_without_error.
  repeat constructor; intros t [<-|[<-|[]]]; simpl; discriminate.
Defined.

(** * When [convertPath] succeeds *)

Section ConversionSucceeds.
Context `{Units}.
Variable opts : options.
Variables cx cy : Q.

Lemma fold_nested_total (path : list subpath) (members : list nat) :
  (forall j, j ∈ members -> (j < length path)%nat) ->
  forall acc, is_Some (foldM (fold_nested cx cy path) members acc).
Proof.
  intros Hm acc.
  destruct (foldM_total (fun _ => True) (fold_nested cx cy path) members acc)
    as (a & Ha & _); [|done|by eexists].
  intros [[pts pp] c] j _ Hj. unfold fold_nested.
  destruct (path !! j) as [pj|] eqn:Hpj; simpl; [eauto|].
  apply lookup_ge_None in Hpj. specialize (Hm j Hj).
  unfold subpath in *. lia.
Qed.

Lemma emit_points_total (path : list subpath)
    (contains contained_by : list (list nat)) (id : string) (w : list out) :
  containment path = Some (contains, contained_by) ->
  is_Some (foldM (emit_points cx cy path contains contained_by id)
                 (seq 0 (length path)) (0%nat, w)).
Proof.
  intros Hc. apply containment_upto_all in Hc as ((Hl1 & Hl2 & _) & Hl & _).
  simpl in Hl1, Hl2, Hl.
  destruct (foldM_total (fun _ => True)
              (emit_points cx cy path contains contained_by id)
              (seq 0 (length path)) (0%nat, w))
    as (a & Ha & _); [|done|by eexists].
  intros [k w0] i _ Hi. apply elem_of_seq in Hi. unfold emit_points.
  destruct (lookup_lt_is_Some_2 contained_by i) as [cb ->]; [lia|].
  destruct (lookup_lt_is_Some_2 contains i) as [cs Hcs]; [lia|].
  rewrite Hcs. simpl.
  destruct (path !! i) as [[verts bb]|] eqn:Hsub; simpl;
    [|apply lookup_ge_None in Hsub; unfold subpath in *; lia].
  destruct (nonempty cb); [eauto|].
  destruct (nonempty cs); [|eauto].
  destruct (fold_nested_total path cs) with
    (acc := (map (centered cx cy) verts, [seq 0 (length verts)],
             length verts)) as [[[pts pp] c] ->]; [|simpl; eauto].
  intros j Hj. assert (listed contains i j) as Hij by (by exists cs).
  apply Hl in Hij as [He _]. by apply encloses_lt in He as [_ ?].
Qed.

Lemma emit_block_total (path : list subpath)
    (contains contained_by : list (list nat)) (id : string) (filled : bool)
    (w : list out) :
  containment path = Some (contains, contained_by) ->
  is_Some (foldM (emit_block opts contains contained_by id filled)
                 (seq 0 (length path)) (0%nat, w)).
Proof.
  intros Hc. apply containment_mirrored in Hc as (Hl1 & Hl2 & _).
  simpl in Hl1, Hl2.
  destruct (foldM_total (fun _ => True)
              (emit_block opts contains contained_by id filled)
              (seq 0 (length path)) (0%nat, w))
    as (a & Ha & _); [|done|by eexists].
  intros [k w0] i _ Hi. apply elem_of_seq in Hi. unfold emit_block.
  destruct (lookup_lt_is_Some_2 contained_by i) as [cb ->]; [lia|].
  destruct (lookup_lt_is_Some_2 contains i) as [cs ->]; [lia|].
  simpl. destruct (nonempty cb); eauto.
Qed.

(** X30: for an element as the traversal stores it, [convertPath] can fail
    in three ways only: the style attribute does not parse, the stroke
    width is not a length, or a description of the element or of a group
    around it has no text.  When none of these happens the call returns. *)
Theorem convertPath_succeeds (em : emitter) (el : element)
    (parents : list element) (path : list subpath) :
  Forall stored_subpath path ->
  (exists style,
     getPathStyle el = Some style
     /\ is_Some (stroke_width_text (default "1" (style !! "stroke-width")))) ->
  Forall texts_present (group_chain parents ++ [el])%list ->
  is_Some (convertPath opts cx cy em (el, parents, path)).
Proof.
  intros Hstored (style & Hstyle & [sw Hsw]) Htexts. unfold convertPath.
  destruct path as [|sub0 rest]; [by eexists|].
  revert Hstored. generalize (sub0 :: rest). clear sub0 rest.
  intros path Hstored. cbv iota.
  destruct (containment_total path Hstored) as [[contains contained_by] Hc].
  rewrite Hc. simpl.
  destruct (if String.eqb (default "" (el_id el)) "" then _ else _)
    as [[id rawid] pathid'].
  rewrite Hstyle. simpl. rewrite Hsw. simpl.
  destruct (negb (negb (String.eqb (default "#FFF" (style !! "fill")) "none"))
            && String.eqb (default "none" (style !! "stroke")) "none");
    [by eexists|].
  destruct (emit_points_total path contains contained_by id (f em) Hc)
    as [[k1 w1] ->].
  simpl.
  assert (is_Some (resolve_extrusion (parsedesc opts) el parents)) as [ext ->].
  { unfold resolve_extrusion. destruct (String.eqb (parsedesc opts) "true");
      [|by eexists].
    rewrite object_merge_as_levels.
    destruct (merge_levels_ok (group_chain parents ++ [el]) extrusion_default)
      as (e & -> & _); [done|by left|by eexists]. }
  simpl.
  destruct (emit_block_total path contains contained_by id
              (negb (String.eqb (default "#FFF" (style !! "fill")) "none"))
              (w1 ++ [WModule id]) Hc) as [[k2 w2] ->].
  simpl. by eexists.
Qed.

End ConversionSucceeds.

Lemma convertPath_succeeds_witness :
  is_Some (@convertPath units_example opts_example 5 5 (Emitter 0 [] [] [] [])
             (svg_element "path" "rings_3mm" "fill:#000", [], nested_squares)).
Proof.
  apply (@convertPath_succeeds units_example opts_example 5 5).
  - repeat constructor.
    + by exists (polyline [(0, 0); (10, 0); (10, 10); (0, 10); (0, 0)]).
    + by exists (polyline [(2, 2); (8, 2); (8, 8); (2, 8); (2, 2)]).
    + by exists (polyline [(4, 4); (6, 4); (6, 6); (4, 6); (4, 4)]).
  - eexists. split; [vm_compute; reflexivity|]. by eexists.
  - repeat constructor; intros t [<-|[<-|[]]]; simpl; discriminate.
Defined.
